(** * The base-N codec and the size-constrained compression search

    A shallow embedding of [BitStreamEncoder] (bitstream.js), of
    [ImageProcessor] (imageProcessor.js) and of the decoding path of
    [ImageViewer] (imageViewer.js).

    Conventions of the embedding.
    - A JavaScript string handled character by character (the safe
      character set, an encoded string) is a [list ascii]: one element per
      character, each character a single code unit, as in the URL-safe set
      the encoder is configured with.  Format identifiers, which the code
      only compares and passes on, are [string]s.  The constructor is also
      embedded over strings of UTF-16 code units ([UTF16]), where a
      surrogate pair can be written; on strings of single-byte characters
      the two embeddings agree.
    - A [BigInt] is a [Z]; [/] and [%] on it are [Z.quot] and [Z.rem].
    - A [Uint8Array] is a [list byte]; the plain array of Numbers that
      [decodeBits] builds is a [list Z].
    - A Number is a binary64 [float] with the kernel's IEEE operations.
    - A call either returns, throws, or never completes: [Outcome].  A
      [while] loop over a shrinking [BigInt] runs on the number of iterations
      that halving allows ([halvings]); the hill-climb, whose loop has no
      bound in the source, takes the number of iterations it is allowed as
      an argument, and [Diverge] is the outcome of a loop that has not ended
      within its allowance.
    - The canvas, the bitmap decoder and the constants of [CONFIG] are
      parameters of the search; so are the bytes of a file, the address of
      the page and the loading of an image element where the page and the
      viewer use them.
    - A call of an [async] function that is not awaited hands its caller a
      promise, on which [length] is [undefined].

    The file has three parts: the embedding of the two source files, the
    vocabulary of the statements (including a stub world for concrete runs),
    and the facts. *)

From Stdlib Require Import ZArith Lia Ascii String List.
From Stdlib Require Import Strings.Byte.
From Stdlib Require Import Floats.PrimFloat Floats.SpecFloat Floats.FloatOps
  Floats.FloatAxioms.
From Stdlib Require Import Numbers.Cyclic.Int63.Uint63.
From stdpp Require Import gmap strings list.

#[local] Set Warnings "-inexact-float,-clear-no-such-hyp".
#[local] Open Scope Z_scope.

(** ** Outcomes of a call *)

Inductive Error : Type :=
| InvalidSafeChars                      (* 'Invalid safeChars parameter' *)
| DuplicateChars                        (* 'safeChars contains duplicate characters' *)
| EmptyInput                            (* 'Input must be a non-empty string' *)
| InvalidCharacters (cs : list ascii)   (* 'Invalid characters in input: ...' *)
| InvalidLengthPrefix                   (* 'Invalid length prefix: length must be greater than 0' *)
| IncompleteData (expected got : Z)     (* 'Incomplete data: expected ... but got ...' *)
| RangeError                            (* BigInt division by zero *)
| TypeError                             (* property read on undefined, BigInt + undefined *)
| RenderFailed                          (* the canvas produced no blob *)
| UnableToCompress.                     (* 'Unable to compress image sufficiently ...' *)

Inductive Outcome (A : Type) : Type :=
| Return (a : A)
| Throw (e : Error)
| Diverge.

Arguments Return {A} a.
Arguments Throw {A} e.
Arguments Diverge {A}.

Definition bind {A B : Type} (m : Outcome A) (k : A -> Outcome B) : Outcome B :=
  match m with
  | Return a => k a
  | Throw e => Throw e
  | Diverge => Diverge
  end.

Notation "'let*' x ':=' m 'in' k" := (bind m (fun x => k))
  (at level 10, x pattern, m at level 100, k at level 200).

(** [try { body } catch { handler }] *)
Definition try_catch {A : Type} (body : Outcome A) (handler : Error -> Outcome A) : Outcome A :=
  match body with
  | Return a => Return a
  | Throw e => handler e
  | Diverge => Diverge
  end.

(** ** bitstream.js *)

Module BitStreamEncoder.

Abbreviation JSString := (list ascii).
Abbreviation Uint8Array := (list byte).

Record t : Type := {
  SAFE_CHARS : JSString;
  RADIX : Z;
  charToIndex : gmap ascii Z;
  indexToChar : gmap Z ascii
}.

(** The loop [for (let i = 0; i < safeChars.length; i++)] that fills both
    lookup tables; [chars] is what remains of [safeChars] from index [i]. *)
Fixpoint fillTables (chars : JSString) (i : Z) (c2i : gmap ascii Z) (i2c : gmap Z ascii)
  : gmap ascii Z * gmap Z ascii :=
  match chars with
  | [] => (c2i, i2c)
  | c :: rest => fillTables rest (i + 1) (<[c := i]> c2i) (<[i := c]> i2c)
  end.

Definition constructor (safeChars : JSString) : Outcome t :=
  if decide (length safeChars = 0%nat) then Throw InvalidSafeChars
  else
    let uniqueChars : gset ascii := list_to_set safeChars in
    if decide (size uniqueChars ≠ length safeChars) then Throw DuplicateChars
    else
      let tables := fillTables safeChars 0 ∅ ∅ in
      Return {| SAFE_CHARS := safeChars;
                RADIX := Z.of_nat (length safeChars);
                charToIndex := tables.1;
                indexToChar := tables.2 |}.

(** [toBitArray] on binary data is the view of its bytes. *)
Definition toBitArray (data : Uint8Array) : Uint8Array := data.

Definition Z_of_byte (b : byte) : Z := Z.of_N (Byte.to_N b).

(** Storing a Number into a [Uint8Array] keeps it modulo 256. *)
Definition byte_of_Z (z : Z) : byte :=
  match Byte.of_N (Z.to_N (z mod 256)) with
  | Some b => b
  | None => x00
  end.

(** [DataView.setUint32(0, n, false)] on a fresh 4-byte buffer. *)
Definition setUint32 (n : Z) : Uint8Array :=
  let n := n mod 2 ^ 32 in
  [byte_of_Z (Z.shiftr n 24); byte_of_Z (Z.shiftr n 16); byte_of_Z (Z.shiftr n 8); byte_of_Z n].

(** [DataView.getUint32(0, false)] on 4 bytes. *)
Definition getUint32 (bs : Uint8Array) : Z :=
  match bs with
  | [b0; b1; b2; b3] =>
      Z_of_byte b0 * 2 ^ 24 + Z_of_byte b1 * 2 ^ 16 + Z_of_byte b2 * 2 ^ 8 + Z_of_byte b3
  | _ => 0
  end.

(** [str[i]] for a Number [i]: [undefined] out of range. *)
Definition charAt (s : JSString) (i : Z) : option ascii :=
  if i <? 0 then None else s !! Z.to_nat i.

(** [chunks.join('')]: an [undefined] element contributes nothing. *)
Definition join (chunks : list (option ascii)) : JSString :=
  omap id chunks.

(** The number of iterations after which a loop that at least halves a
    positive [value] each time has reached zero. *)
Definition halvings (value : Z) : nat := S (Z.to_nat (Z.log2 value)).

(** [while (value > 0n) { chunks.unshift(SAFE_CHARS[value % RADIX]); value = value / RADIX }] *)
Fixpoint encodeLoop (fuel : nat) (enc : t) (value : Z) (chunks : list (option ascii))
  : Outcome (list (option ascii)) :=
  if 0 <? value then
    match fuel with
    | O => Diverge
    | S fuel' =>
        if RADIX enc =? 0 then Throw RangeError
        else
          let remainder := Z.rem value (RADIX enc) in
          encodeLoop fuel' enc (Z.quot value (RADIX enc))
                     (charAt (SAFE_CHARS enc) remainder :: chunks)
    end
  else Return chunks.

Definition frameValue (allBytes : Uint8Array) : Z :=
  fold_left (fun value byte => Z.lor (Z.shiftl value 8) (Z_of_byte byte)) allBytes 0.

Definition encodeBits (enc : t) (data : Uint8Array) : Outcome JSString :=
  let bytes := toBitArray data in
  let lengthPrefix := setUint32 (Z.of_nat (length bytes)) in
  let allBytes := lengthPrefix ++ bytes in
  let value := frameValue allBytes in
  let* chunks :=
    (if value =? 0 then Return [charAt (SAFE_CHARS enc) 0]
     else encodeLoop (halvings value) enc value []) in
  Return (join chunks).

(** [for (const char of str) value = value * RADIX + charToIndex.get(char)] *)
Fixpoint hornerLoop (enc : t) (str : JSString) (value : Z) : Outcome Z :=
  match str with
  | [] => Return value
  | char :: rest =>
      match charToIndex enc !! char with
      | Some i => hornerLoop enc rest (value * RADIX enc + i)
      | None => Throw TypeError
      end
  end.

(** [while (value > 0n) { bytes.unshift(Number(value & 0xFFn)); value = value >> 8n }] *)
Fixpoint bytesLoop (fuel : nat) (value : Z) (bytes : list Z) : Outcome (list Z) :=
  if 0 <? value then
    match fuel with
    | O => Diverge
    | S fuel' => bytesLoop fuel' (Z.shiftr value 8) (Z.land value 255 :: bytes)
    end
  else Return bytes.

(** [while (bytes.length < 4) bytes.unshift(0)] *)
Definition padLoop (bytes : list Z) : list Z :=
  Nat.iter (4 - length bytes) (cons 0) bytes.

Definition decodeBits (enc : t) (str : JSString) : Outcome Uint8Array :=
  if decide (length str = 0%nat) then Throw EmptyInput
  else
    let invalidChars := filter (fun char => charToIndex enc !! char = None) str in
    if decide (0 < length invalidChars)%nat then Throw (InvalidCharacters invalidChars)
    else
      let* value := hornerLoop enc str 0 in
      let* bytes :=
        (if value =? 0 then Return [0] else bytesLoop (halvings value) value []) in
      let bytes := padLoop bytes in
      let lengthArray := map byte_of_Z (take 4 bytes) in
      let expectedLength := getUint32 lengthArray in
      if expectedLength <=? 0 then Throw InvalidLengthPrefix
      else
        let dataBytes := drop 4 bytes in
        if Z.of_nat (length dataBytes) <? expectedLength
        then Throw (IncompleteData expectedLength (Z.of_nat (length dataBytes)))
        else Return (map byte_of_Z (take (Z.to_nat expectedLength) dataBytes)).

End BitStreamEncoder.

(** ** The constructor over UTF-16 code units

    [BitStreamEncoder] above takes strings of single-byte characters.  The
    constructor's checks read the alphabet in two ways, [new Set(safeChars)]
    through the string iterator and [safeChars.length] and [safeChars[i]]
    by code unit, which differ on a surrogate pair; here the constructor is
    embedded again over code units. *)

Module UTF16.

(** A string as its UTF-16 code units. *)
Abbreviation CodeUnits := (list Z).

(** U+D800 to U+DBFF, and U+DC00 to U+DFFF. *)
Definition isHighSurrogate (u : Z) : bool := (55296 <=? u) && (u <=? 56319).

Definition isLowSurrogate (u : Z) : bool := (56320 <=? u) && (u <=? 57343).

(** The elements the string iterator yields, as [new Set(safeChars)] and
    [[...str]] see them: a high surrogate followed by a low one is one
    element of two units, every other unit an element of its own. *)
Fixpoint codePoints (s : CodeUnits) : list CodeUnits :=
  match s with
  | [] => []
  | u :: rest =>
      match rest with
      | l :: rest' =>
          if isHighSurrogate u && isLowSurrogate l then [u; l] :: codePoints rest'
          else [u] :: codePoints rest
      | [] => [[u]]
      end
  end.

Record t : Type := {
  SAFE_CHARS : CodeUnits;
  RADIX : Z;
  charToIndex : gmap Z Z;
  indexToChar : gmap Z Z
}.

(** [safeChars[i]] is the unit at index [i]. *)
Fixpoint fillTables (chars : CodeUnits) (i : Z) (c2i : gmap Z Z) (i2c : gmap Z Z)
  : gmap Z Z * gmap Z Z :=
  match chars with
  | [] => (c2i, i2c)
  | c :: rest => fillTables rest (i + 1) (<[c := i]> c2i) (<[i := c]> i2c)
  end.

Definition constructor (safeChars : CodeUnits) : Outcome t :=
  if decide (length safeChars = 0%nat) then Throw InvalidSafeChars
  else
    let uniqueChars : gset CodeUnits := list_to_set (codePoints safeChars) in
    if decide (size uniqueChars ≠ length safeChars) then Throw DuplicateChars
    else
      let tables := fillTables safeChars 0 ∅ ∅ in
      Return {| SAFE_CHARS := safeChars;
                RADIX := Z.of_nat (length safeChars);
                charToIndex := tables.1;
                indexToChar := tables.2 |}.

(** The unit of a single-byte character, and the units of a string of
    such characters. *)
Definition unitOf (c : ascii) : Z := Z.of_N (N_of_ascii c).

Definition toUnits (s : list ascii) : CodeUnits := map unitOf s.

(** 'a' followed by U+1F600, a surrogate pair. *)
Definition letterAndEmoji : CodeUnits := [97; 55357; 56832].

End UTF16.

(** ** JavaScript Numbers *)

Module Number.

(** The Number holding an integer (exact below 2^53, as every length is). *)
Definition ofZ (z : Z) : float :=
  if z <? 0 then PrimFloat.opp (PrimFloat.of_uint63 (Uint63.of_Z (- z)))
  else PrimFloat.of_uint63 (Uint63.of_Z z).

(** [Math.min(a, b)]: NaN if either is NaN, and -0 is below +0. *)
Definition Math_min (a b : float) : float :=
  if PrimFloat.is_nan a || PrimFloat.is_nan b then PrimFloat.nan
  else if PrimFloat.ltb a b then a
  else if PrimFloat.ltb b a then b
  else if PrimFloat.is_zero a && PrimFloat.get_sign a then a else b.

Definition Math_abs (a : float) : float := PrimFloat.abs a.

(** [Math.round(x)]: the integer nearest to [x], ties towards +infinity;
    a result of zero keeps the sign of [x]. *)
Definition Math_round (x : float) : float :=
  match Prim2SF x with
  | S754_finite s m e =>
      if 0 <=? e then x
      else
        let n := if s then Z.neg m else Z.pos m in
        let r := (2 * n + 2 ^ (- e)) / 2 ^ (1 - e) in
        if r =? 0 then (if s then PrimFloat.neg_zero else PrimFloat.zero) else ofZ r
  | _ => x
  end.

End Number.

(** ** imageProcessor.js *)

Module ImageProcessor.
Import BitStreamEncoder.

Record ImageBitmap : Type := { width : float; height : float }.

Record File : Type := { type : string }.

(** The argument object of [tryCompression]; [detectOptimalFormat] leaves
    [width] and [height] undefined. *)
Record CompressionOptions : Type := {
  opt_format : string;
  opt_quality : float;
  opt_width : option float;
  opt_height : option float
}.

Record Compressed : Type := { buffer : Uint8Array; size : float }.

Record Params : Type := { format : string; quality : float; scale : float }.

Record Data : Type := { encoded : JSString; data_format : string; data_size : float }.

Record TrialResult : Type := {
  success : bool;
  encodedLength : float;
  data : option Data;
  params : Params
}.

Record Bounds : Type := {
  minQuality : float;
  maxQuality : float;
  minScale : float;
  maxScale : float
}.

Record SearchState : Type := {
  bounds : Bounds;
  bestResult : option TrialResult;
  iterations : Z
}.

(** One executed round of the binary search, kept as a record of the run:
    the bounds it started from, the trial at their midpoint, and the bounds
    it left. *)
Record Round : Type := { before : Bounds; trial : TrialResult; after : Bounds }.

(** What [binarySearchCompression] returns: [bestResult], or the literal
    [{ success: false }]. *)
Inductive SearchResult : Type :=
| Found (r : TrialResult)
| NotFound.

Record Step : Type := { step_quality : float; step_scale : float }.

Section Processor.

(** [this.encoder], [CONFIG.MAX_URL_LENGTH], [CONFIG.SUPPORTED_INPUT_FORMATS],
    and the two browser facilities the search calls: decoding a file into a
    bitmap, and re-encoding a bitmap on a canvas ([tryCompression], which
    either yields a blob or rejects). *)
Variable encoder : BitStreamEncoder.t.
Variable MAX_URL_LENGTH : float.
Variable SUPPORTED_INPUT_FORMATS : list string.
Variable createImageBitmap : File -> Outcome ImageBitmap.
Variable tryCompression : ImageBitmap -> CompressionOptions -> option Compressed.

Definition tryCompressionLevel (img : ImageBitmap) (params : Params) : Outcome TrialResult :=
  try_catch
    (let* c :=
       (match tryCompression img
                {| opt_format := format params;
                   opt_quality := quality params;
                   opt_width := Some (Number.Math_round (PrimFloat.mul (width img) (scale params)));
                   opt_height := Some (Number.Math_round (PrimFloat.mul (height img) (scale params))) |}
        with
        | Some c => Return c
        | None => Throw RenderFailed
        end) in
     let bits := toBitArray (buffer c) in
     let* encoded := encodeBits encoder bits in
     let encoded_length := Number.ofZ (Z.of_nat (length encoded)) in
     let success := PrimFloat.leb encoded_length MAX_URL_LENGTH in
     Return {| success := success;
               encodedLength := encoded_length;
               data := if success
                       then Some {| encoded := encoded;
                                    data_format := format params;
                                    data_size := size c |}
                       else None;
               params := params |})
    (fun error =>
       Return {| success := false;
                 encodedLength := PrimFloat.infinity;
                 data := None;
                 params := params |}).

Definition initialBounds (initialLength : float) : Bounds :=
  let targetSize := PrimFloat.mul MAX_URL_LENGTH 0.95 in
  let ratio := PrimFloat.div initialLength targetSize in
  if PrimFloat.ltb 4 ratio then
    {| minQuality := 0.1; maxQuality := 0.7; minScale := 0.1; maxScale := 0.7 |}
  else if PrimFloat.ltb 2 ratio then
    {| minQuality := 0.1; maxQuality := 0.8; minScale := 0.1; maxScale := 0.8 |}
  else
    {| minQuality := 0.1; maxQuality := 0.95; minScale := 0.1; maxScale := 1.0 |}.

Definition midQuality (b : Bounds) : float :=
  PrimFloat.div (PrimFloat.add (minQuality b) (maxQuality b)) 2.

Definition midScale (b : Bounds) : float :=
  PrimFloat.div (PrimFloat.add (minScale b) (maxScale b)) 2.

(** The two branches that move the bounds to the evaluated point. *)
Definition narrow (b : Bounds) (quality scale : float) (fits : bool) : Bounds :=
  if fits then
    {| minQuality := quality; maxQuality := maxQuality b;
       minScale := scale; maxScale := maxScale b |}
  else
    {| minQuality := minQuality b; maxQuality := quality;
       minScale := minScale b; maxScale := scale |}.

Definition closeEnough (b : Bounds) : bool :=
  PrimFloat.ltb (Number.Math_abs (PrimFloat.sub (maxQuality b) (minQuality b))) 0.05
  && PrimFloat.ltb (Number.Math_abs (PrimFloat.sub (maxScale b) (minScale b))) 0.05.

Definition maxIterations : nat := 8.

(** [while (iterations < maxIterations) { ... iterations++ }]: [left] is
    [maxIterations - iterations]; [log] records the rounds executed. *)
Fixpoint searchLoop (left : nat) (img : ImageBitmap) (format : string)
         (st : SearchState) (log : list Round) : Outcome (SearchState * list Round) :=
  match left with
  | O => Return (st, log)
  | S left' =>
      let quality := midQuality (bounds st) in
      let scale := midScale (bounds st) in
      let* result := tryCompressionLevel img
                       {| format := format; quality := quality; scale := scale |} in
      let bounds' := narrow (bounds st) quality scale (success result) in
      let best' := if success result then Some result else bestResult st in
      let log' := log ++ [{| before := bounds st; trial := result; after := bounds' |}] in
      if closeEnough bounds' then
        Return ({| bounds := bounds'; bestResult := best'; iterations := iterations st |}, log')
      else
        searchLoop left' img format
                   {| bounds := bounds'; bestResult := best'; iterations := iterations st + 1 |}
                   log'
  end.

Definition binarySearchRun (img : ImageBitmap) (format : string) (initialLength : float)
  : Outcome (SearchState * list Round) :=
  searchLoop maxIterations img format
             {| bounds := initialBounds initialLength; bestResult := None; iterations := 0 |}
             [].

Definition binarySearchCompression (img : ImageBitmap) (format : string) (initialLength : float)
  : Outcome SearchResult :=
  let* run := binarySearchRun img format initialLength in
  Return (match bestResult run.1 with
          | Some r => Found r
          | None => NotFound
          end).

Definition optimizationSteps : list Step :=
  [ {| step_quality := 0.05; step_scale := 0.05 |};
    {| step_quality := 0.1; step_scale := 0.1 |};
    {| step_quality := 0.2; step_scale := 0.2 |} ].

(** The body of [while (improved)]: the improvement it adopts, if any. *)
Definition climbOnce (img : ImageBitmap) (step : Step) (workingParams : Params)
  : Outcome (option TrialResult) :=
  let* qualityResult :=
    tryCompressionLevel img
      {| format := format workingParams;
         quality := Number.Math_min 0.95 (PrimFloat.add (quality workingParams) (step_quality step));
         scale := scale workingParams |} in
  let* scaleResult :=
    tryCompressionLevel img
      {| format := format workingParams;
         quality := quality workingParams;
         scale := Number.Math_min 1.0 (PrimFloat.add (scale workingParams) (step_scale step)) |} in
  if success qualityResult || success scaleResult then
    let better := if PrimFloat.ltb (encodedLength qualityResult) (encodedLength scaleResult)
                  then qualityResult else scaleResult in
    if success better then Return (Some better) else Return None
  else Return None.

(** [while (improved)], allowed [fuel] iterations. *)
Fixpoint climbLoop (fuel : nat) (img : ImageBitmap) (step : Step)
         (workingParams : Params) (bestResult : TrialResult)
  : Outcome (Params * TrialResult) :=
  match fuel with
  | O => Diverge
  | S fuel' =>
      let* improvement := climbOnce img step workingParams in
      match improvement with
      | Some better => climbLoop fuel' img step (params better) better
      | None => Return (workingParams, bestResult)
      end
  end.

(** [for (const step of optimizationSteps)] *)
Fixpoint forSteps (fuel : nat) (img : ImageBitmap) (steps : list Step)
         (workingParams : Params) (bestResult : TrialResult)
  : Outcome (Params * TrialResult) :=
  match steps with
  | [] => Return (workingParams, bestResult)
  | step :: rest =>
      let* w := climbLoop fuel img step workingParams bestResult in
      forSteps fuel img rest w.1 w.2
  end.

(** The function ends without a [return]: its value is [undefined], here
    [None]. *)
Definition optimizeCompression (fuel : nat) (img : ImageBitmap) (format : string)
           (workingParams : Params) : Outcome (option TrialResult) :=
  let* bestResult := tryCompressionLevel img workingParams in
  let* final := forSteps fuel img optimizationSteps workingParams bestResult in
  Return None.

Definition compressImageHeuristic (fuel : nat) (file : File) (targetFormat : string)
  : Outcome (option Data) :=
  let* img := createImageBitmap file in
  let* initialResult :=
    tryCompressionLevel img {| format := targetFormat; quality := 0.95; scale := 1.0 |} in
  if success initialResult then Return (data initialResult)
  else
    let* result := binarySearchCompression img targetFormat (encodedLength initialResult) in
    match result with
    | Found r =>
        if success r then
          let* optimized := optimizeCompression fuel img targetFormat (params r) in
          match optimized with
          | Some o => Return (data o)
          | None => Throw TypeError
          end
        else Throw UnableToCompress
    | NotFound => Throw UnableToCompress
    end.

(** One pass of the loop over the candidate formats; the state is
    [(bestFormat, smallestSize)]. *)
Definition detectStep (img : ImageBitmap) (st : option string * float) (format : string)
  : option string * float :=
  match tryCompression img
          {| opt_format := format; opt_quality := 0.95;
             opt_width := None; opt_height := None |}
  with
  | Some c => if PrimFloat.ltb (size c) st.2 then (Some format, size c) else st
  | None => st
  end.

Definition candidateFormats : list string :=
  filter (fun format => format <> "image/svg+xml"%string /\ format <> "image/gif"%string)
         SUPPORTED_INPUT_FORMATS.

(** [bestFormat || file.type]: [null] and the empty string are falsy. *)
Definition orElse (bestFormat : option string) (fallback : string) : string :=
  match bestFormat with
  | Some f => if decide (f = EmptyString) then fallback else f
  | None => fallback
  end.

Definition detectOptimalFormat (file : File) : Outcome string :=
  let* img := createImageBitmap file in
  let final := fold_left (detectStep img) candidateFormats (None, PrimFloat.infinity) in
  Return (orElse final.1 (type file)).

End Processor.

End ImageProcessor.

(** ** The rest of the two files

    The functions below throw errors of their own, so their outcomes are
    [Completion]s over [Failure]; [Hang] is [Diverge]. *)

Inductive Failure : Type :=
| Failed (e : Error)                        (* an error of the functions above *)
| InvalidCharactersFound (cs : list ascii)  (* 'Invalid characters found in encoded data: ...' *)
| ImageTooLarge                             (* 'Image too large even after maximum compression' *)
| MissingData                               (* 'Invalid or missing image data' *)
| ContainsInvalidCharacters                 (* 'Image data contains invalid characters' *)
| ExceedsMaximumLength                      (* 'Image data exceeds maximum allowed length' *)
| DecodingFailed (e : Error)                (* 'Decoding failed: ' + error.message *)
| UndetectedFormat                          (* 'Unable to detect valid image format' *)
| UnsupportedFormat (format : string)       (* 'Unsupported image format: ' + format *)
| LoadFailed (format : string)              (* 'Failed to load ' + format + ' image' *)
| UrlTooLong                                (* 'Generated URL exceeds maximum length...' *)
| NothingCompressed.                        (* 'Unable to compress image sufficiently\n...' *)

Inductive Completion (A : Type) : Type :=
| Done (a : A)
| Raise (f : Failure)
| Hang.

Arguments Done {A} a.
Arguments Raise {A} f.
Arguments Hang {A}.

Definition andThen {A B : Type} (m : Completion A) (k : A -> Completion B) : Completion B :=
  match m with
  | Done a => k a
  | Raise f => Raise f
  | Hang => Hang
  end.

Notation "'do*' x ':=' m 'in' k" := (andThen m (fun x => k))
  (at level 10, x pattern, m at level 100, k at level 200).

(** An awaited call of one of the functions above. *)
Definition await {A : Type} (o : Outcome A) : Completion A :=
  match o with
  | Return a => Done a
  | Throw e => Raise (Failed e)
  | Diverge => Hang
  end.

(** A call of an [async] function that is not awaited: the caller holds a
    promise and sees neither the value nor an exception; a call that never
    ends keeps the caller from ever being resumed. *)
Definition notAwaited {A : Type} (o : Outcome A) : Completion unit :=
  match o with
  | Return _ | Throw _ => Done tt
  | Diverge => Hang
  end.

Inductive JSValue : Type :=
| JSUndefined
| JSNumber (x : float).

(** [a <= b] for a Number [b]: [undefined] converts to NaN. *)
Definition lessOrEqual (a : JSValue) (b : float) : bool :=
  match a with
  | JSUndefined => PrimFloat.leb PrimFloat.nan b
  | JSNumber x => PrimFloat.leb x b
  end.

Module BigIntOps.

(** [BigInt(x)] for a Number [x]: a [RangeError] ([None]) unless [x] is an
    integer. *)
Definition ofNumber (x : float) : option Z :=
  match Prim2SF x with
  | S754_zero _ => Some 0
  | S754_finite s m e =>
      let n := if s then Z.neg m else Z.pos m in
      if 0 <=? e then Some (n * 2 ^ e)
      else if Z.pos m mod 2 ^ (- e) =? 0 then Some (n / 2 ^ (- e)) else None
  | S754_infinity _ | S754_nan => None
  end.

(** [Number(z)] for a BigInt [z]: the nearest binary64 number. *)
Definition toNumber (z : Z) : float :=
  SF2Prim (binary_normalize prec emax z 0 false).

(** Storing into a [BigUint64Array] keeps the value modulo 2^64. *)
Definition asUint64 (z : Z) : Z := z mod 2 ^ 64.

End BigIntOps.

(** *** imageViewer.js *)

Module ImageViewer.
Import BitStreamEncoder.

(** An entry of [CONFIG.FORMAT_SIGNATURES]; [offset] may be absent. *)
Record Signature : Type := {
  sig_bytes : list Z;
  sig_offset : option nat;
  sig_format : string
}.

(** What the page shows in the end. *)
Inductive Screen : Type :=
| ShowsImage (buffer : Uint8Array) (format : string)
| ShowsError (f : Failure).     (* 'Failed to display image: ' + error.message *)

Section Viewer.

(** [CONFIG], [this.encoder], and whether the browser loads a blob of the
    given bytes and type as an image ([createImage]). *)
Variable SAFE_CHARS : JSString.
Variable MAX_URL_LENGTH : float.
Variable SUPPORTED_INPUT_FORMATS : list string.
Variable FORMAT_SIGNATURES : list (string * Signature).
Variable encoder : BitStreamEncoder.t.
Variable imageLoads : Uint8Array -> string -> bool.

Definition validateEncodedData (encodedData : JSString) : Completion unit :=
  if decide (length encodedData = 0%nat) then Raise MissingData
  else
    let invalidChars := filter (fun char => char ∉ SAFE_CHARS) encodedData in
    if decide (0 < length invalidChars)%nat then Raise ContainsInvalidCharacters
    else if PrimFloat.ltb MAX_URL_LENGTH (Number.ofZ (Z.of_nat (length encodedData)))
         then Raise ExceedsMaximumLength
         else Done tt.

Definition decoder (encodedData : JSString) : Completion Uint8Array :=
  match decodeBits encoder encodedData with
  | Return buffer => Done buffer
  | Throw error => Raise (DecodingFailed error)
  | Diverge => Hang
  end.

(** [bytes.every((byte, i) => arr[offset + i] === byte)] *)
Fixpoint everyByte (arr : Uint8Array) (offset : nat) (bytes : list Z) : bool :=
  match bytes with
  | [] => true
  | byte :: rest =>
      match arr !! offset with
      | Some a => (Z_of_byte a =? byte) && everyByte arr (S offset) rest
      | None => false
      end
  end.

(** [for (const [formatName, signature] of Object.entries(...))] *)
Fixpoint detectLoop (arr : Uint8Array) (entries : list (string * Signature)) : option string :=
  match entries with
  | [] => None
  | (formatName, signature) :: rest =>
      let offset := default 0%nat (sig_offset signature) in
      if (length arr <? offset + length (sig_bytes signature))%nat then detectLoop arr rest
      else if everyByte arr offset (sig_bytes signature) then Some (sig_format signature)
           else detectLoop arr rest
  end.

Definition detectImageFormat (buffer : Uint8Array) : option string :=
  detectLoop buffer FORMAT_SIGNATURES.

(** The body of the [try] in [decodeAndDisplayImage], up to the image
    element. *)
Definition decodeImage (encodedData : JSString) : Completion (Uint8Array * string) :=
  do* _ := validateEncodedData encodedData in
  do* buffer := decoder encodedData in
  match detectImageFormat buffer with
  | None => Raise UndetectedFormat
  | Some format =>
      if decide (format = EmptyString) then Raise UndetectedFormat
      else if decide (format ∈ SUPPORTED_INPUT_FORMATS) then
             if imageLoads buffer format then Done (buffer, format)
             else Raise (LoadFailed format)
           else Raise (UnsupportedFormat format)
  end.

Definition decodeAndDisplayImage (encodedData : JSString) : Completion Screen :=
  match decodeImage encodedData with
  | Done (buffer, format) => Done (ShowsImage buffer format)
  | Raise error => Done (ShowsError error)
  | Hang => Hang
  end.

End Viewer.

End ImageViewer.

(** *** imageProcessor.js: the remaining functions of the core *)

Module ImageProcessorRest.
Import BitStreamEncoder ImageProcessor.

(** An entry of [CONFIG.COMPRESSION_STRATEGIES]: of its fields only
    [quality] reaches the canvas ([format], [width] and [height] are
    overridden). *)
Record Strategy : Type := { strategy_quality : float }.

(** The object [compressImageBruteForce] would return; [encoded] is the
    promise of the call that was not awaited. *)
Record BruteResult : Type := {
  br_encoded : Outcome JSString;
  br_format : string;
  br_size : float
}.

(** The line [showStatus] leaves on the page when [processFile] ends. *)
Inductive Status : Type :=
| StatusUnsupported          (* 'Unsupported format: ' + file.type, 'error' *)
| StatusSuccess              (* 'success' *)
| StatusError (f : Failure). (* 'Processing error', 'error', error.message *)

(** The page after [processFile]: the status line, and the URL written to
    [resultUrl] and pushed to the history, if one was. *)
Record Page : Type := {
  page_status : Status;
  page_resultUrl : option JSString
}.

Section Rest.

(** [this.encoder], [CONFIG], the two browser facilities of the search,
    the bytes of a file ([file.arrayBuffer()]), the address of the page up to
    its query with 'index.html' removed, [encodeURIComponent], and the
    page's own [window.updateImageStats], which is not part of the two
    files.  The elements of the page exist, and writing to them and to the
    history does not throw. *)
Variable encoder : BitStreamEncoder.t.
Variable SAFE_CHARS : JSString.
Variable MAX_URL_LENGTH : float.
Variable SUPPORTED_INPUT_FORMATS : list string.
Variable COMPRESSION_STRATEGIES : list Strategy.
Variable createImageBitmap : File -> Outcome ImageBitmap.
Variable tryCompression : ImageBitmap -> CompressionOptions -> option Compressed.
Variable arrayBuffer : File -> Outcome Uint8Array.
Variable baseUrl : JSString.
Variable encodeURIComponent : JSString -> JSString.
Variable updateImageStats : File -> Data -> Outcome unit.

Definition verifyEncodedData (encodedData : JSString) : Completion bool :=
  let invalidChars := filter (fun char => char ∉ SAFE_CHARS) encodedData in
  if decide (0 < length invalidChars)%nat then Raise (InvalidCharactersFound invalidChars)
  else Done true.

(** [generateResult], returning the URL it shows. *)
Definition generateResult (encodedData : JSString) : Completion JSString :=
  do* _ := verifyEncodedData encodedData in
  let finalUrl := baseUrl ++ encodeURIComponent encodedData in
  if PrimFloat.ltb MAX_URL_LENGTH (Number.ofZ (Z.of_nat (length finalUrl)))
  then Raise UrlTooLong
  else Done finalUrl.

(** The [try] of [processFile] up to the compressed data.  [encodeBits] is
    called without [await]: [initialEncoded] is a promise, its [length] is
    [undefined], and spreading it in [verifyEncodedData] would be a
    [TypeError]. *)
Definition processBody (fuel : nat) (file : File) : Completion Data :=
  do* buffer := await (arrayBuffer file) in
  let initialBits := toBitArray buffer in
  let initialEncoded := encodeBits encoder initialBits in
  do* _ := notAwaited initialEncoded in
  let initialEncoded_length := JSUndefined in
  if lessOrEqual initialEncoded_length MAX_URL_LENGTH then Raise (Failed TypeError)
  else
    do* optimalFormat :=
      await (detectOptimalFormat SUPPORTED_INPUT_FORMATS createImageBitmap tryCompression
                                 file) in
    do* result :=
      await (compressImageHeuristic encoder MAX_URL_LENGTH createImageBitmap tryCompression
                                    fuel file optimalFormat) in
    match result with
    | None => Raise NothingCompressed
    | Some d => Done d
    end.

(** [processFile]: an error caught after [generateResult] leaves the URL on
    the page. *)
Definition processFile (fuel : nat) (file : File) : Completion Page :=
  if decide (type file ∈ SUPPORTED_INPUT_FORMATS) then
    match processBody fuel file with
    | Done d =>
        match generateResult (encoded d) with
        | Done finalUrl =>
            match updateImageStats file d with
            | Return _ =>
                Done {| page_status := StatusSuccess; page_resultUrl := Some finalUrl |}
            | Throw error =>
                Done {| page_status := StatusError (Failed error);
                        page_resultUrl := Some finalUrl |}
            | Diverge => Hang
            end
        | Raise error => Done {| page_status := StatusError error; page_resultUrl := None |}
        | Hang => Hang
        end
    | Raise error => Done {| page_status := StatusError error; page_resultUrl := None |}
    | Hang => Hang
    end
  else Done {| page_status := StatusUnsupported; page_resultUrl := None |}.

(** The body of the [try] for one [scale]: [Done (Some r)] is the [break]
    with [bestResult = r], [Done None] the end of the body. *)
Definition bruteTrial (img : ImageBitmap) (targetFormat : string) (strategy : Strategy)
           (scale : Z) : Completion (option BruteResult) :=
  match BigIntOps.ofNumber (width img), BigIntOps.ofNumber (height img) with
  | Some w, Some h =>
      let widthBig := BigIntOps.asUint64 w in
      let heightBig := BigIntOps.asUint64 h in
      let scaledWidth := BigIntOps.toNumber (Z.quot (widthBig * scale) 100) in
      let scaledHeight := BigIntOps.toNumber (Z.quot (heightBig * scale) 100) in
      match tryCompression img
              {| opt_format := targetFormat;
                 opt_quality := strategy_quality strategy;
                 opt_width := Some scaledWidth;
                 opt_height := Some scaledHeight |}
      with
      | Some c =>
          let bits := toBitArray (buffer c) in
          let encoded := encodeBits encoder bits in
          do* _ := notAwaited encoded in
          let encoded_length := JSUndefined in
          if lessOrEqual encoded_length MAX_URL_LENGTH then
            Done (Some {| br_encoded := encoded; br_format := targetFormat; br_size := size c |})
          else Done None
      | None => Raise (Failed RenderFailed)
      end
  | _, _ => Raise (Failed RangeError)
  end.

(** [for (let scale = 100n; scale >= 10n; scale -= 10n)], with [try] and
    [catch { continue }] around the body; [left] bounds the iterations. *)
Fixpoint scaleLoop (left : nat) (img : ImageBitmap) (targetFormat : string)
         (strategy : Strategy) (scale : Z) (bestResult : option BruteResult)
  : Completion (option BruteResult) :=
  if 10 <=? scale then
    match left with
    | O => Hang
    | S left' =>
        match bruteTrial img targetFormat strategy scale with
        | Done (Some r) => Done (Some r)
        | Done None | Raise _ =>
            scaleLoop left' img targetFormat strategy (scale - 10) bestResult
        | Hang => Hang
        end
    end
  else Done bestResult.

(** [for (const strategy of CONFIG.COMPRESSION_STRATEGIES)] *)
Fixpoint strategyLoop (img : ImageBitmap) (targetFormat : string)
         (strategies : list Strategy) (bestResult : option BruteResult)
  : Completion (option BruteResult) :=
  match strategies with
  | [] => Done bestResult
  | strategy :: rest =>
      do* best := scaleLoop 10 img targetFormat strategy 100 bestResult in
      strategyLoop img targetFormat rest best
  end.

Definition compressImageBruteForce (file : File) (targetFormat : string)
  : Completion BruteResult :=
  do* img := await (createImageBitmap file) in
  do* bestResult := strategyLoop img targetFormat COMPRESSION_STRATEGIES None in
  match bestResult with
  | None => Raise ImageTooLarge
  | Some r => Done r
  end.

End Rest.

End ImageProcessorRest.

(** ** Vocabulary of the statements *)

Module CodecSpec.
Import BitStreamEncoder.

(** The number a list of digits denotes in base [R], most significant digit
    first. *)
Definition fromDigits (R : Z) (ds : list Z) : Z :=
  fold_left (fun value d => value * R + d) ds 0.

(** Digits of base [R] with no leading zero; the empty list stands for 0. *)
Definition canonical (R : Z) (ds : list Z) : Prop :=
  Forall (fun d => 0 <= d < R) ds /\ head ds <> Some 0.

(** The position of a symbol in the alphabet: the spec's [symbolToIndex]. *)
Fixpoint symbolToIndex (alphabet : JSString) (c : ascii) : option Z :=
  match alphabet with
  | [] => None
  | a :: rest => if decide (a = c) then Some 0 else Z.succ <$> symbolToIndex rest c
  end.

(** What a successful construction establishes. *)
Record wellFormed (safeChars : JSString) (enc : t) : Prop := {
  wf_nonempty : safeChars <> [];
  wf_NoDup : NoDup safeChars;
  wf_SAFE_CHARS : SAFE_CHARS enc = safeChars;
  wf_RADIX : RADIX enc = Z.of_nat (length safeChars);
  wf_charToIndex : forall c, charToIndex enc !! c = symbolToIndex safeChars c;
  wf_indexToChar : forall j, indexToChar enc !! j = charAt safeChars j
}.

(** The spec's error classes, as sets of the errors the code throws. *)
Definition InvalidAlphabet (e : Error) : Prop :=
  e = InvalidSafeChars \/ e = DuplicateChars.

Definition InvalidSymbol (e : Error) : Prop :=
  e = EmptyInput \/ exists cs, cs <> [] /\ e = InvalidCharacters cs.

(** The 16-symbol hex alphabet and the encoder the constructor builds for
    it. *)
Definition hexChars : JSString := list_ascii_of_string "0123456789ABCDEF".

Definition hexEncoder : t :=
  {| SAFE_CHARS := hexChars;
     RADIX := 16;
     charToIndex := (fillTables hexChars 0 ∅ ∅).1;
     indexToChar := (fillTables hexChars 0 ∅ ∅).2 |}.

(** The integer a string denotes in base R (the spec's step 2). *)
Definition spec_reconstruct (alphabet s : JSString) : Z :=
  fold_left (fun V c => V * Z.of_nat (length alphabet) + default 0 (symbolToIndex alphabet c)) s 0.

(** [bs] is the minimal big-endian byte representation of [V] (step 3). *)
Definition spec_minimalBigEndian (V : Z) (bs : list Z) : Prop :=
  canonical 256 bs /\ fromDigits 256 bs = V.

(** Zero bytes on the left until at least 4 bytes are present (step 4). *)
Definition spec_leftPad (bs : list Z) : list Z :=
  replicate (4 - length bs) 0 ++ bs.

(** Header, checks and payload (steps 5 to 7). *)
Definition spec_unframe (padded : list Z) : Outcome Uint8Array :=
  let L := fromDigits 256 (take 4 padded) in
  let candidate := drop 4 padded in
  if L =? 0 then Throw InvalidLengthPrefix
  else if Z.of_nat (length candidate) <? L
       then Throw (IncompleteData L (Z.of_nat (length candidate)))
       else Return (map byte_of_Z (take (Z.to_nat L) candidate)).

(** A payload of 2^24 bytes, the shortest whose header has no leading zero
    byte. *)
Definition longPayload : Uint8Array := replicate (Z.to_nat 16777216) x01.

End CodecSpec.

Module SearchSpec.
Import BitStreamEncoder ImageProcessor CodecSpec.

(** The options [tryCompressionLevel] passes to the canvas for [params]. *)
Definition optionsFor (img : ImageBitmap) (params : Params) : CompressionOptions :=
  {| opt_format := format params;
     opt_quality := quality params;
     opt_width := Some (Number.Math_round (PrimFloat.mul (width img) (scale params)));
     opt_height := Some (Number.Math_round (PrimFloat.mul (height img) (scale params))) |}.

(** The result [tryCompressionLevel] makes of a caught exception. *)
Definition rejected (params : Params) : TrialResult :=
  {| success := false; encodedLength := PrimFloat.infinity; data := None; params := params |}.

Definition noThrow {A : Type} (o : Outcome A) : Prop :=
  match o with
  | Throw _ => False
  | Return _ | Diverge => True
  end.

(** Lower bounds at or below upper bounds; one pair of intervals inside
    another. *)
Definition ordered (b : Bounds) : Prop :=
  PrimFloat.leb (minQuality b) (maxQuality b) = true
  /\ PrimFloat.leb (minScale b) (maxScale b) = true.

Definition nested (outer inner : Bounds) : Prop :=
  PrimFloat.leb (minQuality outer) (minQuality inner) = true
  /\ PrimFloat.leb (maxQuality inner) (maxQuality outer) = true
  /\ PrimFloat.leb (minScale outer) (minScale inner) = true
  /\ PrimFloat.leb (maxScale inner) (maxScale outer) = true.

(** A round evaluates the joint midpoint of its bounds and moves the lower
    bounds (the trial fits) or the upper bounds (it does not) to it; the new
    intervals lie inside the old ones and stay ordered. *)
Definition roundTightens (r : Round) : Prop :=
  quality (params (trial r)) = midQuality (before r)
  /\ scale (params (trial r)) = midScale (before r)
  /\ after r = narrow (before r) (midQuality (before r)) (midScale (before r))
                       (success (trial r))
  /\ nested (before r) (after r)
  /\ ordered (after r).

(** Each round starts from the bounds the previous one left. *)
Fixpoint chained (start : Bounds) (log : list Round) (final : Bounds) : Prop :=
  match log with
  | [] => final = start
  | r :: rest => before r = start /\ chained (after r) rest final
  end.

(** [nested b b'] and [ordered b'], as a test. *)
Definition tightensb (b b' : Bounds) : bool :=
  PrimFloat.leb (minQuality b) (minQuality b')
  && PrimFloat.leb (maxQuality b') (maxQuality b)
  && PrimFloat.leb (minScale b) (minScale b')
  && PrimFloat.leb (maxScale b') (maxScale b)
  && PrimFloat.leb (minQuality b') (maxQuality b')
  && PrimFloat.leb (minScale b') (maxScale b').

(** Every sequence of at most [n] outcomes from [b] tightens the bounds. *)
Fixpoint alwaysTightens (n : nat) (b : Bounds) : bool :=
  match n with
  | O => true
  | S n' =>
      let up := narrow b (midQuality b) (midScale b) true in
      let down := narrow b (midQuality b) (midScale b) false in
      tightensb b up && tightensb b down && alwaysTightens n' up && alwaysTightens n' down
  end.

(** *** A stub world: the hex encoder, a budget of 100 characters, a
    100 x 100 image, and deterministic canvases *)

Definition image : ImageBitmap := {| width := 100; height := 100 |}.

Definition pngFile : File := {| type := "image/png" |}.

Definition decoded (f : File) : Outcome ImageBitmap := Return image.

Definition budget : float := 100.

Definition formats : list string :=
  ["image/jpeg"; "image/png"; "image/webp"; "image/gif"; "image/svg+xml"]%string.

Definition oneByte : Compressed := {| buffer := [x01]; size := 1 |}.

(** The point at which the binary search ends with either of the canvases
    below: the midpoint of its fourth round, between 0.55 and 0.625. *)
Definition foundPoint : Params :=
  {| format := "image/jpeg";
     quality := 0.58749999999999991;
     scale := 0.58749999999999991 |}.

(** The canvas that rejects every request. *)
Definition rejectAll (img : ImageBitmap) (o : CompressionOptions) : option Compressed := None.

(** The canvas that yields one byte when asked for at most 60 pixels of
    width, and rejects otherwise. *)
Definition narrowOnly (img : ImageBitmap) (o : CompressionOptions) : option Compressed :=
  match opt_width o with
  | Some w => if PrimFloat.leb w 60 then Some oneByte else None
  | None => None
  end.

(** The same, but only below quality 0.6. *)
Definition narrowAndCoarse (img : ImageBitmap) (o : CompressionOptions) : option Compressed :=
  match opt_width o with
  | Some w =>
      if PrimFloat.leb w 60 && PrimFloat.ltb (opt_quality o) 0.6 then Some oneByte else None
  | None => None
  end.

End SearchSpec.

(** *** Further vocabulary: the frame, the rounds of the search, signatures *)

Module MoreSpec.
Import BitStreamEncoder ImageProcessor ImageViewer CodecSpec SearchSpec.

(** Somewhere in the string a high surrogate is followed by a low one. *)
Definition holdsSurrogatePair (s : UTF16.CodeUnits) : Prop :=
  exists front h l back,
    s = front ++ h :: l :: back
    /\ UTF16.isHighSurrogate h = true /\ UTF16.isLowSurrogate l = true.

(** The number the payload bytes denote, most significant byte first. *)
Definition payloadValue (b : Uint8Array) : Z := fromDigits 256 (map Z_of_byte b).

(** The symbol of a digit. *)
Definition symbolAt (safeChars : JSString) (d : Z) : ascii :=
  default "000"%char (safeChars !! Z.to_nat d).

(** Whatever the trials report, at most [n] rounds from [b] bring both
    intervals below the width at which the search stops. *)
Fixpoint closesWithin (n : nat) (b : Bounds) : bool :=
  match n with
  | O => false
  | S n' =>
      let up := narrow b (midQuality b) (midScale b) true in
      let down := narrow b (midQuality b) (midScale b) false in
      (closeEnough up || closesWithin n' up) && (closeEnough down || closesWithin n' down)
  end.

(** [d] is what a fitting trial at [p] carries: the encoding of what the
    canvas rendered for [p], within the budget. *)
Definition fittingTrial (encoder : BitStreamEncoder.t) (MAX_URL_LENGTH : float)
           (tryCompression : ImageBitmap -> CompressionOptions -> option Compressed)
           (img : ImageBitmap) (p : Params) (d : Data) : Prop :=
  exists c,
    tryCompression img (optionsFor img p) = Some c
    /\ encodeBits encoder (buffer c) = Return (encoded d)
    /\ data_format d = format p
    /\ data_size d = size c
    /\ PrimFloat.leb (Number.ofZ (Z.of_nat (length (encoded d)))) MAX_URL_LENGTH = true.

(** The midpoint of an interval, as the search computes it. *)
Definition midpoint (lo hi : float) : float := PrimFloat.div (PrimFloat.add lo hi) 2.

(** The round moved the lower bounds to the midpoints and left the upper
    bounds where they were; or the other way round. *)
Definition raisesLower (r : Round) : Prop :=
  minQuality (after r) = midpoint (minQuality (before r)) (maxQuality (before r))
  /\ minScale (after r) = midpoint (minScale (before r)) (maxScale (before r))
  /\ maxQuality (after r) = maxQuality (before r)
  /\ maxScale (after r) = maxScale (before r).

Definition lowersUpper (r : Round) : Prop :=
  maxQuality (after r) = midpoint (minQuality (before r)) (maxQuality (before r))
  /\ maxScale (after r) = midpoint (minScale (before r)) (maxScale (before r))
  /\ minQuality (after r) = minQuality (before r)
  /\ minScale (after r) = minScale (before r).

(** What a round of the search does: its trial is the call of
    [tryCompressionLevel] at the midpoints of its bounds; the trial succeeds
    exactly when what the canvas renders there encodes within the limit; a
    trial that succeeds raises the lower bounds to the midpoints, one that
    does not lowers the upper bounds to them. *)
Definition roundMoves (encoder : BitStreamEncoder.t) (MAX_URL_LENGTH : float)
           (tryCompression : ImageBitmap -> CompressionOptions -> option Compressed)
           (img : ImageBitmap) (fmt : string) (r : Round) : Prop :=
  let p := {| format := fmt;
              quality := midpoint (minQuality (before r)) (maxQuality (before r));
              scale := midpoint (minScale (before r)) (maxScale (before r)) |} in
  tryCompressionLevel encoder MAX_URL_LENGTH tryCompression img p = Return (trial r)
  /\ (success (trial r) = true
      <-> exists d, fittingTrial encoder MAX_URL_LENGTH tryCompression img p d)
  /\ (success (trial r) = true -> raisesLower r)
  /\ (success (trial r) = false -> lowersUpper r).

(** Bounds [later] reached after [earlier]: the intervals of [later] are
    ordered and lie inside those of [earlier], and no lower bound of the one
    is above an upper bound of the other. *)
Definition within (earlier later : Bounds) : Prop :=
  nested earlier later /\ ordered later
  /\ PrimFloat.leb (minQuality earlier) (maxQuality later) = true
  /\ PrimFloat.leb (minScale earlier) (maxScale later) = true
  /\ PrimFloat.leb (minQuality later) (maxQuality earlier) = true
  /\ PrimFloat.leb (minScale later) (maxScale earlier) = true.

(** [R x y] for every [x] of the list and every [y] after it. *)
Fixpoint eachLater {A : Type} (R : A -> A -> Prop) (l : list A) : Prop :=
  match l with
  | [] => True
  | x :: rest => Forall (R x) rest /\ eachLater R rest
  end.

(** [within], as a test. *)
Definition withinb (earlier later : Bounds) : bool :=
  tightensb earlier later
  && PrimFloat.leb (minQuality earlier) (maxQuality later)
  && PrimFloat.leb (minScale earlier) (maxScale later)
  && PrimFloat.leb (minQuality later) (maxQuality earlier)
  && PrimFloat.leb (minScale later) (maxScale earlier).

(** Every sequence of at most [n] outcomes from [b], reached through
    [earlier], keeps each new bounds [within] all the bounds before. *)
Fixpoint neverCrosses (n : nat) (earlier : list Bounds) (b : Bounds) : bool :=
  forallb (fun e => withinb e b) earlier
  && match n with
     | O => true
     | S n' =>
         let up := narrow b (midQuality b) (midScale b) true in
         let down := narrow b (midQuality b) (midScale b) false in
         neverCrosses n' (b :: earlier) up && neverCrosses n' (b :: earlier) down
     end.

(** The bytes of [arr] from the signature's offset on are the signature's
    bytes. *)
Definition signatureAt (arr : Uint8Array) (signature : Signature) : Prop :=
  let offset := default 0%nat (sig_offset signature) in
  (offset + length (sig_bytes signature) <= length arr)%nat
  /\ map Z_of_byte (take (length (sig_bytes signature)) (drop offset arr))
     = sig_bytes signature.

(** *** More of the stub world *)

(** A signature table with one entry, four bytes of value 1 at offset 0. *)
Definition onesSignatures : list (string * Signature) :=
  [("ONES"%string,
    {| sig_bytes := [1; 1; 1; 1]; sig_offset := None; sig_format := "image/png" |})].

(** The browser loads every blob. *)
Definition alwaysLoads (buffer : Uint8Array) (format : string) : bool := true.

(** The canvas that yields one byte for every request. *)
Definition acceptAll (img : ImageBitmap) (o : CompressionOptions) : option Compressed :=
  Some oneByte.

(** A file of the given bytes, a page address, and a page whose
    [updateImageStats] returns. *)
Definition readsAs (buffer : Uint8Array) (file : File) : Outcome Uint8Array := Return buffer.

Definition pageAddress : JSString := list_ascii_of_string "https://host/".

Definition statsShown (file : File) (d : Data) : Outcome unit := Return tt.

End MoreSpec.

(** ** Positional numerals

    Both loops of the codec that consume a [BigInt] produce the digits of a
    number in some base, most significant first, with no leading zero. *)

Section Digits.
Import CodecSpec.

Variable R : Z.

Lemma fromDigits_snoc (ds : list Z) (d : Z) :
  fromDigits R (ds ++ [d]) = fromDigits R ds * R + d.
Proof.
  unfold fromDigits. now rewrite fold_left_app.
Qed.

Lemma canonical_nil : canonical R [].
Proof.
  split; [constructor | discriminate].
Qed.

Lemma canonical_snoc (ds : list Z) (d : Z) :
  canonical R ds -> 0 <= d < R -> (ds = [] -> d <> 0) -> canonical R (ds ++ [d]).
Proof.
  intros [Hr Hh] Hd Hz. split.
  - apply Forall_app; split; [assumption | repeat constructor; lia].
  - destruct ds as [|e ds]; simpl in *.
    + intros [= E]. now apply Hz.
    + assumption.
Qed.

Lemma canonical_snoc_inv (ds : list Z) (d : Z) :
  canonical R (ds ++ [d]) -> canonical R ds /\ 0 <= d < R /\ (ds = [] -> d <> 0).
Proof.
  intros [Hr Hh]. apply Forall_app in Hr as [Hr Hd].
  apply Forall_cons in Hd as [Hd _].
  repeat split; try assumption; try lia.
  - destruct ds; [discriminate | exact Hh].
  - intros -> ->. now apply Hh.
Qed.

Hypothesis R_ge_2 : 2 <= R.

Lemma fromDigits_nonneg (ds : list Z) :
  Forall (fun d => 0 <= d < R) ds -> 0 <= fromDigits R ds.
Proof.
  induction ds as [|d ds IH] using rev_ind; intros H.
  - reflexivity.
  - apply Forall_app in H as [H Hd]. apply Forall_cons in Hd as [Hd _].
    rewrite fromDigits_snoc. specialize (IH H). nia.
Qed.

Lemma canonical_pos (ds : list Z) :
  canonical R ds -> ds <> [] -> 0 < fromDigits R ds.
Proof.
  induction ds as [|d ds IH] using rev_ind; intros Hc Hne.
  - congruence.
  - apply canonical_snoc_inv in Hc as (Hc & Hd & Hz).
    rewrite fromDigits_snoc. destruct ds as [|e ds'].
    + specialize (Hz eq_refl). unfold fromDigits; simpl. lia.
    + assert (0 < fromDigits R (e :: ds')) by (apply IH; [assumption | discriminate]).
      nia.
Qed.

Lemma canonical_unique (ds es : list Z) :
  canonical R ds -> canonical R es -> fromDigits R ds = fromDigits R es -> ds = es.
Proof.
  revert es. induction ds as [|d ds IH] using rev_ind; intros es Hd He E.
  - destruct es as [|e es]; [reflexivity | exfalso].
    assert (0 < fromDigits R (e :: es)) by (apply canonical_pos; [assumption | discriminate]).
    unfold fromDigits in E at 1; simpl in E. lia.
  - destruct es as [|e es _] using rev_ind.
    + exfalso.
      assert (0 < fromDigits R (ds ++ [d]))
        by (apply canonical_pos; [assumption | now destruct ds]).
      unfold fromDigits in E at 2; simpl in E. lia.
    + apply canonical_snoc_inv in Hd as (Hd & Hdr & _).
      apply canonical_snoc_inv in He as (He & Her & _).
      rewrite !fromDigits_snoc in E.
      assert (E' : fromDigits R ds = fromDigits R es).
      { rewrite (Z.div_unique (fromDigits R ds * R + d) R (fromDigits R ds) d) by lia.
        rewrite E. symmetry. apply Z.div_unique with e; lia. }
      assert (d = e) as -> by (rewrite E' in E; lia).
      f_equal. now apply IH.
Qed.

Lemma digit_step (f : nat) (v : Z) :
  0 < v < 2 ^ Z.of_nat (S f) -> 0 <= v / R < 2 ^ Z.of_nat f.
Proof.
  intros [Hp Hb]. rewrite Nat2Z.inj_succ, Z.pow_succ_r in Hb by lia.
  split; [apply Z.div_pos; lia |].
  apply Z.div_lt_upper_bound; [lia |].
  assert (0 < 2 ^ Z.of_nat f) by (apply Z.pow_pos_nonneg; lia). nia.
Qed.

End Digits.

Lemma halvings_bound (v : Z) :
  0 < v -> 0 <= v < 2 ^ Z.of_nat (BitStreamEncoder.halvings v).
Proof.
  intros Hv. unfold BitStreamEncoder.halvings.
  rewrite Nat2Z.inj_succ, Z2Nat.id by apply Z.log2_nonneg.
  pose proof (Z.log2_spec v Hv). lia.
Qed.

(** ** Facts about the codec *)

Module BitStreamFacts.
Import BitStreamEncoder CodecSpec.

(** *** Bytes *)

Lemma Z_of_byte_range (b : byte) : 0 <= Z_of_byte b < 256.
Proof.
  unfold Z_of_byte. pose proof (Byte.to_N_bounded b) as H. lia.
Qed.

Lemma byte_of_Z_of_byte (b : byte) : byte_of_Z (Z_of_byte b) = b.
Proof.
  unfold byte_of_Z. rewrite Z.mod_small by apply Z_of_byte_range.
  unfold Z_of_byte. now rewrite N2Z.id, Byte.of_to_N.
Qed.

Lemma Z_of_byte_of_Z (z : Z) : Z_of_byte (byte_of_Z z) = z mod 256.
Proof.
  unfold byte_of_Z, Z_of_byte.
  pose proof (Z.mod_pos_bound z 256 ltac:(lia)) as Hm.
  destruct (Byte.of_N (Z.to_N (z mod 256))) as [b|] eqn:E.
  - apply Byte.to_of_N in E. rewrite E. lia.
  - apply Byte.of_N_None_iff in E. lia.
Qed.

Lemma map_byte_of_Z_of_byte (bs : list byte) : map byte_of_Z (map Z_of_byte bs) = bs.
Proof.
  induction bs as [|b bs IH]; simpl; [reflexivity |].
  now rewrite byte_of_Z_of_byte, IH.
Qed.

Lemma getUint32_setUint32 (n : Z) : getUint32 (setUint32 n) = n mod 2 ^ 32.
Proof.
  unfold getUint32, setUint32. rewrite !Z_of_byte_of_Z.
  rewrite !Z.shiftr_div_pow2 by lia.
  pose proof (Z.mod_pos_bound n (2 ^ 32) ltac:(lia)) as Hm.
  set (m := n mod 2 ^ 32) in *.
  change (2 ^ 24) with 16777216. change (2 ^ 16) with 65536.
  change (2 ^ 8) with 256. change (2 ^ 32) with 4294967296 in Hm.
  Z.div_mod_to_equations. lia.
Qed.

(** *** The frame as a number *)

Lemma lor_shiftl_byte (v : Z) (b : byte) :
  Z.lor (Z.shiftl v 8) (Z_of_byte b) = v * 256 + Z_of_byte b.
Proof.
  pose proof (Z_of_byte_range b) as Hb.
  rewrite Z.shiftl_mul_pow2 by lia. change (2 ^ 8) with 256.
  rewrite <- Z.lxor_lor, <- Z.add_nocarry_lxor; try reflexivity.
  all: apply Z.bits_inj'; intros k Hk; rewrite Z.land_spec, Z.bits_0.
  all: destruct (Z.lt_ge_cases k 8) as [Hlt|Hge].
  all: try (replace (v * 256) with (v * 2 ^ 8) by reflexivity;
            rewrite Z.mul_pow2_bits_low by lia; reflexivity).
  all: rewrite (Z.bits_above_log2 (Z_of_byte b) k), andb_false_r; try reflexivity; try lia.
  all: destruct (Z.eq_dec (Z_of_byte b) 0) as [->|Hne]; [simpl; lia |].
  all: assert (Z.log2 (Z_of_byte b) < 8) by (apply Z.log2_lt_pow2; lia); lia.
Qed.

Lemma frameValue_fromDigits (allBytes : list byte) :
  frameValue allBytes = fromDigits 256 (map Z_of_byte allBytes).
Proof.
  unfold frameValue, fromDigits. generalize 0.
  induction allBytes as [|b bs IH]; intros v; simpl; [reflexivity |].
  now rewrite IH, lor_shiftl_byte.
Qed.

Lemma bytes_in_range (bs : list byte) :
  Forall (fun d => 0 <= d < 256) (map Z_of_byte bs).
Proof.
  induction bs as [|b bs IH]; simpl; constructor; [apply Z_of_byte_range | exact IH].
Qed.

(** *** The two digit loops *)

Lemma bytesLoop_digits (fuel : nat) (value : Z) (bytes : list Z) :
  0 <= value < 2 ^ Z.of_nat fuel ->
  exists ds, bytesLoop fuel value bytes = Return (ds ++ bytes)
             /\ canonical 256 ds /\ fromDigits 256 ds = value.
Proof.
  revert value bytes. induction fuel as [|fuel IH]; intros value bytes Hv.
  - assert (value = 0) as -> by (simpl in Hv; lia).
    exists []. repeat split; [constructor | discriminate].
  - simpl. destruct (0 <? value) eqn:Hpos.
    + apply Z.ltb_lt in Hpos.
      rewrite Z.shiftr_div_pow2 by lia. change (2 ^ 8) with 256.
      change 255 with (Z.ones 8). rewrite Z.land_ones by lia. change (2 ^ 8) with 256.
      destruct (IH (value / 256) (value mod 256 :: bytes)) as (ds & E & Hc & Hf).
      { apply digit_step; lia. }
      exists (ds ++ [value mod 256]).
      rewrite E, <- app_assoc. split; [reflexivity |].
      pose proof (Z.mod_pos_bound value 256 ltac:(lia)).
      split.
      * apply canonical_snoc; try assumption.
        intros ->. unfold fromDigits in Hf; simpl in Hf.
        pose proof (Z.div_mod value 256 ltac:(lia)). lia.
      * rewrite fromDigits_snoc, Hf.
        pose proof (Z.div_mod value 256 ltac:(lia)). lia.
    + apply Z.ltb_ge in Hpos. assert (value = 0) as -> by lia.
      exists []. repeat split; [constructor | discriminate].
Qed.

Lemma encodeLoop_digits (enc : t) (fuel : nat) (value : Z) (chunks : list (option ascii)) :
  2 <= RADIX enc ->
  0 <= value < 2 ^ Z.of_nat fuel ->
  exists ds, encodeLoop fuel enc value chunks
             = Return (map (charAt (SAFE_CHARS enc)) ds ++ chunks)
             /\ canonical (RADIX enc) ds /\ fromDigits (RADIX enc) ds = value.
Proof.
  intros HR. revert value chunks. induction fuel as [|fuel IH]; intros value chunks Hv.
  - assert (value = 0) as -> by (simpl in Hv; lia).
    exists []. repeat split; [constructor | discriminate].
  - simpl. destruct (0 <? value) eqn:Hpos.
    + apply Z.ltb_lt in Hpos.
      destruct (RADIX enc =? 0) eqn:HR0; [apply Z.eqb_eq in HR0; lia |].
      rewrite Z.quot_div_nonneg, Z.rem_mod_nonneg by lia.
      destruct (IH (value / RADIX enc)
                   (charAt (SAFE_CHARS enc) (value mod RADIX enc) :: chunks))
        as (ds & E & Hc & Hf).
      { apply digit_step; lia. }
      exists (ds ++ [value mod RADIX enc]).
      rewrite E, map_app, <- app_assoc. split; [reflexivity |].
      pose proof (Z.mod_pos_bound value (RADIX enc) ltac:(lia)).
      split.
      * apply canonical_snoc; try assumption.
        intros ->. unfold fromDigits in Hf; simpl in Hf.
        pose proof (Z.div_mod value (RADIX enc) ltac:(lia)). lia.
      * rewrite fromDigits_snoc, Hf.
        pose proof (Z.div_mod value (RADIX enc) ltac:(lia)). lia.
    + apply Z.ltb_ge in Hpos. assert (value = 0) as -> by lia.
      exists []. repeat split; [constructor | discriminate].
Qed.

(** With a single symbol the quotient never shrinks: the loop of
    [encodeBits] does not end, whatever the number of iterations allowed. *)
Lemma encodeLoop_radix_1 (enc : t) (fuel : nat) (value : Z) (chunks : list (option ascii)) :
  RADIX enc = 1 -> 0 < value -> encodeLoop fuel enc value chunks = Diverge.
Proof.
  intros HR Hv. revert chunks. induction fuel as [|fuel IH]; intros chunks; simpl.
  - now rewrite (proj2 (Z.ltb_lt 0 value) Hv).
  - rewrite (proj2 (Z.ltb_lt 0 value) Hv), HR. simpl.
    rewrite Z.quot_1_r. apply IH.
Qed.

(** *** The lookup tables *)

Lemma symbolToIndex_None (alphabet : JSString) (c : ascii) :
  symbolToIndex alphabet c = None <-> c ∉ alphabet.
Proof.
  induction alphabet as [|a rest IH]; simpl.
  - split; [intros _; apply not_elem_of_nil | reflexivity].
  - rewrite not_elem_of_cons. destruct (decide (a = c)) as [->|Hne].
    + split; [discriminate | intros [[] _]; reflexivity].
    + destruct (symbolToIndex rest c) eqn:E; simpl.
      * split; [discriminate |]. intros [_ H]. now apply IH in H.
      * split; [| reflexivity]. intros _. split; [congruence | now apply IH].
Qed.

Lemma symbolToIndex_Some (alphabet : JSString) (c : ascii) (i : Z) :
  symbolToIndex alphabet c = Some i ->
  0 <= i < Z.of_nat (length alphabet) /\ alphabet !! Z.to_nat i = Some c.
Proof.
  revert i. induction alphabet as [|a rest IH]; simpl; intros i; [discriminate |].
  destruct (decide (a = c)) as [->|Hne].
  - intros [= <-]. split; [lia | reflexivity].
  - destruct (symbolToIndex rest c) as [j|] eqn:E; simpl; [| discriminate].
    intros [= <-]. destruct (IH j eq_refl) as [Hr Hl].
    split; [lia |]. rewrite Z2Nat.inj_succ by lia. exact Hl.
Qed.

Lemma symbolToIndex_lookup (alphabet : JSString) (n : nat) (c : ascii) :
  NoDup alphabet -> alphabet !! n = Some c -> symbolToIndex alphabet c = Some (Z.of_nat n).
Proof.
  intros Hnd. revert n. induction Hnd as [|a rest Hnotin Hnd IH]; intros n; [discriminate |].
  destruct n as [|n]; simpl.
  - intros [= ->]. now rewrite decide_True.
  - intros Hl. rewrite decide_False.
    + rewrite (IH n Hl). simpl. f_equal. lia.
    + intros ->. apply Hnotin. eapply list_elem_of_lookup_2; eassumption.
Qed.

Lemma fillTables_charToIndex (chars : JSString) (i : Z) c2i i2c (c : ascii) :
  NoDup chars ->
  (fillTables chars i c2i i2c).1 !! c =
  match symbolToIndex chars c with
  | Some k => Some (i + k)
  | None => c2i !! c
  end.
Proof.
  intros Hnd. revert i c2i i2c.
  induction Hnd as [|a rest Hnotin Hnd IH]; intros i c2i i2c; simpl; [reflexivity |].
  rewrite IH. destruct (decide (a = c)) as [->|Hne].
  - apply symbolToIndex_None in Hnotin. rewrite Hnotin.
    rewrite lookup_insert_eq. f_equal. lia.
  - destruct (symbolToIndex rest c) as [k|]; simpl.
    + f_equal. lia.
    + now rewrite lookup_insert_ne.
Qed.

Lemma fillTables_indexToChar (chars : JSString) (i : Z) c2i i2c (j : Z) :
  (fillTables chars i c2i i2c).2 !! j =
  if decide (i <= j < i + Z.of_nat (length chars))
  then chars !! Z.to_nat (j - i)
  else i2c !! j.
Proof.
  revert i c2i i2c. induction chars as [|a rest IH]; intros i c2i i2c; simpl.
  - rewrite decide_False by lia. reflexivity.
  - rewrite IH. destruct (decide (i = j)) as [->|Hne].
    + rewrite decide_False by lia. rewrite decide_True by lia.
      rewrite lookup_insert_eq. now rewrite Z.sub_diag.
    + rewrite lookup_insert_ne by assumption.
      destruct (decide (i + 1 <= j < i + 1 + Z.of_nat (length rest))).
      * rewrite decide_True by lia.
        replace (Z.to_nat (j - i)) with (S (Z.to_nat (j - (i + 1)))) by lia.
        reflexivity.
      * rewrite decide_False by lia. reflexivity.
Qed.

Lemma size_list_to_set_le (l : list ascii) :
  (size (list_to_set l : gset ascii) <= length l)%nat.
Proof.
  induction l as [|a l IH].
  - rewrite list_to_set_nil, size_empty. reflexivity.
  - rewrite list_to_set_cons, size_union_alt, size_singleton.
    assert (size (list_to_set l ∖ {[a]} : gset ascii) <= size (list_to_set l : gset ascii))%nat
      by (apply subseteq_size; set_solver).
    simpl. lia.
Qed.

Lemma size_list_to_set_NoDup (l : list ascii) :
  size (list_to_set l : gset ascii) = length l <-> NoDup l.
Proof.
  split; [| apply size_list_to_set].
  induction l as [|a l IH]; intros Hs; [constructor |].
  rewrite list_to_set_cons in Hs. simpl in Hs.
  pose proof (size_list_to_set_le l) as Hle.
  destruct (decide (a ∈ l)) as [Hin|Hnotin].
  - exfalso.
    assert (({[a]} ∪ list_to_set l : gset ascii) = list_to_set l) as E
      by (apply (elem_of_list_to_set (C := gset ascii)) in Hin; set_solver).
    rewrite E in Hs. lia.
  - constructor; [assumption |]. apply IH.
    rewrite size_union in Hs by (apply (not_elem_of_list_to_set (C := gset ascii)) in Hnotin; set_solver).
    rewrite size_singleton in Hs. lia.
Qed.

Lemma constructor_Return (safeChars : JSString) (enc : t) :
  constructor safeChars = Return enc -> wellFormed safeChars enc.
Proof.
  unfold constructor. intros H.
  destruct (decide (length safeChars = 0%nat)) as [|Hlen]; [discriminate |].
  destruct (decide (size (list_to_set safeChars : gset ascii) ≠ length safeChars))
    as [|Hsz]; [discriminate |].
  injection H as <-.
  assert (Hnd : NoDup safeChars).
  { apply size_list_to_set_NoDup. destruct (decide (size (list_to_set safeChars : gset ascii) = length safeChars)); [assumption | contradiction]. }
  split; simpl; try reflexivity; try assumption.
  - now destruct safeChars.
  - intros c. rewrite fillTables_charToIndex by assumption.
    destruct (symbolToIndex safeChars c); [f_equal; lia | apply lookup_empty].
  - intros j. rewrite fillTables_indexToChar. unfold charAt.
    destruct (decide (0 <= j < 0 + Z.of_nat (length safeChars))) as [Hj|Hj].
    + rewrite (proj2 (Z.ltb_ge j 0)) by lia. now rewrite Z.sub_0_r.
    + rewrite lookup_empty. destruct (j <? 0) eqn:E; [reflexivity |].
      apply Z.ltb_ge in E. symmetry. apply lookup_ge_None. lia.
Qed.

(** *** Construction *)

Lemma constructor_hex : constructor hexChars = Return hexEncoder.
Proof. reflexivity. Qed.

(** On alphabets of single-byte characters: construction throws for the
    empty alphabet and for every alphabet with a repeated symbol, and for
    every other alphabet it returns an encoder whose two tables are inverse
    bijections between the symbols of the alphabet and the indices
    [0 .. R-1]. *)
Theorem constructor_validity (safeChars : JSString) :
  (safeChars = [] \/ ~ NoDup safeChars ->
   exists e, constructor safeChars = Throw e /\ InvalidAlphabet e)
  /\ (safeChars <> [] -> NoDup safeChars ->
      exists enc, constructor safeChars = Return enc
        /\ SAFE_CHARS enc = safeChars
        /\ RADIX enc = Z.of_nat (length safeChars)
        /\ (forall c j, charToIndex enc !! c = Some j <-> indexToChar enc !! j = Some c)
        /\ (forall c, is_Some (charToIndex enc !! c) <-> c ∈ safeChars)
        /\ (forall j, is_Some (indexToChar enc !! j) <-> 0 <= j < RADIX enc)).
Proof.
  split.
  - intros H. unfold constructor.
    destruct (decide (length safeChars = 0%nat)) as [Hlen|Hlen].
    + exists InvalidSafeChars. split; [reflexivity | now left].
    + destruct H as [->|Hdup]; [contradiction |].
      rewrite decide_True.
      * exists DuplicateChars. split; [reflexivity | now right].
      * intros Hs. now apply Hdup, size_list_to_set_NoDup.
  - intros Hne Hnd.
    destruct (constructor safeChars) as [enc| |] eqn:E.
    + pose proof (constructor_Return _ _ E) as Hwf.
      pose proof (wf_charToIndex _ _ Hwf) as Hc.
      pose proof (wf_indexToChar _ _ Hwf) as Hi.
      pose proof (wf_RADIX _ _ Hwf) as HR.
      exists enc. split; [reflexivity |].
      split; [apply Hwf |]. split; [exact HR |].
      split; [| split].
      * intros c j. rewrite Hc, Hi. unfold charAt. split.
        -- intros H%symbolToIndex_Some. destruct H as [Hr Hl].
           now rewrite (proj2 (Z.ltb_ge j 0)) by lia.
        -- destruct (j <? 0) eqn:Hj; [discriminate |]. apply Z.ltb_ge in Hj.
           intros Hl. rewrite (symbolToIndex_lookup _ _ _ Hnd Hl). f_equal. lia.
      * intros c. rewrite Hc. split.
        -- intros [j Hj]. destruct (decide (c ∈ safeChars)) as [|Hn]; [assumption |].
           apply symbolToIndex_None in Hn. congruence.
        -- intros Hin. destruct (symbolToIndex safeChars c) eqn:Es; [eauto |].
           apply symbolToIndex_None in Es. contradiction.
      * intros j. rewrite Hi, HR. unfold charAt.
        destruct (j <? 0) eqn:Hj.
        -- apply Z.ltb_lt in Hj. split; [intros [? [=]] | lia].
        -- apply Z.ltb_ge in Hj. rewrite lookup_lt_is_Some. lia.
    + exfalso. unfold constructor in E.
      destruct (decide (length safeChars = 0%nat)) as [Hlen|Hlen];
        [now destruct safeChars |].
      rewrite decide_False in E; [discriminate |].
      intros Hs. apply Hs. now apply size_list_to_set_NoDup.
    + exfalso. unfold constructor in E. repeat case_decide; discriminate.
Qed.

Lemma constructor_validity_witness :
  (exists e, constructor [] = Throw e /\ InvalidAlphabet e)
  /\ (exists e, constructor (list_ascii_of_string "aba") = Throw e /\ InvalidAlphabet e)
  /\ (exists enc, constructor hexChars = Return enc
        /\ SAFE_CHARS enc = hexChars
        /\ RADIX enc = Z.of_nat (length hexChars)
        /\ (forall c j, charToIndex enc !! c = Some j <-> indexToChar enc !! j = Some c)
        /\ (forall c, is_Some (charToIndex enc !! c) <-> c ∈ hexChars)
        /\ (forall j, is_Some (indexToChar enc !! j) <-> 0 <= j < RADIX enc)).
Proof.
  split; [| split].
  - apply (proj1 (constructor_validity [])). left. reflexivity.
  - apply (proj1 (constructor_validity (list_ascii_of_string "aba"))). right.
    apply (bool_decide_unpack _). vm_compute. exact I.
  - apply (proj2 (constructor_validity hexChars)).
    + discriminate.
    + apply (bool_decide_unpack _). vm_compute. exact I.
Defined.

(** C6. On the empty string and on every string with a character outside
    the alphabet, [decodeBits] throws an invalid-symbol error; no bytes are
    returned. *)
Theorem decodeBits_invalid_symbol (safeChars : JSString) (enc : t) (s : JSString) :
  constructor safeChars = Return enc ->
  s = [] \/ (exists c, c ∈ s /\ c ∉ safeChars) ->
  (exists e, decodeBits enc s = Throw e /\ InvalidSymbol e)
  /\ (forall bytes, decodeBits enc s <> Return bytes).
Proof.
  intros Hc%constructor_Return Hs.
  assert (H : exists e, decodeBits enc s = Throw e /\ InvalidSymbol e).
  { unfold decodeBits. destruct Hs as [->|(c & Hin & Hout)].
    - exists EmptyInput. split; [reflexivity | now left].
    - rewrite decide_False by (destruct s; [now apply elem_of_nil in Hin | discriminate]).
      set (invalidChars := filter _ s).
      assert (Hmem : c ∈ invalidChars).
      { apply list_elem_of_filter. split; [| assumption].
        rewrite (wf_charToIndex _ _ Hc). now apply symbolToIndex_None. }
      rewrite decide_True by (destruct invalidChars; [now apply elem_of_nil in Hmem | simpl; lia]).
      exists (InvalidCharacters invalidChars). split; [reflexivity |].
      right. exists invalidChars. split; [| reflexivity].
      intros E. rewrite E in Hmem. now apply elem_of_nil in Hmem. }
  split; [exact H |].
  destruct H as (e & -> & _). discriminate.
Qed.

Lemma decodeBits_invalid_symbol_witness :
  (exists e, decodeBits hexEncoder (list_ascii_of_string "12G4") = Throw e /\ InvalidSymbol e)
  /\ (forall bytes, decodeBits hexEncoder (list_ascii_of_string "12G4") <> Return bytes).
Proof.
  apply (decodeBits_invalid_symbol hexChars hexEncoder (list_ascii_of_string "12G4")).
  - reflexivity.
  - right. exists "G"%char. split.
    + apply (bool_decide_unpack _). vm_compute. exact I.
    + apply (bool_decide_unpack _). vm_compute. exact I.
Defined.

Lemma decodeBits_terminates (enc : t) (str : JSString) : decodeBits enc str <> Diverge.
Proof.
  assert (H : hornerLoop enc str 0 <> Diverge).
  { generalize 0. induction str as [|c str IH]; intros v; simpl; [discriminate |].
    destruct (charToIndex enc !! c); [apply IH | discriminate]. }
  unfold decodeBits.
  destruct (decide (length str = 0%nat)); [discriminate |].
  destruct (decide _); [discriminate |].
  destruct (hornerLoop enc str 0) as [value| |]; cbn [bind]; [| discriminate | contradiction].
  destruct (value =? 0) eqn:E; cbn [bind].
  - destruct (_ <=? 0); [discriminate |]. destruct (_ <? _); discriminate.
  - destruct (Z.lt_ge_cases 0 value) as [Hpos|Hneg].
    + destruct (bytesLoop_digits (halvings value) value []) as (ds & -> & _).
      { now apply halvings_bound. }
      cbn [bind]. destruct (_ <=? 0); [discriminate |]. destruct (_ <? _); discriminate.
    + unfold halvings. simpl. rewrite (proj2 (Z.ltb_ge 0 value)) by assumption.
      cbn [bind]. destruct (_ <=? 0); [discriminate |]. destruct (_ <? _); discriminate.
Qed.

(** C9. Whenever [decodeBits] returns, it returns at least one byte: a
    declared length of 0 is an error, and a positive one is the number of
    bytes returned. *)
Theorem decodeBits_returns_nonempty (enc : t) (str : JSString) :
  match decodeBits enc str with
  | Return bytes => (1 <= length bytes)%nat
  | Throw _ | Diverge => True
  end.
Proof.
  unfold decodeBits.
  destruct (decide (length str = 0%nat)); [exact I |].
  destruct (decide _); [exact I |].
  destruct (hornerLoop enc str 0) as [value| |]; simpl; try exact I.
  destruct (if value =? 0 then _ else _) as [bytes| |]; simpl; try exact I.
  destruct (getUint32 _ <=? 0) eqn:HL; [exact I |]. apply Z.leb_gt in HL.
  destruct (_ <? _) eqn:Hlen; [exact I |]. apply Z.ltb_ge in Hlen.
  rewrite length_map, length_take. lia.
Qed.

(** *** Decoding, step by step *)

Lemma hornerLoop_valid (safeChars : JSString) (enc : t) (s : JSString) (v : Z) :
  wellFormed safeChars enc -> Forall (fun c => c ∈ safeChars) s ->
  hornerLoop enc s v =
  Return (fold_left (fun V c => V * Z.of_nat (length safeChars)
                                + default 0 (symbolToIndex safeChars c)) s v).
Proof.
  intros Hwf Hs. revert v. induction Hs as [|c s Hc Hs IH]; intros v; simpl; [reflexivity |].
  rewrite (wf_charToIndex _ _ Hwf), (wf_RADIX _ _ Hwf).
  destruct (symbolToIndex safeChars c) as [i|] eqn:E; simpl.
  - apply IH.
  - apply symbolToIndex_None in E. contradiction.
Qed.

Lemma spec_reconstruct_nonneg_gen (safeChars s : JSString) (v : Z) :
  0 <= v ->
  0 <= fold_left (fun V c => V * Z.of_nat (length safeChars)
                              + default 0 (symbolToIndex safeChars c)) s v.
Proof.
  revert v. induction s as [|c s IH]; intros v Hv; simpl; [assumption |].
  apply IH. destruct (symbolToIndex safeChars c) as [i|] eqn:E; simpl.
  - apply symbolToIndex_Some in E. nia.
  - nia.
Qed.

Lemma valid_filter_nil (safeChars : JSString) (enc : t) (s : JSString) :
  wellFormed safeChars enc -> Forall (fun c => c ∈ safeChars) s ->
  filter (fun char => charToIndex enc !! char = None) s = [].
Proof.
  intros Hwf Hs. induction Hs as [|c s Hc Hs IH]; [reflexivity |].
  rewrite filter_cons, decide_False; [exact IH |].
  rewrite (wf_charToIndex _ _ Hwf). now intros E%symbolToIndex_None.
Qed.

Lemma padLoop_leftPad (bytes : list Z) : padLoop bytes = spec_leftPad bytes.
Proof.
  unfold padLoop, spec_leftPad. induction (4 - length bytes)%nat as [|n IH]; simpl.
  - reflexivity.
  - now rewrite IH.
Qed.

Lemma getUint32_digits (bs : list Z) :
  Forall (fun d => 0 <= d < 256) bs -> (4 <= length bs)%nat ->
  getUint32 (map byte_of_Z (take 4 bs)) = fromDigits 256 (take 4 bs).
Proof.
  intros Hr Hlen.
  destruct bs as [|b0 [|b1 [|b2 [|b3 rest]]]]; simpl in Hlen; try lia.
  apply Forall_cons in Hr as [H0 Hr]. apply Forall_cons in Hr as [H1 Hr].
  apply Forall_cons in Hr as [H2 Hr]. apply Forall_cons in Hr as [H3 _].
  cbn [take map getUint32]. rewrite !Z_of_byte_of_Z, !Z.mod_small by lia.
  unfold fromDigits; simpl. lia.
Qed.

Lemma leftPad_range (bs : list Z) :
  Forall (fun d => 0 <= d < 256) bs -> Forall (fun d => 0 <= d < 256) (spec_leftPad bs).
Proof.
  intros H. apply Forall_app. split; [| exact H].
  apply Forall_replicate. lia.
Qed.

Lemma leftPad_length (bs : list Z) : (4 <= length (spec_leftPad bs))%nat.
Proof. unfold spec_leftPad. rewrite length_app, length_replicate. lia. Qed.

(** From the padded byte array on, [decodeBits] is [spec_unframe]. *)
Lemma unframe_padded (padded : list Z) :
  Forall (fun d => 0 <= d < 256) padded -> (4 <= length padded)%nat ->
  (let lengthArray := map byte_of_Z (take 4 padded) in
   let expectedLength := getUint32 lengthArray in
   if expectedLength <=? 0 then Throw InvalidLengthPrefix
   else
     let dataBytes := drop 4 padded in
     if Z.of_nat (length dataBytes) <? expectedLength
     then Throw (IncompleteData expectedLength (Z.of_nat (length dataBytes)))
     else Return (map byte_of_Z (take (Z.to_nat expectedLength) dataBytes)))
  = spec_unframe padded.
Proof.
  intros Hr Hlen. cbv zeta. unfold spec_unframe.
  rewrite getUint32_digits by assumption.
  assert (0 <= fromDigits 256 (take 4 padded)).
  { apply fromDigits_nonneg; [lia |]. now apply Forall_take. }
  destruct (fromDigits 256 (take 4 padded) =? 0) eqn:E.
  - apply Z.eqb_eq in E. now rewrite E.
  - apply Z.eqb_neq in E. now rewrite (proj2 (Z.leb_gt _ _)) by lia.
Qed.

(** C4. For a non-empty string over the alphabet, [decodeBits] reconstructs
    the integer, takes its minimal big-endian bytes, left-pads them with
    zero bytes to at least 4 bytes, and then checks the header and cuts the
    payload as [spec_unframe] says. *)
Theorem decodeBits_steps (safeChars : JSString) (enc : t) (s : JSString) :
  constructor safeChars = Return enc ->
  s <> [] ->
  Forall (fun c => c ∈ safeChars) s ->
  exists bs, spec_minimalBigEndian (spec_reconstruct safeChars s) bs
             /\ decodeBits enc s = spec_unframe (spec_leftPad bs).
Proof.
  intros Hwf%constructor_Return Hne Hs.
  unfold decodeBits.
  rewrite decide_False by (now destruct s).
  rewrite (valid_filter_nil _ _ _ Hwf Hs).
  rewrite decide_False by (simpl; lia).
  rewrite (hornerLoop_valid _ _ _ _ Hwf Hs). fold (spec_reconstruct safeChars s).
  pose proof (spec_reconstruct_nonneg_gen safeChars s 0 ltac:(lia)) as Hnn.
  fold (spec_reconstruct safeChars s) in Hnn.
  set (V := spec_reconstruct safeChars s) in *. cbn [bind].
  destruct (V =? 0) eqn:EV.
  - apply Z.eqb_eq in EV. exists []. split.
    + split; [apply canonical_nil | now rewrite EV].
    + cbn [bind]. reflexivity.
  - apply Z.eqb_neq in EV.
    destruct (bytesLoop_digits (halvings V) V []) as (ds & E & Hc & Hf).
    { apply halvings_bound. lia. }
    rewrite app_nil_r in E. rewrite E. cbn [bind].
    exists ds. split; [split; assumption |].
    rewrite padLoop_leftPad.
    apply unframe_padded; [apply leftPad_range, Hc | apply leftPad_length].
Qed.

Lemma decodeBits_steps_witness :
  exists bs, spec_minimalBigEndian (spec_reconstruct hexChars (list_ascii_of_string "30001FF")) bs
             /\ decodeBits hexEncoder (list_ascii_of_string "30001FF")
                = spec_unframe (spec_leftPad bs).
Proof.
  apply (decodeBits_steps hexChars hexEncoder (list_ascii_of_string "30001FF")).
  - reflexivity.
  - discriminate.
  - apply (bool_decide_unpack _). vm_compute. exact I.
Defined.

(** *** Encoding followed by decoding *)

Lemma join_digits (safeChars : JSString) (ds : list Z) :
  NoDup safeChars ->
  Forall (fun d => 0 <= d < Z.of_nat (length safeChars)) ds ->
  exists str, join (map (charAt safeChars) ds) = str
    /\ Forall (fun c => c ∈ safeChars) str
    /\ length str = length ds
    /\ forall v, fold_left (fun V c => V * Z.of_nat (length safeChars)
                                       + default 0 (symbolToIndex safeChars c)) str v
                 = fold_left (fun V d => V * Z.of_nat (length safeChars) + d) ds v.
Proof.
  intros Hnd Hds. induction Hds as [|d ds Hd Hds IH].
  - exists []. repeat split; constructor.
  - destruct IH as (str & E & Hin & Hlen & Hfold).
    destruct (lookup_lt_is_Some_2 safeChars (Z.to_nat d) ltac:(lia)) as [c Hc].
    assert (Hch : charAt safeChars d = Some c)
      by (unfold charAt; now rewrite (proj2 (Z.ltb_ge d 0)) by lia).
    exists (c :: str). cbn [map]. rewrite Hch.
    change (join (Some c :: map (charAt safeChars) ds))
      with (c :: join (map (charAt safeChars) ds)).
    rewrite E. split; [reflexivity |].
    split; [constructor; [eapply list_elem_of_lookup_2; eassumption | assumption] |].
    split; [simpl; congruence |].
    intros v. cbn [fold_left].
    rewrite (symbolToIndex_lookup _ _ _ Hnd Hc), Z2Nat.id by lia.
    apply Hfold.
Qed.

(** The frame of a payload whose length needs all 4 header bytes. *)
Lemma frame_canonical (b : Uint8Array) :
  2 ^ 24 <= Z.of_nat (length b) < 2 ^ 32 ->
  canonical 256 (map Z_of_byte (setUint32 (Z.of_nat (length b)) ++ b)).
Proof.
  intros Hlen. split; [apply bytes_in_range |].
  unfold setUint32. cbn [app map head]. rewrite Z_of_byte_of_Z.
  rewrite Z.shiftr_div_pow2 by lia.
  change (2 ^ 24) with 16777216 in *. change (2 ^ 32) with 4294967296 in *.
  rewrite (Z.mod_small (Z.of_nat (length b))) by lia.
  intros [= E]. revert E.
  assert (1 <= Z.of_nat (length b) / 16777216 < 256).
  { split; [apply Z.div_le_lower_bound; lia | apply Z.div_lt_upper_bound; lia]. }
  rewrite Z.mod_small by lia. lia.
Qed.

Lemma roundtrip_large (safeChars : JSString) (enc : t) (b : Uint8Array) :
  wellFormed safeChars enc ->
  (2 <= length safeChars)%nat ->
  2 ^ 24 <= Z.of_nat (length b) < 2 ^ 32 ->
  (let* s := encodeBits enc b in decodeBits enc s) = Return b.
Proof.
  intros Hwf HR Hlen.
  pose proof (wf_RADIX _ _ Hwf) as ER. pose proof (wf_SAFE_CHARS _ _ Hwf) as ES.
  pose proof (frame_canonical b Hlen) as Hframe.
  unfold encodeBits, toBitArray. cbv zeta.
  rewrite frameValue_fromDigits.
  set (frame := map Z_of_byte (setUint32 (Z.of_nat (length b)) ++ b)) in *.
  assert (Hpos : 0 < fromDigits 256 frame)
    by (apply canonical_pos; [lia | assumption | discriminate]).
  set (V := fromDigits 256 frame) in *.
  rewrite (proj2 (Z.eqb_neq V 0)) by lia.
  destruct (encodeLoop_digits enc (halvings V) V []) as (ds & E & Hc & Hf).
  { lia. } { apply halvings_bound, Hpos. }
  rewrite app_nil_r in E. rewrite E. cbn [bind]. rewrite ES.
  destruct Hc as [Hrange Hhead]. rewrite ER in Hrange, Hf.
  destruct (join_digits safeChars ds (wf_NoDup _ _ Hwf) Hrange)
    as (str & -> & Hin & Hslen & Hfold).
  assert (Hds : ds <> []).
  { intros ->. unfold fromDigits in Hf; simpl in Hf. lia. }
  assert (Hstr : str <> []) by (destruct str, ds; simpl in Hslen; congruence).
  unfold decodeBits.
  rewrite decide_False by (now destruct str).
  rewrite (valid_filter_nil _ _ _ Hwf Hin), decide_False by (simpl; lia).
  rewrite (hornerLoop_valid _ _ _ _ Hwf Hin), Hfold.
  change (fold_left _ ds 0) with (fromDigits (Z.of_nat (length safeChars)) ds).
  rewrite Hf. cbn [bind]. rewrite (proj2 (Z.eqb_neq V 0)) by lia.
  destruct (bytesLoop_digits (halvings V) V []) as (bs & Eb & Hbc & Hbf).
  { apply halvings_bound, Hpos. }
  rewrite app_nil_r in Eb. rewrite Eb. cbn [bind].
  assert (bs = frame) as -> by (apply (canonical_unique 256); [lia | assumption..]).
  rewrite padLoop_leftPad. unfold spec_leftPad.
  assert (Hfl : length frame = (4 + length b)%nat)
    by (unfold frame; now rewrite length_map, length_app).
  replace (4 - length frame)%nat with 0%nat by lia. cbn [replicate app].
  assert (Ht : take 4 frame = map Z_of_byte (setUint32 (Z.of_nat (length b)))).
  { unfold frame. rewrite map_app. now apply take_app_length'. }
  assert (Hd : drop 4 frame = map Z_of_byte b).
  { unfold frame. rewrite map_app. now apply drop_app_length'. }
  rewrite Ht, Hd.
  rewrite map_byte_of_Z_of_byte, getUint32_setUint32.
  change (2 ^ 24) with 16777216 in *. change (2 ^ 32) with 4294967296 in *.
  rewrite Z.mod_small by lia.
  rewrite (proj2 (Z.leb_gt _ _)) by lia.
  rewrite length_map, (proj2 (Z.ltb_ge _ _)) by lia.
  rewrite Nat2Z.id, <- (length_map Z_of_byte b), firstn_all.
  now rewrite map_byte_of_Z_of_byte.
Qed.


Lemma longPayload_length : 2 ^ 24 <= Z.of_nat (length longPayload) < 2 ^ 32.
Proof.
  unfold longPayload. rewrite length_replicate.
  change (2 ^ 24) with 16777216. change (2 ^ 32) with 4294967296.
  rewrite Z2Nat.id; lia.
Qed.



(** Decoding does return for some strings: the encoding of [longPayload]
    is one. *)
Lemma decodeBits_can_return :
  exists s, encodeBits hexEncoder longPayload = Return s
            /\ decodeBits hexEncoder s = Return longPayload.
Proof.
  assert (H : (let* s := encodeBits hexEncoder longPayload in decodeBits hexEncoder s)
              = Return longPayload).
  { apply roundtrip_large with hexChars;
      [apply constructor_Return; reflexivity | simpl; lia | apply longPayload_length]. }
  destruct (encodeBits hexEncoder longPayload) as [s| |]; cbn [bind] in H;
    [| discriminate | discriminate].
  exists s. split; [reflexivity | exact H].
Qed.


(** The spec's first concrete scenario on the code: the three payload bytes
    are read as part of the declared length. *)
Lemma roundtrip_hex_scenario :
  encodeBits hexEncoder [x00; x01; xff] = Return (list_ascii_of_string "30001FF")
  /\ decodeBits hexEncoder (list_ascii_of_string "30001FF")
     = Throw (IncompleteData 50332159 0).
Proof. split; vm_compute; reflexivity. Qed.

End BitStreamFacts.

(** ** Facts about the constructor over code units *)

Module UTF16Facts.
Import CodecSpec MoreSpec BitStreamFacts.

Lemma size_list_to_set_iff {A : Type} `{Countable A} (l : list A) :
  (size (list_to_set l : gset A) <= length l)%nat
  /\ (size (list_to_set l : gset A) = length l <-> NoDup l).
Proof.
  induction l as [|a l [IHle IH]].
  - rewrite list_to_set_nil, size_empty. split; [reflexivity |].
    split; [constructor | reflexivity].
  - rewrite list_to_set_cons. cbn [length].
    destruct (decide (a ∈ l)) as [Hin|Hnotin].
    + assert (E : ({[a]} ∪ list_to_set l : gset A) = list_to_set l)
        by (apply (elem_of_list_to_set (C := gset A)) in Hin; set_solver).
      rewrite E. split; [lia |]. split; [lia |].
      intros Hnd. apply NoDup_cons in Hnd as [Hn _]. contradiction.
    + rewrite size_union
        by (apply (not_elem_of_list_to_set (C := gset A)) in Hnotin; set_solver).
      rewrite size_singleton. split; [lia |]. rewrite NoDup_cons. split.
      * intros Hs. split; [assumption |]. apply IH. lia.
      * intros [_ Hnd]. apply IH in Hnd. lia.
Qed.

Lemma codePoints_cons (u : Z) (rest : list Z) :
  UTF16.codePoints (u :: rest)
  = match rest with
    | l :: rest' =>
        if UTF16.isHighSurrogate u && UTF16.isLowSurrogate l
        then [u; l] :: UTF16.codePoints rest'
        else [u] :: UTF16.codePoints rest
    | [] => [[u]]
    end.
Proof. reflexivity. Qed.

(** Either no pair, one element per unit; or fewer elements than units. *)
Lemma codePoints_cases (s : list Z) :
  UTF16.codePoints s = map (fun u => [u]) s
  \/ (length (UTF16.codePoints s) < length s)%nat.
Proof.
  remember (length s) as n eqn:En. revert s En.
  induction n as [n IH] using lt_wf_ind. intros s En.
  destruct s as [|u [|l rest]]; [now left | now left |].
  rewrite codePoints_cons.
  destruct (UTF16.isHighSurrogate u && UTF16.isLowSurrogate l).
  - right. cbn [length] in *.
    destruct (IH (length rest) ltac:(lia) rest eq_refl) as [E|Hlt].
    + rewrite E, length_map. lia.
    + lia.
  - cbn [length] in *.
    destruct (IH (length (l :: rest)) ltac:(cbn [length]; lia) (l :: rest) eq_refl) as [E|Hlt].
    + left. rewrite E. reflexivity.
    + right. cbn [length] in *. lia.
Qed.

Lemma codePoints_length (s : list Z) :
  (length (UTF16.codePoints s) <= length s)%nat.
Proof.
  destruct (codePoints_cases s) as [E|Hlt]; [rewrite E, length_map; lia | lia].
Qed.

(** The iterator yields fewer elements than there are units exactly when
    the string holds a surrogate pair. *)
Lemma codePoints_shorter (s : list Z) :
  (length (UTF16.codePoints s) < length s)%nat <-> holdsSurrogatePair s.
Proof.
  assert (G : forall n s, length s = n ->
                          (length (UTF16.codePoints s) < length s)%nat
                          <-> holdsSurrogatePair s); [| now apply (G (length s))].
  clear s. induction n as [n IH] using lt_wf_ind. intros s En.
  destruct s as [|u [|l rest]].
  - split; [intros H; cbn in H; lia |]. intros (front & h & l & back & E & _).
    destruct front; discriminate.
  - split; [intros H; cbn in H; lia |]. intros (front & h & l & back & E & _).
    destruct front as [|? [|? ?]]; discriminate.
  - rewrite codePoints_cons.
    destruct (UTF16.isHighSurrogate u && UTF16.isLowSurrogate l) eqn:Ep.
    + apply andb_true_iff in Ep as [Hh Hl]. split.
      * intros _. exists [], u, l, rest. now split.
      * intros _. pose proof (codePoints_length rest). cbn [length]. lia.
    + cbn [length] in En.
      specialize (IH (length (l :: rest)) ltac:(cbn [length]; lia) (l :: rest) eq_refl).
      change (length ([u] :: UTF16.codePoints (l :: rest)))
        with (S (length (UTF16.codePoints (l :: rest)))).
      change (length (u :: l :: rest)) with (S (length (l :: rest))).
      rewrite <- Nat.succ_lt_mono, IH. split.
      * intros (front & h & l' & back & E & Hh & Hl).
        exists (u :: front), h, l', back. rewrite E. now split.
      * intros (front & h & l' & back & E & Hh & Hl).
        destruct front as [|u' front].
        -- injection E as -> ->. rewrite Hh, Hl in Ep. discriminate.
        -- injection E as -> E. exists front, h, l', back. now split.
Qed.

Lemma NoDup_singletons (s : list Z) : NoDup (map (fun u => [u]) s) <-> NoDup s.
Proof.
  split.
  - apply NoDup_fmap_1.
  - apply NoDup_fmap_2. intros x y [= ->]. reflexivity.
Qed.

(** The uniqueness test passes exactly on strings of unique units with no
    surrogate pair. *)
Lemma unique_test (s : list Z) :
  size (list_to_set (UTF16.codePoints s) : gset (list Z)) = length s
  <-> NoDup s /\ length (UTF16.codePoints s) = length s.
Proof.
  pose proof (size_list_to_set_iff (UTF16.codePoints s)) as [Hle Hiff].
  pose proof (codePoints_length s) as Hlen.
  destruct (codePoints_cases s) as [E|Hlt].
  - rewrite E in *. rewrite length_map in *. rewrite Hiff, NoDup_singletons. tauto.
  - split; [lia | intros [_ ?]; lia].
Qed.

(** *** The tables *)

Lemma fillTables16_indexToChar (chars : list Z) (i : Z) c2i i2c (j : Z) :
  (UTF16.fillTables chars i c2i i2c).2 !! j =
  if decide (i <= j < i + Z.of_nat (length chars))
  then chars !! Z.to_nat (j - i)
  else i2c !! j.
Proof.
  revert i c2i i2c. induction chars as [|a rest IH]; intros i c2i i2c; simpl.
  - rewrite decide_False by lia. reflexivity.
  - rewrite IH. destruct (decide (i = j)) as [->|Hne].
    + rewrite decide_False by lia. rewrite decide_True by lia.
      rewrite lookup_insert_eq. now rewrite Z.sub_diag.
    + rewrite lookup_insert_ne by assumption.
      destruct (decide (i + 1 <= j < i + 1 + Z.of_nat (length rest))).
      * rewrite decide_True by lia.
        replace (Z.to_nat (j - i)) with (S (Z.to_nat (j - (i + 1)))) by lia.
        reflexivity.
      * rewrite decide_False by lia. reflexivity.
Qed.

Lemma fillTables16_charToIndex (chars : list Z) (i : Z) c2i i2c (c j : Z) :
  NoDup chars ->
  (UTF16.fillTables chars i c2i i2c).1 !! c = Some j
  <-> ((i <= j /\ chars !! Z.to_nat (j - i) = Some c)
       \/ ((c ∉ chars) /\ c2i !! c = Some j)).
Proof.
  intros Hnd. revert i c2i i2c.
  induction Hnd as [|a rest Hnotin Hnd IH]; intros i c2i i2c; cbn [UTF16.fillTables].
  - cbn [fst]. split; [intros H; right; split; [apply not_elem_of_nil | exact H] |].
    intros [[_ H]|[_ H]]; [discriminate | exact H].
  - rewrite IH, not_elem_of_cons. destruct (decide (c = a)) as [->|Hne].
    + rewrite lookup_insert_eq. split.
      * intros [[Hj Hl]|[_ [= <-]]].
        -- exfalso. apply Hnotin. eapply list_elem_of_lookup_2; eassumption.
        -- left. split; [lia |]. now rewrite Z.sub_diag.
      * intros [[Hj Hl]|[[Hc _] _]]; [| congruence].
        right. split; [assumption |]. f_equal.
        destruct (Z.to_nat (j - i)) as [|n] eqn:En; [lia |].
        exfalso. apply Hnotin. cbn in Hl. eapply list_elem_of_lookup_2; eassumption.
    + rewrite lookup_insert_ne by congruence. split.
      * intros [[Hj Hl]|[Hc Hl]]; [left | right; tauto].
        split; [lia |].
        replace (Z.to_nat (j - i)) with (S (Z.to_nat (j - (i + 1)))) by lia. exact Hl.
      * intros [[Hj Hl]|[[_ Hc] Hl]]; [left | right; tauto].
        destruct (Z.to_nat (j - i)) as [|n] eqn:En; [cbn in Hl; congruence |].
        cbn in Hl. split; [lia |]. now replace (Z.to_nat (j - (i + 1))) with n by lia.
Qed.

(** The three outcomes of construction over code units. *)
Lemma constructor16_cases (safeChars : list Z) :
  match UTF16.constructor safeChars with
  | Return enc =>
      safeChars <> [] /\ NoDup safeChars
      /\ length (UTF16.codePoints safeChars) = length safeChars
      /\ UTF16.SAFE_CHARS enc = safeChars
      /\ UTF16.RADIX enc = Z.of_nat (length safeChars)
      /\ (forall c j, UTF16.charToIndex enc !! c = Some j
                      <-> 0 <= j /\ safeChars !! Z.to_nat j = Some c)
      /\ (forall j, UTF16.indexToChar enc !! j
                    = if decide (0 <= j) then safeChars !! Z.to_nat j else None)
  | Throw e =>
      (safeChars = [] /\ e = InvalidSafeChars)
      \/ (safeChars <> [] /\ e = DuplicateChars
          /\ ~ (NoDup safeChars
                /\ length (UTF16.codePoints safeChars) = length safeChars))
  | Diverge => False
  end.
Proof.
  unfold UTF16.constructor.
  destruct (decide (length safeChars = 0%nat)) as [Hlen|Hlen];
    [left; split; [now apply nil_length_inv | reflexivity] |].
  assert (Hne : safeChars <> []) by (now destruct safeChars).
  destruct (decide (size (list_to_set (UTF16.codePoints safeChars) : gset (list Z))
                    ≠ length safeChars)) as [Hsz|Hsz].
  { right. split; [exact Hne |]. split; [reflexivity |]. now intros Hu%unique_test. }
  assert (Hu : NoDup safeChars /\ length (UTF16.codePoints safeChars) = length safeChars).
  { apply unique_test.
    destruct (decide (size (list_to_set (UTF16.codePoints safeChars) : gset (list Z))
                      = length safeChars)); [assumption | contradiction]. }
  destruct Hu as [Hnd Hcp]. cbn.
  split; [exact Hne |]. split; [exact Hnd |]. split; [exact Hcp |].
  split; [reflexivity |]. split; [reflexivity |]. split.
  - intros c j. rewrite (fillTables16_charToIndex _ _ _ _ _ _ Hnd), lookup_empty, Z.sub_0_r.
    split; [intros [H|[_ [=]]]; exact H | now left].
  - intros j. rewrite fillTables16_indexToChar, lookup_empty, Z.sub_0_r.
    destruct (decide (0 <= j)) as [Hj|Hj].
    + destruct (decide (0 <= j < 0 + Z.of_nat (length safeChars))); [reflexivity |].
      symmetry. apply lookup_ge_None. lia.
    + rewrite decide_False by lia. reflexivity.
Qed.

(** Construction over code units, in terms of what the iterator yields. *)
Lemma constructor16_validity (safeChars : list Z) :
  (safeChars = [] \/ ~ NoDup safeChars \/ ~ NoDup (UTF16.codePoints safeChars) ->
   exists e, UTF16.constructor safeChars = Throw e /\ InvalidAlphabet e)
  /\ (safeChars <> [] -> NoDup safeChars ->
      length (UTF16.codePoints safeChars) = length safeChars ->
      exists enc, UTF16.constructor safeChars = Return enc
        /\ UTF16.SAFE_CHARS enc = safeChars
        /\ UTF16.RADIX enc = Z.of_nat (length safeChars)
        /\ (forall c j, UTF16.charToIndex enc !! c = Some j
                        <-> UTF16.indexToChar enc !! j = Some c)
        /\ (forall c, is_Some (UTF16.charToIndex enc !! c) <-> c ∈ safeChars)
        /\ (forall j, is_Some (UTF16.indexToChar enc !! j) <-> 0 <= j < UTF16.RADIX enc))
  /\ ((length (UTF16.codePoints safeChars) < length safeChars)%nat ->
      UTF16.constructor safeChars = Throw DuplicateChars).
Proof.
  pose proof (size_list_to_set_iff (UTF16.codePoints safeChars)) as [Hle Hiff].
  pose proof (codePoints_length safeChars) as Hlen.
  pose proof (constructor16_cases safeChars) as Hc.
  destruct (UTF16.constructor safeChars) as [enc|e|]; [| | contradiction].
  - destruct Hc as (Hne & Hnd & Hcp & ES & ER & Hc2i & Hi2c).
    split; [| split].
    + intros [->|[Hdup|Hdup]]; [congruence | contradiction |].
      exfalso. apply Hdup, Hiff. rewrite Hcp. apply unique_test. now split.
    + intros _ _ _. exists enc. split; [reflexivity |]. split; [exact ES |].
      split; [exact ER |]. split; [| split].
      * intros c j. rewrite Hc2i, Hi2c. destruct (decide (0 <= j)); [tauto |].
        split; [intros [? _]; contradiction | discriminate].
      * intros c. split.
        -- intros [j [_ Hl]%Hc2i]. eapply list_elem_of_lookup_2; eassumption.
        -- intros [n Hn]%list_elem_of_lookup_1. exists (Z.of_nat n). apply Hc2i.
           split; [lia | now rewrite Nat2Z.id].
      * intros j. rewrite Hi2c, ER. destruct (decide (0 <= j)).
        -- rewrite lookup_lt_is_Some. lia.
        -- split; [intros [? [=]] | lia].
    + intros Hpair. lia.
  - assert (He : InvalidAlphabet e)
      by (destruct Hc as [[_ ->]|(_ & -> & _)]; [now left | now right]).
    split; [| split].
    + intros _. exists e. now split.
    + intros Hne Hnd Hcp. exfalso.
      destruct Hc as [[-> _]|(_ & _ & Hn)]; [congruence | apply Hn; now split].
    + intros Hpair. destruct Hc as [[-> _]|(_ & -> & _)]; [cbn in Hpair; lia | reflexivity].
Qed.

(** C7 on the code. Over strings of UTF-16 code units, construction throws
    for the empty alphabet and for every alphabet with a repeated symbol,
    and it returns an encoder whose tables are inverse bijections for every
    non-empty alphabet of unique units that holds no surrogate pair.  An
    alphabet that holds a surrogate pair is rejected as having duplicate
    characters, also when its symbols are unique: the set counts the pair
    once, the length twice. *)
Theorem constructor_on_code_units (safeChars : list Z) :
  (safeChars = [] \/ ~ NoDup safeChars \/ ~ NoDup (UTF16.codePoints safeChars) ->
   exists e, UTF16.constructor safeChars = Throw e /\ InvalidAlphabet e)
  /\ (safeChars <> [] -> NoDup safeChars -> ~ holdsSurrogatePair safeChars ->
      exists enc, UTF16.constructor safeChars = Return enc
        /\ UTF16.SAFE_CHARS enc = safeChars
        /\ UTF16.RADIX enc = Z.of_nat (length safeChars)
        /\ (forall c j, UTF16.charToIndex enc !! c = Some j
                        <-> UTF16.indexToChar enc !! j = Some c)
        /\ (forall c, is_Some (UTF16.charToIndex enc !! c) <-> c ∈ safeChars)
        /\ (forall j, is_Some (UTF16.indexToChar enc !! j) <-> 0 <= j < UTF16.RADIX enc))
  /\ (holdsSurrogatePair safeChars ->
      UTF16.constructor safeChars = Throw DuplicateChars).
Proof.
  destruct (constructor16_validity safeChars) as (Hthrow & Hret & Hpair).
  pose proof (codePoints_length safeChars) as Hlen.
  pose proof (codePoints_shorter safeChars) as Hiff.
  split; [exact Hthrow |]. split.
  - intros Hne Hnd Hno. apply Hret; [assumption | assumption |].
    destruct (decide (length (UTF16.codePoints safeChars) = length safeChars));
      [assumption |].
    exfalso. apply Hno, Hiff. lia.
  - intros Hp. apply Hpair, Hiff, Hp.
Qed.

Lemma constructor_on_code_units_witness :
  NoDup UTF16.letterAndEmoji
  /\ NoDup (UTF16.codePoints UTF16.letterAndEmoji)
  /\ UTF16.constructor UTF16.letterAndEmoji = Throw DuplicateChars
  /\ (exists e, UTF16.constructor [] = Throw e /\ InvalidAlphabet e)
  /\ (exists e, UTF16.constructor [97; 98; 97] = Throw e /\ InvalidAlphabet e)
  /\ (exists enc, UTF16.constructor (UTF16.toUnits hexChars) = Return enc
        /\ UTF16.RADIX enc = 16).
Proof.
  split; [apply (bool_decide_unpack _); vm_compute; exact I |].
  split; [apply (bool_decide_unpack _); vm_compute; exact I |].
  split.
  { apply (proj2 (proj2 (constructor_on_code_units UTF16.letterAndEmoji))).
    exists [97], 55357, 56832, []. repeat split. }
  split.
  { apply (proj1 (constructor_on_code_units [])). now left. }
  split.
  { apply (proj1 (constructor_on_code_units [97; 98; 97])). right. left.
    intros Hnd. apply (NoDup_cons_1_1 _ _ Hnd). set_solver. }
  destruct (proj1 (proj2 (constructor_on_code_units (UTF16.toUnits hexChars))))
    as (enc & E & _ & ER & _).
  - discriminate.
  - apply (bool_decide_unpack _). vm_compute. exact I.
  - intros Hp%codePoints_shorter. vm_compute in Hp. lia.
  - exists enc. split; [exact E | exact ER].
Defined.

(** *** Strings of single-byte characters *)

Lemma unitOf_inj (c d : ascii) : UTF16.unitOf c = UTF16.unitOf d -> c = d.
Proof.
  unfold UTF16.unitOf. intros H%N2Z.inj.
  rewrite <- (ascii_N_embedding c), <- (ascii_N_embedding d). now rewrite H.
Qed.

Lemma unitOf_range (c : ascii) : 0 <= UTF16.unitOf c < 256.
Proof.
  unfold UTF16.unitOf. pose proof (N_ascii_bounded c). lia.
Qed.

Lemma codePoints_toUnits (s : list ascii) :
  UTF16.codePoints (UTF16.toUnits s) = map (fun u => [u]) (UTF16.toUnits s).
Proof.
  induction s as [|c s IH]; [reflexivity |].
  unfold UTF16.toUnits in *. cbn [map]. rewrite codePoints_cons.
  destruct (map UTF16.unitOf s) as [|l rest] eqn:E; [reflexivity |].
  replace (UTF16.isHighSurrogate (UTF16.unitOf c)) with false.
  - cbn [andb]. now rewrite IH.
  - symmetry. unfold UTF16.isHighSurrogate. pose proof (unitOf_range c).
    apply andb_false_iff. left. apply Z.leb_gt. lia.
Qed.

(** On a string of single-byte characters the constructor over code units
    does what [BitStreamEncoder.constructor] does. *)
Lemma constructor_toUnits (safeChars : list ascii) :
  match BitStreamEncoder.constructor safeChars,
        UTF16.constructor (UTF16.toUnits safeChars) with
  | Return enc, Return enc16 =>
      UTF16.SAFE_CHARS enc16 = UTF16.toUnits (BitStreamEncoder.SAFE_CHARS enc)
      /\ UTF16.RADIX enc16 = BitStreamEncoder.RADIX enc
      /\ (forall c, UTF16.charToIndex enc16 !! UTF16.unitOf c
                    = BitStreamEncoder.charToIndex enc !! c)
      /\ (forall j, UTF16.indexToChar enc16 !! j
                    = UTF16.unitOf <$> BitStreamEncoder.indexToChar enc !! j)
  | Throw e, Throw e16 => e = e16
  | _, _ => False
  end.
Proof.
  assert (Hnd : NoDup (UTF16.toUnits safeChars) <-> NoDup safeChars).
  { unfold UTF16.toUnits. split; [apply NoDup_fmap_1 |].
    apply NoDup_fmap_2. intros c d. apply unitOf_inj. }
  assert (Hcp : length (UTF16.codePoints (UTF16.toUnits safeChars))
                = length (UTF16.toUnits safeChars))
    by (now rewrite codePoints_toUnits, length_map).
  assert (Hnil : UTF16.toUnits safeChars = [] <-> safeChars = [])
    by (destruct safeChars; split; intros; (reflexivity || discriminate)).
  pose proof (constructor16_cases (UTF16.toUnits safeChars)) as H16.
  destruct (BitStreamEncoder.constructor safeChars) as [enc|e|] eqn:E.
  - pose proof (constructor_Return _ _ E) as Hwf.
    destruct (UTF16.constructor (UTF16.toUnits safeChars)) as [enc16|e16|];
      [| | contradiction].
    + destruct H16 as (_ & _ & _ & ES & ER & Hc2i & Hi2c).
      rewrite (wf_SAFE_CHARS _ _ Hwf), (wf_RADIX _ _ Hwf).
      split; [exact ES |]. split; [rewrite ER; unfold UTF16.toUnits; now rewrite length_map |].
      split.
      * intros c. apply option_eq. intros j.
        rewrite Hc2i, (wf_charToIndex _ _ Hwf). unfold UTF16.toUnits.
        rewrite list_lookup_fmap. split.
        -- intros [Hj Hl]. destruct (safeChars !! Z.to_nat j) as [d|] eqn:Ed; [| discriminate].
           injection Hl as Hl%unitOf_inj. subst d.
           rewrite (symbolToIndex_lookup _ _ _ (wf_NoDup _ _ Hwf) Ed). f_equal. lia.
        -- intros [Hr Hl]%symbolToIndex_Some. split; [lia |]. now rewrite Hl.
      * intros j. rewrite Hi2c, (wf_indexToChar _ _ Hwf). unfold BitStreamEncoder.charAt.
        unfold UTF16.toUnits. rewrite list_lookup_fmap.
        destruct (decide (0 <= j)).
        -- now rewrite (proj2 (Z.ltb_ge j 0)) by lia.
        -- now rewrite (proj2 (Z.ltb_lt j 0)) by lia.
    + exfalso. destruct H16 as [[Hn _]|(_ & _ & Hn)].
      * apply Hnil in Hn. now apply (wf_nonempty _ _ Hwf).
      * apply Hn. split; [apply Hnd, Hwf | exact Hcp].
  - unfold BitStreamEncoder.constructor in E.
    destruct (decide (length safeChars = 0%nat)) as [H0|H0].
    + injection E as <-. apply nil_length_inv in H0. subst safeChars.
      reflexivity.
    + destruct (decide (size (list_to_set safeChars : gset ascii) ≠ length safeChars))
        as [Hsz|]; [| discriminate].
      injection E as <-.
      destruct (UTF16.constructor (UTF16.toUnits safeChars)) as [enc16|e16|];
        [| | contradiction].
      * destruct H16 as (_ & Hn & _). apply Hsz, size_list_to_set_NoDup, Hnd, Hn.
      * destruct H16 as [[Hn _]|(_ & -> & _)]; [| reflexivity].
        apply Hnil in Hn. subst safeChars. contradiction.
  - exfalso. unfold BitStreamEncoder.constructor in E. repeat case_decide; discriminate.
Qed.

End UTF16Facts.

(** ** Facts about the search *)

Module ImageProcessorFacts.
Import BitStreamEncoder ImageProcessor CodecSpec SearchSpec MoreSpec BitStreamFacts.

Lemma encodeBits_returns (enc : BitStreamEncoder.t) (data : Uint8Array) :
  2 <= RADIX enc -> exists s, encodeBits enc data = Return s.
Proof.
  intros HR. unfold encodeBits, toBitArray. cbv zeta.
  rewrite frameValue_fromDigits.
  set (V := fromDigits 256 _).
  assert (0 <= V) by (apply fromDigits_nonneg; [lia | apply bytes_in_range]).
  destruct (V =? 0) eqn:E; [eexists; reflexivity |]. apply Z.eqb_neq in E.
  destruct (encodeLoop_digits enc (halvings V) V [] HR) as (ds & -> & _).
  { apply halvings_bound. lia. }
  eexists; reflexivity.
Qed.

Section Facts.

Variable encoder : BitStreamEncoder.t.
Variable MAX_URL_LENGTH : float.
Variable SUPPORTED_INPUT_FORMATS : list string.
Variable createImageBitmap : File -> Outcome ImageBitmap.
Variable tryCompression : ImageBitmap -> CompressionOptions -> option Compressed.

Local Abbreviation tryLevel := (tryCompressionLevel encoder MAX_URL_LENGTH tryCompression).
Local Abbreviation search := (searchLoop encoder MAX_URL_LENGTH tryCompression).
Local Abbreviation run := (binarySearchRun encoder MAX_URL_LENGTH tryCompression).
Local Abbreviation findFit :=
  (compressImageHeuristic encoder MAX_URL_LENGTH createImageBitmap tryCompression).
Local Abbreviation fitting := (fittingTrial encoder MAX_URL_LENGTH tryCompression).

Lemma tryLevel_rejected (img : ImageBitmap) (p : Params) :
  tryCompression img (optionsFor img p) = None -> tryLevel img p = Return (rejected p).
Proof.
  intros H. unfold tryCompressionLevel. fold (optionsFor img p). now rewrite H.
Qed.

Lemma tryLevel_returns (img : ImageBitmap) (p : Params) :
  2 <= RADIX encoder ->
  exists r, tryLevel img p = Return r /\ params r = p.
Proof.
  intros HR. unfold tryCompressionLevel. fold (optionsFor img p).
  destruct (tryCompression img (optionsFor img p)) as [c|]; cbn [bind try_catch].
  - destruct (encodeBits_returns encoder (toBitArray (buffer c)) HR) as [s ->].
    cbn [bind try_catch]. eexists; split; reflexivity.
  - eexists; split; reflexivity.
Qed.

Lemma tryLevel_params (img : ImageBitmap) (p : Params) (r : TrialResult) :
  tryLevel img p = Return r -> params r = p.
Proof.
  unfold tryCompressionLevel.
  destruct (tryCompression img _) as [c|]; cbn [bind try_catch].
  - destruct (encodeBits encoder _) as [s| |]; cbn [bind try_catch]; intros [= <-]; reflexivity.
  - intros [= <-]; reflexivity.
Qed.

Lemma tryLevel_inv (img : ImageBitmap) (p : Params) (r : TrialResult) :
  tryLevel img p = Return r ->
  params r = p
  /\ if success r then exists d, data r = Some d /\ fitting img p d
     else data r = None.
Proof.
  unfold tryCompressionLevel. fold (optionsFor img p).
  destruct (tryCompression img (optionsFor img p)) as [c|] eqn:Ec; cbn [bind try_catch].
  - unfold toBitArray.
    destruct (encodeBits encoder (buffer c)) as [s| |] eqn:Es; cbn [bind try_catch];
      intros [= <-]; cbn [params success data]; (split; [reflexivity |]); try reflexivity.
    destruct (PrimFloat.leb _ MAX_URL_LENGTH) eqn:El; [| reflexivity].
    eexists. split; [reflexivity |]. exists c. cbn [encoded data_format data_size].
    repeat split; assumption.
  - intros [= <-]. split; reflexivity.
Qed.

Lemma tryLevel_fits (img : ImageBitmap) (p : Params) (r : TrialResult) :
  tryLevel img p = Return r ->
  success r = true <-> exists d, fitting img p d.
Proof.
  intros E. split.
  - intros Hs. apply tryLevel_inv in E as [_ Hd]. rewrite Hs in Hd.
    destruct Hd as (d & _ & Hf). eauto.
  - intros (d & c & Ec & Es & _ & _ & Hl).
    unfold tryCompressionLevel in E. fold (optionsFor img p) in E.
    rewrite Ec in E. unfold toBitArray in E. cbn [bind try_catch] in E.
    rewrite Es in E. cbn [bind try_catch] in E. injection E as <-. exact Hl.
Qed.

Lemma bind_noThrow {A B : Type} (m : Outcome A) (k : A -> Outcome B) :
  noThrow m -> (forall a, noThrow (k a)) -> noThrow (bind m k).
Proof. destruct m; simpl; auto. Qed.

Lemma tryLevel_noThrow (img : ImageBitmap) (p : Params) : noThrow (tryLevel img p).
Proof.
  unfold tryCompressionLevel.
  destruct (tryCompression img _) as [c|]; cbn [bind try_catch]; [| exact I].
  destruct (encodeBits encoder _) as [s| |]; cbn [bind try_catch]; exact I.
Qed.

Lemma climbOnce_noThrow (img : ImageBitmap) (step : Step) (w : Params) :
  noThrow (climbOnce encoder MAX_URL_LENGTH tryCompression img step w).
Proof.
  unfold climbOnce.
  apply bind_noThrow; [apply tryLevel_noThrow | intros q].
  apply bind_noThrow; [apply tryLevel_noThrow | intros s].
  destruct (success q || success s); [| exact I].
  destruct (success (if PrimFloat.ltb _ _ then q else s)); exact I.
Qed.

Lemma climbLoop_noThrow (fuel : nat) (img : ImageBitmap) (step : Step)
      (w : Params) (b : TrialResult) :
  noThrow (climbLoop encoder MAX_URL_LENGTH tryCompression fuel img step w b).
Proof.
  revert w b. induction fuel as [|fuel IH]; intros w b; simpl; [exact I |].
  apply bind_noThrow; [apply climbOnce_noThrow | intros [better|]]; [apply IH | exact I].
Qed.

Lemma forSteps_noThrow (fuel : nat) (img : ImageBitmap) (steps : list Step)
      (w : Params) (b : TrialResult) :
  noThrow (forSteps encoder MAX_URL_LENGTH tryCompression fuel img steps w b).
Proof.
  revert w b. induction steps as [|step steps IH]; intros w b; simpl; [exact I |].
  apply bind_noThrow; [apply climbLoop_noThrow | intros wb; apply IH].
Qed.

(** *** Phase 3 *)

(** An improvement leads to the next iteration of [while (improved)]. *)
Lemma climbLoop_forward (img : ImageBitmap) (step : Step) (w : Params) (better : TrialResult) :
  climbOnce encoder MAX_URL_LENGTH tryCompression img step w = Return (Some better) ->
  (forall fuel b, climbLoop encoder MAX_URL_LENGTH tryCompression fuel img step
                            (params better) b = Diverge) ->
  forall fuel b, climbLoop encoder MAX_URL_LENGTH tryCompression fuel img step w b = Diverge.
Proof.
  intros E H [|fuel] b; simpl; [reflexivity |].
  rewrite E. cbn [bind]. apply H.
Qed.

(** An improvement that leaves the working point where it is repeats for
    ever. *)
Lemma climbLoop_cycle (img : ImageBitmap) (step : Step) (w : Params) (better : TrialResult) :
  climbOnce encoder MAX_URL_LENGTH tryCompression img step w = Return (Some better) ->
  params better = w ->
  forall fuel b, climbLoop encoder MAX_URL_LENGTH tryCompression fuel img step w b = Diverge.
Proof.
  intros E Hp fuel. induction fuel as [|fuel IH]; intros b; simpl; [reflexivity |].
  rewrite E. cbn [bind]. rewrite Hp. apply IH.
Qed.

(** *** Phase 2 *)

Lemma tightensb_spec (b b' : Bounds) :
  tightensb b b' = true -> nested b b' /\ ordered b'.
Proof.
  unfold tightensb, nested, ordered. rewrite !andb_true_iff. tauto.
Qed.

Lemma alwaysTightens_initial (initialLength : float) :
  alwaysTightens maxIterations (initialBounds MAX_URL_LENGTH initialLength) = true.
Proof.
  unfold initialBounds. cbv zeta.
  destruct (PrimFloat.ltb 4 _); [vm_compute; reflexivity |].
  destruct (PrimFloat.ltb 2 _); vm_compute; reflexivity.
Qed.

(** What a run of the loop adds to the log. *)
Lemma searchLoop_rounds (left : nat) (img : ImageBitmap) (fmt : string)
      (st st' : SearchState) (log log' : list Round) :
  search left img fmt st log = Return (st', log') ->
  exists new, log' = log ++ new
    /\ (length new <= left)%nat
    /\ chained (bounds st) new (bounds st')
    /\ (alwaysTightens left (bounds st) = true -> Forall roundTightens new)
    /\ (Forall (fun r => success (trial r) = false) new -> bestResult st' = bestResult st)
    /\ (forall r, bestResult st' = Some r -> bestResult st = Some r \/ success r = true).
Proof.
  revert st log. induction left as [|left IH]; intros st log; simpl.
  - intros [= <- <-]. exists []. rewrite app_nil_r.
    repeat split; auto. 
  - destruct (tryLevel img _) as [result| |] eqn:Etry; cbn [bind]; try discriminate.
    apply tryLevel_params in Etry.
    set (b' := narrow (bounds st) (midQuality (bounds st)) (midScale (bounds st))
                      (success result)).
    set (r := {| before := bounds st; trial := result; after := b' |}).
    assert (Hround : alwaysTightens (S left) (bounds st) = true -> roundTightens r).
    { simpl. rewrite !andb_true_iff. intros [[[Hu Hd] _] _].
      unfold roundTightens. simpl. rewrite Etry. simpl.
      repeat split; try reflexivity; subst b';
        destruct (success result);
        first [apply (tightensb_spec _ _ Hu) | apply (tightensb_spec _ _ Hd)]. }
    assert (Hnext : alwaysTightens (S left) (bounds st) = true -> alwaysTightens left b' = true).
    { simpl. rewrite !andb_true_iff. intros [[_ Hu] Hd]. subst b'.
      destruct (success result); assumption. }
    destruct (closeEnough b').
    + intros [= <- <-]. exists [r]. simpl.
      split; [reflexivity |]. split; [lia |]. split; [split; reflexivity |].
      split; [intros H; constructor; [now apply Hround | constructor] |].
      split.
      * intros Hf. apply Forall_cons in Hf as [Hf _]. simpl in Hf. now rewrite Hf.
      * intros r0. destruct (success result) eqn:Es; [intros [= <-]; now right | now left].
    + intros Hrun. apply IH in Hrun as (new & -> & Hlen & Hch & Hti & Hfail & Hbest).
      simpl in *. exists (r :: new). rewrite <- app_assoc. simpl.
      split; [reflexivity |]. split; [lia |]. split; [split; [reflexivity | exact Hch] |].
      split; [intros H; constructor; [now apply Hround | now apply Hti, Hnext] |].
      split.
      * intros Hf. apply Forall_cons in Hf as [Hf Hfs]. simpl in Hf.
        rewrite (Hfail Hfs). now rewrite Hf.
      * intros r0 Hr0. destruct (Hbest r0 Hr0) as [Hb|Hb]; [| now right].
        destruct (success result) eqn:Es; [injection Hb as <-; now right | now left].
Qed.

Lemma searchLoop_returns (left : nat) (img : ImageBitmap) (fmt : string)
      (st : SearchState) (log : list Round) :
  2 <= RADIX encoder -> exists out, search left img fmt st log = Return out.
Proof.
  intros HR. revert st log. induction left as [|left IH]; intros st log; simpl.
  - eexists; reflexivity.
  - destruct (tryLevel_returns img
                {| format := fmt; quality := midQuality (bounds st);
                   scale := midScale (bounds st) |} HR) as (r & -> & _).
    cbn [bind]. destruct (closeEnough _); [eexists; reflexivity | apply IH].
Qed.

Lemma run_rounds (img : ImageBitmap) (fmt : string) (initialLength : float)
      (st : SearchState) (log : list Round) :
  run img fmt initialLength = Return (st, log) ->
  (length log <= 8)%nat
  /\ chained (initialBounds MAX_URL_LENGTH initialLength) log (bounds st)
  /\ Forall roundTightens log
  /\ (Forall (fun r => success (trial r) = false) log -> bestResult st = None)
  /\ (forall r, bestResult st = Some r -> success r = true).
Proof.
  unfold binarySearchRun. intros H.
  apply searchLoop_rounds in H as (new & E & Hlen & Hch & Hti & Hfail & Hbest).
  cbn [app] in E. subst new. cbn [bounds bestResult] in *.
  split; [exact Hlen |]. split; [exact Hch |].
  split; [apply Hti, alwaysTightens_initial |].
  split; [exact Hfail |].
  intros r Hr. destruct (Hbest r Hr) as [|]; [discriminate | assumption].
Qed.

Lemma withinb_spec (earlier later : Bounds) :
  withinb earlier later = true -> within earlier later.
Proof.
  unfold withinb, within. rewrite !andb_true_iff.
  intros [[[[Ht%tightensb_spec ?] ?] ?] ?]. tauto.
Qed.

Lemma neverCrosses_initial (initialLength : float) :
  neverCrosses maxIterations [] (initialBounds MAX_URL_LENGTH initialLength) = true
  /\ ordered (initialBounds MAX_URL_LENGTH initialLength).
Proof.
  unfold initialBounds. cbv zeta.
  destruct (PrimFloat.ltb 4 _); [split; [vm_compute; reflexivity | split; reflexivity] |].
  destruct (PrimFloat.ltb 2 _); (split; [vm_compute; reflexivity | split; reflexivity]).
Qed.

Lemma searchLoop_moves (left : nat) (img : ImageBitmap) (fmt : string)
      (st st' : SearchState) (log log' : list Round) (earlier : list Bounds) :
  neverCrosses left earlier (bounds st) = true ->
  search left img fmt st log = Return (st', log') ->
  exists new, log' = log ++ new
    /\ Forall (roundMoves encoder MAX_URL_LENGTH tryCompression img fmt) new
    /\ Forall (fun e => Forall (fun r => within e (after r)) new) (bounds st :: earlier)
    /\ eachLater within (map after new).
Proof.
  revert st log earlier. induction left as [|left IH]; intros st log earlier Hc;
    cbn [searchLoop].
  - intros [= <- <-]. exists []. rewrite app_nil_r. split; [reflexivity |].
    split; [constructor |]. split; [| exact I].
    apply Forall_forall. intros e _. constructor.
  - cbn [neverCrosses] in Hc. apply andb_true_iff in Hc as [_ Hc].
    destruct (tryLevel img _) as [result| |] eqn:Etry; cbn [bind]; try discriminate.
    set (b' := narrow (bounds st) (midQuality (bounds st)) (midScale (bounds st))
                      (success result)) in *.
    set (r := {| before := bounds st; trial := result; after := b' |}).
    assert (Hr : roundMoves encoder MAX_URL_LENGTH tryCompression img fmt r).
    { unfold roundMoves, raisesLower, lowersUpper. subst r. cbn [before trial after].
      cbv zeta. split; [exact Etry |]. split; [exact (tryLevel_fits _ _ _ Etry) |].
      subst b'. unfold narrow.
      split; intros ->; cbn [minQuality maxQuality minScale maxScale]; repeat split. }
    assert (Hb : neverCrosses left (bounds st :: earlier) b' = true).
    { apply andb_true_iff in Hc as [Hu Hd]. subst b'.
      destruct (success result); assumption. }
    assert (Hw : Forall (fun e => within e b') (bounds st :: earlier)).
    { destruct left; cbn [neverCrosses] in Hb; apply andb_true_iff in Hb as [Hb _];
        rewrite forallb_forall in Hb; apply Forall_forall;
        intros e He%list_elem_of_In; apply withinb_spec, Hb, He. }
    destruct (closeEnough b').
    + intros [= <- <-]. exists [r]. split; [reflexivity |].
      split; [constructor; [exact Hr | constructor] |]. split.
      * eapply Forall_impl; [exact Hw |]. intros e He. constructor; [exact He | constructor].
      * cbn. split; [constructor | exact I].
    + intros Hrun.
      apply (IH _ _ (bounds st :: earlier)) in Hrun as (new & -> & Hm & Hall & Hl);
        [| exact Hb].
      cbn [bounds] in Hall. apply Forall_cons in Hall as [Hhead Hall].
      exists (r :: new). rewrite <- app_assoc. split; [reflexivity |].
      split; [constructor; assumption |]. split.
      * apply Forall_forall. intros e He. constructor.
        -- rewrite Forall_forall in Hw. now apply Hw.
        -- rewrite Forall_forall in Hall. now apply Hall.
      * cbn [map eachLater after]. split; [| exact Hl].
        apply Forall_fmap. exact Hhead.
Qed.

(** C8. In every run of the binary search the rounds are chained, each
    starting from the bounds the previous one left.  The trial of a round is
    made at the midpoints of its bounds; when it fits, the round raises the
    lower bounds of quality and scale to those midpoints and leaves the upper
    bounds, and when it does not, it lowers the upper bounds to them and
    leaves the lower bounds.  The bounds only tighten: the intervals after
    each round are ordered and lie inside those of every earlier round, and
    no lower bound is ever above an upper bound of an earlier or a later
    round. *)
Theorem search_bounds_nested (img : ImageBitmap) (fmt : string) (initialLength : float)
        (st : SearchState) (log : list Round) :
  run img fmt initialLength = Return (st, log) ->
  chained (initialBounds MAX_URL_LENGTH initialLength) log (bounds st)
  /\ Forall (roundMoves encoder MAX_URL_LENGTH tryCompression img fmt) log
  /\ Forall roundTightens log
  /\ ordered (initialBounds MAX_URL_LENGTH initialLength)
  /\ eachLater within (initialBounds MAX_URL_LENGTH initialLength :: map after log).
Proof.
  intros H. pose proof (run_rounds _ _ _ _ _ H) as (_ & Hch & Hti & _).
  destruct (neverCrosses_initial initialLength) as [Hc Ho].
  unfold binarySearchRun in H.
  apply (searchLoop_moves _ _ _ _ _ _ _ []) in H as (new & E & Hm & Hall & Hl);
    [| exact Hc].
  cbn [app] in E. subst new. cbn [bounds] in Hall.
  apply Forall_cons in Hall as [Hhead _].
  split; [exact Hch |]. split; [exact Hm |]. split; [exact Hti |]. split; [exact Ho |].
  cbn [eachLater]. split; [apply Forall_fmap; exact Hhead | exact Hl].
Qed.

(** C5. A trial the canvas rejects comes back as a failed trial, and no
    trial throws.  The binary search always ends, after at most 8 rounds; if
    the optimistic attempt did not fit and none of those rounds fitted,
    [compressImageHeuristic] throws 'Unable to compress image
    sufficiently'. *)
Theorem exhausted_search_fails (fuel : nat) (file : File) (targetFormat : string)
        (img : ImageBitmap) :
  2 <= RADIX encoder ->
  createImageBitmap file = Return img ->
  (forall p, tryCompression img (optionsFor img p) = None ->
             tryLevel img p = Return (rejected p))
  /\ (forall p, noThrow (tryLevel img p))
  /\ exists initialResult st log,
      tryLevel img {| format := targetFormat; quality := 0.95; scale := 1.0 |}
      = Return initialResult
      /\ run img targetFormat (encodedLength initialResult) = Return (st, log)
      /\ (length log <= 8)%nat
      /\ (success initialResult = false ->
          Forall (fun r => success (trial r) = false) log ->
          findFit fuel file targetFormat = Throw UnableToCompress).
Proof.
  intros HR Himg. split; [intros p; apply tryLevel_rejected |].
  split; [intros p; apply tryLevel_noThrow |].
  destruct (tryLevel_returns img
              {| format := targetFormat; quality := 0.95; scale := 1.0 |} HR)
    as (initialResult & E1 & _).
  destruct (searchLoop_returns maxIterations img targetFormat
              {| bounds := initialBounds MAX_URL_LENGTH (encodedLength initialResult);
                 bestResult := None; iterations := 0 |} [] HR) as ([st log] & E2).
  exists initialResult, st, log. split; [exact E1 |]. split; [exact E2 |].
  pose proof (run_rounds _ _ _ _ _ E2) as (Hlen & _ & _ & Hfail & _).
  split; [exact Hlen |].
  intros H1 Hall. unfold compressImageHeuristic.
  rewrite Himg. cbn [bind]. rewrite E1. cbn [bind]. rewrite H1.
  unfold binarySearchCompression, binarySearchRun. rewrite E2. cbn [bind fst].
  now rewrite (Hfail Hall).
Qed.

(** C2 on the code. When the optimistic attempt does not fit and the binary
    search finds a point that does, [compressImageHeuristic] returns
    nothing: [optimizeCompression] has no return value, so reading
    [optimized.data] throws, unless the hill-climb never ends. *)
Theorem found_point_is_lost (fuel : nat) (file : File) (targetFormat : string)
        (img : ImageBitmap) (initialResult r : TrialResult) :
  createImageBitmap file = Return img ->
  tryLevel img {| format := targetFormat; quality := 0.95; scale := 1.0 |}
  = Return initialResult ->
  success initialResult = false ->
  binarySearchCompression encoder MAX_URL_LENGTH tryCompression
    img targetFormat (encodedLength initialResult) = Return (Found r) ->
  findFit fuel file targetFormat = Throw TypeError
  \/ findFit fuel file targetFormat = Diverge.
Proof.
  intros Himg E1 H1 E2. unfold compressImageHeuristic.
  rewrite Himg. cbn [bind]. rewrite E1. cbn [bind]. rewrite H1, E2. cbn [bind].
  assert (Hr : success r = true).
  { unfold binarySearchCompression in E2.
    destruct (binarySearchRun _ _ _ _ _ _) as [[st log]| |] eqn:Erun; try discriminate.
    cbn [bind fst] in E2. apply run_rounds in Erun as (_ & _ & _ & _ & Hbest).
    destruct (bestResult st) as [r'|] eqn:Eb; [| discriminate].
    injection E2 as <-. now apply Hbest. }
  rewrite Hr. unfold optimizeCompression.
  pose proof (tryLevel_noThrow img (params r)) as Hb.
  destruct (tryLevel img (params r)) as [b| |]; cbn [bind]; [| contradiction | now right].
  pose proof (forSteps_noThrow fuel img optimizationSteps (params r) b) as Hf.
  destruct (forSteps _ _ _ _ _ _ _ _) as [w| |]; cbn [bind];
    [now left | contradiction | now right].
Qed.


End Facts.

Lemma exhausted_search_fails_witness :
  compressImageHeuristic hexEncoder budget decoded rejectAll 0 pngFile "image/jpeg"
  = Throw UnableToCompress.
Proof.
  destruct (exhausted_search_fails hexEncoder budget decoded rejectAll
              0 pngFile "image/jpeg" image) as (_ & _ & ir & st & log & E1 & E2 & _ & H).
  - vm_compute. discriminate.
  - reflexivity.
  - vm_compute in E1. injection E1 as <-.
    vm_compute in E2. injection E2 as <- <-.
    apply H; [reflexivity | repeat constructor].
Defined.

Lemma search_bounds_nested_witness :
  exists st log,
    binarySearchRun hexEncoder budget narrowOnly image "image/jpeg" PrimFloat.infinity
    = Return (st, log)
    /\ length log = 4%nat
    /\ chained (initialBounds budget PrimFloat.infinity) log (bounds st)
    /\ Forall (roundMoves hexEncoder budget narrowOnly image "image/jpeg") log
    /\ Forall roundTightens log
    /\ ordered (initialBounds budget PrimFloat.infinity)
    /\ eachLater within (initialBounds budget PrimFloat.infinity :: map after log).
Proof.
  destruct (binarySearchRun hexEncoder budget narrowOnly image "image/jpeg" PrimFloat.infinity)
    as [[st log]| |] eqn:E; try (vm_compute in E; discriminate).
  exists st, log. split; [reflexivity |].
  split; [vm_compute in E; injection E as <- <-; reflexivity |].
  exact (search_bounds_nested hexEncoder budget narrowOnly image "image/jpeg"
           PrimFloat.infinity st log E).
Defined.

Lemma found_point_is_lost_witness :
  compressImageHeuristic hexEncoder budget decoded narrowAndCoarse 1 pngFile "image/jpeg"
  = Throw TypeError.
Proof.
  destruct (tryCompressionLevel hexEncoder budget narrowAndCoarse image
              {| format := "image/jpeg"; quality := 0.95; scale := 1.0 |})
    as [ir| |] eqn:E1; try (vm_compute in E1; discriminate).
  destruct (binarySearchCompression hexEncoder budget narrowAndCoarse image
              "image/jpeg" (encodedLength ir))
    as [[r|]| |] eqn:E2;
    try (vm_compute in E1; injection E1 as <-; vm_compute in E2; discriminate).
  destruct (found_point_is_lost hexEncoder budget decoded narrowAndCoarse
              1 pngFile "image/jpeg" image ir r) as [H|H].
  - reflexivity.
  - exact E1.
  - vm_compute in E1. injection E1 as <-. reflexivity.
  - exact E2.
  - exact H.
  - exfalso. vm_compute in H. discriminate.
Defined.


(** The hill-climb from the point phase 2 finds with [narrowOnly]: the
    quality trial fits at every step of 0.05 up to the cap of 0.95, and at
    the cap it is the working point itself. *)
Lemma narrowOnly_climb (fuel : nat) (b : TrialResult) :
  climbLoop hexEncoder budget narrowOnly fuel image
            {| step_quality := 0.05; step_scale := 0.05 |} foundPoint b
  = Diverge.
Proof.
  revert fuel b.
  do 8 (eapply climbLoop_forward; [vm_compute; reflexivity | cbn [params]]).
  eapply climbLoop_cycle; [vm_compute; reflexivity | reflexivity].
Qed.

(** C3 on the code. With the [narrowOnly] canvas the search never ends:
    however many iterations the hill-climb is allowed, it has not finished. *)
Theorem hillclimb_never_ends (fuel : nat) :
  compressImageHeuristic hexEncoder budget decoded narrowOnly fuel pngFile "image/jpeg"
  = Diverge.
Proof.
  unfold compressImageHeuristic. cbn [decoded bind].
  destruct (tryCompressionLevel _ _ _ _ _) as [ir| |] eqn:E1;
    vm_compute in E1; try discriminate. injection E1 as <-.
  cbn [bind success encodedLength].
  destruct (binarySearchCompression _ _ _ _ _ _) as [[r|]| |] eqn:E2;
    vm_compute in E2; try discriminate. injection E2 as <-.
  cbn [bind success params]. unfold optimizeCompression.
  destruct (tryCompressionLevel _ _ _ _ _) as [b| |] eqn:E3;
    vm_compute in E3; try discriminate. injection E3 as <-.
  cbn [bind forSteps optimizationSteps].
  fold foundPoint. now rewrite narrowOnly_climb.
Qed.

End ImageProcessorFacts.

(** ** More on positional numerals: sizes *)

Section DigitBounds.
Import CodecSpec.

Variable R : Z.
Hypothesis R_ge_2 : 2 <= R.

Lemma fromDigits_app (ds es : list Z) :
  fromDigits R (ds ++ es) = fromDigits R ds * R ^ Z.of_nat (length es) + fromDigits R es.
Proof.
  induction es as [|e es IH] using rev_ind.
  - rewrite app_nil_r. unfold fromDigits at 3. simpl. lia.
  - rewrite app_assoc, !fromDigits_snoc, IH, length_app. simpl length.
    rewrite Nat2Z.inj_add, Z.pow_add_r by lia. change (Z.of_nat 1) with 1.
    rewrite Z.pow_1_r. ring.
Qed.

Lemma fromDigits_lt_pow (ds : list Z) :
  Forall (fun d => 0 <= d < R) ds -> fromDigits R ds < R ^ Z.of_nat (length ds).
Proof.
  induction ds as [|d ds IH] using rev_ind; intros H.
  - reflexivity.
  - apply Forall_app in H as [H Hd]. apply Forall_cons in Hd as [Hd _].
    rewrite fromDigits_snoc, length_app. simpl length.
    rewrite Nat2Z.inj_add, Z.pow_add_r by lia. change (Z.of_nat 1) with 1.
    rewrite Z.pow_1_r. specialize (IH H). nia.
Qed.

Lemma canonical_ge_pow (ds : list Z) :
  canonical R ds -> ds <> [] -> R ^ (Z.of_nat (length ds) - 1) <= fromDigits R ds.
Proof.
  induction ds as [|d ds IH] using rev_ind; intros Hc Hne; [congruence |].
  apply canonical_snoc_inv in Hc as (Hc & Hd & Hz).
  rewrite fromDigits_snoc, length_app. simpl length.
  destruct ds as [|e ds'].
  - specialize (Hz eq_refl). unfold fromDigits. simpl. lia.
  - specialize (IH Hc ltac:(discriminate)).
    replace (Z.of_nat (length (e :: ds') + 1) - 1)
      with (Z.succ (Z.of_nat (length (e :: ds')) - 1)) by lia.
    rewrite Z.pow_succ_r by (simpl; lia). nia.
Qed.


(** Numerals of the same length and value are equal. *)
Lemma fromDigits_inj (ds es : list Z) :
  Forall (fun d => 0 <= d < R) ds -> Forall (fun d => 0 <= d < R) es ->
  length ds = length es -> fromDigits R ds = fromDigits R es -> ds = es.
Proof.
  revert es. induction ds as [|d ds IH] using rev_ind; intros es Hd He Hlen E.
  - destruct es; [reflexivity | discriminate].
  - destruct es as [|e es _] using rev_ind.
    + rewrite length_app in Hlen. simpl in Hlen. lia.
    + apply Forall_app in Hd as [Hd Hd1]. apply Forall_cons in Hd1 as [Hd1 _].
      apply Forall_app in He as [He He1]. apply Forall_cons in He1 as [He1 _].
      rewrite !length_app in Hlen. simpl in Hlen.
      rewrite !fromDigits_snoc in E.
      assert (E' : fromDigits R ds = fromDigits R es).
      { rewrite (Z.div_unique (fromDigits R ds * R + d) R (fromDigits R ds) d) by lia.
        rewrite E. symmetry. apply Z.div_unique with e; lia. }
      assert (d = e) as -> by (rewrite E' in E; lia).
      f_equal. apply IH; [assumption | assumption | lia | assumption].
Qed.


End DigitBounds.

(** ** More facts about the codec *)

Module BitStreamMore.
Import BitStreamEncoder CodecSpec MoreSpec BitStreamFacts.

(** *** The frame and its value *)

Lemma header_value (n : Z) :
  fromDigits 256 (map Z_of_byte (setUint32 n)) = n mod 2 ^ 32.
Proof.
  rewrite <- (getUint32_setUint32 n).
  unfold setUint32, getUint32, fromDigits. cbn [map fold_left]. lia.
Qed.

Lemma payloadValue_range (b : Uint8Array) :
  0 <= payloadValue b < 256 ^ Z.of_nat (length b).
Proof.
  unfold payloadValue. split.
  - apply fromDigits_nonneg; [lia | apply bytes_in_range].
  - rewrite <- (length_map Z_of_byte b). apply fromDigits_lt_pow; [lia | apply bytes_in_range].
Qed.

Lemma frameValue_split (b : Uint8Array) :
  frameValue (setUint32 (Z.of_nat (length b)) ++ b)
  = (Z.of_nat (length b) mod 2 ^ 32) * 256 ^ Z.of_nat (length b) + payloadValue b.
Proof.
  rewrite frameValue_fromDigits, map_app, fromDigits_app, header_value, length_map.
  reflexivity.
Qed.

Lemma frameValue_nonneg (b : Uint8Array) :
  0 <= frameValue (setUint32 (Z.of_nat (length b)) ++ b).
Proof.
  rewrite frameValue_fromDigits. apply fromDigits_nonneg; [lia | apply bytes_in_range].
Qed.

Lemma frameValue_zero (b : Uint8Array) :
  Z.of_nat (length b) < 2 ^ 32 ->
  frameValue (setUint32 (Z.of_nat (length b)) ++ b) = 0 -> b = [].
Proof.
  intros Hlen. rewrite frameValue_split, Z.mod_small by lia.
  pose proof (payloadValue_range b) as Hp.
  assert (0 < 256 ^ Z.of_nat (length b)) by (apply Z.pow_pos_nonneg; lia).
  intros E. destruct b; [reflexivity |]. simpl length in *. nia.
Qed.

(** *** What [encodeBits] returns *)

Lemma join_symbols (safeChars : JSString) (ds : list Z) :
  Forall (fun d => 0 <= d < Z.of_nat (length safeChars)) ds ->
  join (map (charAt safeChars) ds) = map (symbolAt safeChars) ds.
Proof.
  intros H. induction H as [|d ds Hd Hds IH]; [reflexivity |].
  destruct (lookup_lt_is_Some_2 safeChars (Z.to_nat d) ltac:(lia)) as [c Hc].
  assert (Hch : charAt safeChars d = Some c)
    by (unfold charAt; now rewrite (proj2 (Z.ltb_ge d 0)) by lia).
  cbn [map]. rewrite Hch.
  change (join (Some c :: map (charAt safeChars) ds))
    with (c :: join (map (charAt safeChars) ds)).
  rewrite IH. unfold symbolAt at 2. now rewrite Hc.
Qed.

Lemma symbolToIndex_symbolAt (safeChars : JSString) (d : Z) :
  NoDup safeChars -> 0 <= d < Z.of_nat (length safeChars) ->
  symbolAt safeChars d ∈ safeChars
  /\ symbolToIndex safeChars (symbolAt safeChars d) = Some d.
Proof.
  intros Hnd Hd.
  destruct (lookup_lt_is_Some_2 safeChars (Z.to_nat d) ltac:(lia)) as [c Hc].
  unfold symbolAt. rewrite Hc. simpl. split.
  - eapply list_elem_of_lookup_2; eassumption.
  - rewrite (symbolToIndex_lookup _ _ _ Hnd Hc). f_equal. lia.
Qed.

Lemma reconstruct_symbols (safeChars : JSString) (ds : list Z) :
  NoDup safeChars ->
  Forall (fun d => 0 <= d < Z.of_nat (length safeChars)) ds ->
  spec_reconstruct safeChars (map (symbolAt safeChars) ds)
  = fromDigits (Z.of_nat (length safeChars)) ds.
Proof.
  intros Hnd H. unfold spec_reconstruct, fromDigits.
  assert (G : forall v,
             fold_left (fun V c => V * Z.of_nat (length safeChars)
                                   + default 0 (symbolToIndex safeChars c))
                       (map (symbolAt safeChars) ds) v
             = fold_left (fun value d => value * Z.of_nat (length safeChars) + d) ds v);
    [| apply G].
  induction H as [|d ds Hd Hds IH]; intros v; [reflexivity |].
  cbn [map fold_left].
  rewrite (proj2 (symbolToIndex_symbolAt safeChars d Hnd Hd)). simpl. apply IH.
Qed.

(** The string [encodeBits] returns, in terms of the digits of the frame
    value. *)
Lemma encodeBits_digits (safeChars : JSString) (enc : t) (b : Uint8Array) :
  wellFormed safeChars enc -> (2 <= length safeChars)%nat ->
  let V := frameValue (setUint32 (Z.of_nat (length b)) ++ b) in
  exists ds,
    encodeBits enc b = Return (map (symbolAt safeChars) ds)
    /\ Forall (fun d => 0 <= d < Z.of_nat (length safeChars)) ds
    /\ ds <> []
    /\ fromDigits (Z.of_nat (length safeChars)) ds = V
    /\ (V = 0 -> ds = [0])
    /\ (0 < V -> canonical (Z.of_nat (length safeChars)) ds).
Proof.
  intros Hwf HR V.
  pose proof (wf_RADIX _ _ Hwf) as ER. pose proof (wf_SAFE_CHARS _ _ Hwf) as ES.
  pose proof (frameValue_nonneg b) as Hnn. fold V in Hnn.
  unfold encodeBits, toBitArray. cbv zeta. fold V.
  destruct (V =? 0) eqn:EV.
  - apply Z.eqb_eq in EV. exists [0]. rewrite ES. cbn [bind].
    assert (Hr : Forall (fun d => 0 <= d < Z.of_nat (length safeChars)) [0])
      by (repeat constructor; lia).
    rewrite <- (join_symbols safeChars [0] Hr).
    split; [reflexivity |]. split; [exact Hr |]. split; [discriminate |].
    split; [now rewrite EV |]. split; [reflexivity | lia].
  - apply Z.eqb_neq in EV.
    destruct (encodeLoop_digits enc (halvings V) V []) as (ds & E & Hc & Hf).
    { lia. } { apply halvings_bound. lia. }
    rewrite app_nil_r in E. rewrite E. cbn [bind]. rewrite ES, ER in *.
    exists ds. rewrite (join_symbols safeChars ds (proj1 Hc)).
    split; [reflexivity |]. split; [exact (proj1 Hc) |].
    split; [intros ->; unfold fromDigits in Hf; simpl in Hf; lia |].
    split; [exact Hf |]. split; [lia | intros _; exact Hc].
Qed.

(** X1. For an encoder of radix at least 2 and a payload shorter than 2^32
    bytes, [encodeBits] returns a non-empty string over the alphabet; it is
    the single symbol of index 0 for the empty payload, and it does not
    start with that symbol for any other payload. *)
Theorem encodeBits_output (safeChars : JSString) (enc : t) (b : Uint8Array) :
  constructor safeChars = Return enc ->
  (2 <= length safeChars)%nat ->
  Z.of_nat (length b) < 2 ^ 32 ->
  exists s, encodeBits enc b = Return s
    /\ s <> []
    /\ Forall (fun c => c ∈ safeChars) s
    /\ (b = [] -> s = take 1 safeChars)
    /\ (b <> [] -> head s <> head safeChars).
Proof.
  intros Hwf%constructor_Return HR Hlen.
  pose proof (wf_NoDup _ _ Hwf) as Hnd.
  destruct (encodeBits_digits safeChars enc b Hwf HR) as (ds & E & Hr & Hne & Hf & H0 & Hpos).
  exists (map (symbolAt safeChars) ds). split; [exact E |].
  split; [now destruct ds |].
  split.
  { apply Forall_forall. intros c (d & -> & Hd)%list_elem_of_fmap.
    apply symbolToIndex_symbolAt; [assumption |].
    rewrite Forall_forall in Hr. now apply Hr. }
  split.
  - intros ->. rewrite (H0 eq_refl). destruct safeChars as [|c0 rest]; [simpl in HR; lia |].
    reflexivity.
  - intros Hb.
    assert (HV : 0 < frameValue (setUint32 (Z.of_nat (length b)) ++ b)).
    { pose proof (frameValue_nonneg b).
      destruct (Z.eq_dec (frameValue (setUint32 (Z.of_nat (length b)) ++ b)) 0) as [E0|];
        [| lia].
      now apply frameValue_zero in E0. }
    destruct (Hpos HV) as [_ Hhead].
    destruct ds as [|d ds']; [congruence |]. apply Forall_cons in Hr as [Hd _].
    destruct safeChars as [|c0 rest]; [simpl in HR; lia |].
    cbn [map head]. intros [= Ec].
    destruct (symbolToIndex_symbolAt (c0 :: rest) d Hnd Hd) as [_ Hi].
    rewrite Ec in Hi. simpl in Hi. rewrite decide_True in Hi by reflexivity.
    injection Hi as <-. now apply Hhead.
Qed.

Lemma encodeBits_output_witness :
  exists s, encodeBits hexEncoder [x00; x01; xff] = Return s
    /\ s <> []
    /\ Forall (fun c => c ∈ hexChars) s
    /\ ([x00; x01; xff] = [] -> s = take 1 hexChars)
    /\ ([x00; x01; xff] <> [] -> head s <> head hexChars).
Proof.
  apply (encodeBits_output hexChars hexEncoder [x00; x01; xff]).
  - reflexivity.
  - simpl. lia.
  - simpl. lia.
Defined.

(** The frame value determines the payload. *)
Lemma frameValue_inj (b1 b2 : Uint8Array) :
  Z.of_nat (length b1) < 2 ^ 32 -> Z.of_nat (length b2) < 2 ^ 32 ->
  frameValue (setUint32 (Z.of_nat (length b1)) ++ b1)
  = frameValue (setUint32 (Z.of_nat (length b2)) ++ b2) ->
  b1 = b2.
Proof.
  intros H1 H2. rewrite !frameValue_split, !Z.mod_small by lia.
  pose proof (payloadValue_range b1) as P1. pose proof (payloadValue_range b2) as P2.
  set (n1 := Z.of_nat (length b1)) in *. set (n2 := Z.of_nat (length b2)) in *.
  intros E.
  assert (Hmono : forall a c, 0 <= a -> a < c -> (a + 1) * 256 ^ a <= c * 256 ^ c).
  { intros a c Ha Hac.
    assert (256 ^ a <= 256 ^ c) by (apply Z.pow_le_mono_r; lia).
    assert (0 < 256 ^ a) by (apply Z.pow_pos_nonneg; lia). nia. }
  assert (Hn : n1 = n2).
  { destruct (Z.lt_trichotomy n1 n2) as [Hlt|[Heq|Hgt]]; [| assumption |].
    - pose proof (Hmono n1 n2 ltac:(lia) Hlt). lia.
    - pose proof (Hmono n2 n1 ltac:(lia) ltac:(lia)). lia. }
  rewrite Hn in E.
  assert (Hv : payloadValue b1 = payloadValue b2) by lia.
  unfold payloadValue in Hv. apply fromDigits_inj in Hv.
  - rewrite <- (map_byte_of_Z_of_byte b1), <- (map_byte_of_Z_of_byte b2). now rewrite Hv.
  - apply bytes_in_range.
  - apply bytes_in_range.
  - rewrite !length_map. lia.
Qed.

(** X2. [encodeBits] loses nothing: two payloads shorter than 2^32 bytes
    with the same encoding are the same payload. *)
Theorem encodeBits_injective (safeChars : JSString) (enc : t) (b1 b2 : Uint8Array)
        (s : JSString) :
  constructor safeChars = Return enc ->
  (2 <= length safeChars)%nat ->
  Z.of_nat (length b1) < 2 ^ 32 -> Z.of_nat (length b2) < 2 ^ 32 ->
  encodeBits enc b1 = Return s -> encodeBits enc b2 = Return s ->
  b1 = b2.
Proof.
  intros Hwf%constructor_Return HR H1 H2 E1 E2.
  pose proof (wf_NoDup _ _ Hwf) as Hnd.
  destruct (encodeBits_digits safeChars enc b1 Hwf HR) as (ds1 & F1 & Hr1 & _ & Hf1 & _).
  destruct (encodeBits_digits safeChars enc b2 Hwf HR) as (ds2 & F2 & Hr2 & _ & Hf2 & _).
  rewrite E1 in F1. injection F1 as F1. rewrite E2 in F2. injection F2 as F2.
  apply frameValue_inj; [assumption | assumption |].
  rewrite <- Hf1, <- Hf2.
  rewrite <- (reconstruct_symbols safeChars ds1 Hnd Hr1).
  rewrite <- (reconstruct_symbols safeChars ds2 Hnd Hr2).
  now rewrite <- F1, <- F2.
Qed.

Lemma encodeBits_injective_witness :
  [x00; x01; xff] = [x00; x01; xff].
Proof.
  apply (encodeBits_injective hexChars hexEncoder [x00; x01; xff] [x00; x01; xff]
                              (list_ascii_of_string "30001FF")).
  - reflexivity.
  - simpl. lia.
  - simpl. lia.
  - simpl. lia.
  - vm_compute. reflexivity.
  - vm_compute. reflexivity.
Defined.

(** X3. The length of the encoding: for radix R >= 2 and a payload of n
    bytes, the string [encodeBits] returns has k symbols with
    R^(k-1) < 256^(n+4). *)
Theorem encodeBits_length_bound (safeChars : JSString) (enc : t) (b : Uint8Array)
        (s : JSString) :
  constructor safeChars = Return enc ->
  (2 <= length safeChars)%nat ->
  encodeBits enc b = Return s ->
  (1 <= length s)%nat
  /\ Z.of_nat (length safeChars) ^ (Z.of_nat (length s) - 1)
     < 256 ^ (Z.of_nat (length b) + 4).
Proof.
  intros Hwf%constructor_Return HR E.
  destruct (encodeBits_digits safeChars enc b Hwf HR) as (ds & F & Hr & Hne & Hf & H0 & Hpos).
  rewrite E in F. injection F as ->.
  split; [rewrite length_map; destruct ds; [congruence | simpl; lia] |].
  assert (Hhi : frameValue (setUint32 (Z.of_nat (length b)) ++ b)
                < 256 ^ (Z.of_nat (length b) + 4)).
  { rewrite frameValue_fromDigits.
    replace (Z.of_nat (length b) + 4)
      with (Z.of_nat (length (map Z_of_byte (setUint32 (Z.of_nat (length b)) ++ b))))
      by (rewrite length_map, length_app; simpl; lia).
    apply fromDigits_lt_pow; [lia | apply bytes_in_range]. }
  pose proof (frameValue_nonneg b) as Hnn.
  destruct (Z.eq_dec (frameValue (setUint32 (Z.of_nat (length b)) ++ b)) 0) as [E0|E0].
  - rewrite (H0 E0). cbn [map length]. change (Z.of_nat 1 - 1) with 0.
    rewrite Z.pow_0_r. apply Z.pow_gt_1; lia.
  - pose proof (canonical_ge_pow (Z.of_nat (length safeChars)) ltac:(lia) ds
                  (Hpos ltac:(lia)) Hne) as Hlo.
    rewrite length_map. lia.
Qed.

Lemma encodeBits_length_bound_witness :
  (1 <= length (list_ascii_of_string "30001FF"))%nat
  /\ Z.of_nat (length hexChars) ^ (Z.of_nat (length (list_ascii_of_string "30001FF")) - 1)
     < 256 ^ (Z.of_nat (length [x00; x01; xff]) + 4).
Proof.
  apply (encodeBits_length_bound hexChars hexEncoder [x00; x01; xff]).
  - reflexivity.
  - simpl. lia.
  - vm_compute. reflexivity.
Defined.

(** *** What [decodeBits] makes of a value *)

Lemma canonical_take (R : Z) (k : nat) (cs : list Z) :
  canonical R cs -> (1 <= k)%nat -> canonical R (take k cs).
Proof.
  intros [Hr Hh] Hk. split; [now apply Forall_take |].
  destruct cs as [|c cs]; [now rewrite take_nil |].
  destruct k; [lia | exact Hh].
Qed.





(** *** When [decodeBits] returns *)

Lemma filter_nil_Forall (enc : t) (str : JSString) :
  filter (fun char => charToIndex enc !! char = None) str = [] ->
  Forall (fun c => is_Some (charToIndex enc !! c)) str.
Proof.
  induction str as [|c str IH]; [constructor |].
  rewrite filter_cons. destruct (decide (charToIndex enc !! c = None)) as [|Hc];
    [discriminate |].
  intros H. constructor; [| now apply IH].
  destruct (charToIndex enc !! c); [eauto | congruence].
Qed.

(** What a returning call has gone through: the value of the string is
    positive, its canonical bytes start with a header of at least 2^24, and
    at least that many bytes follow it. *)
Lemma decodeBits_Return_inv (enc : t) (str : JSString) (bytes : Uint8Array) :
  decodeBits enc str = Return bytes ->
  exists value cs,
    str <> []
    /\ Forall (fun c => is_Some (charToIndex enc !! c)) str
    /\ hornerLoop enc str 0 = Return value
    /\ canonical 256 cs /\ fromDigits 256 cs = value
    /\ 2 ^ 24 <= fromDigits 256 (take 4 cs)
    /\ fromDigits 256 (take 4 cs) + 4 <= Z.of_nat (length cs)
    /\ bytes = map byte_of_Z (take (Z.to_nat (fromDigits 256 (take 4 cs))) (drop 4 cs)).
Proof.
  unfold decodeBits.
  destruct (decide (length str = 0%nat)) as [|Hlen]; [discriminate |].
  destruct (decide (0 < length (filter _ str))%nat) as [|Hfil]; [discriminate |].
  destruct (hornerLoop enc str 0) as [value| |] eqn:Eh; cbn [bind]; try discriminate.
  assert (Hne : str <> []) by (now destruct str).
  assert (Hval : Forall (fun c => is_Some (charToIndex enc !! c)) str).
  { apply filter_nil_Forall. destruct (filter _ str); [reflexivity | simpl in Hfil; lia]. }
  destruct (value =? 0) eqn:EV; cbn [bind].
  { intros H. exfalso. revert H. vm_compute. discriminate. }
  apply Z.eqb_neq in EV.
  destruct (Z.lt_ge_cases 0 value) as [Hpos|Hneg].
  - destruct (bytesLoop_digits (halvings value) value []) as (cs & E & Hc & Hf).
    { now apply halvings_bound. }
    rewrite app_nil_r in E. rewrite E. cbn [bind].
    rewrite padLoop_leftPad.
    pose proof (unframe_padded (spec_leftPad cs) (leftPad_range cs (proj1 Hc))
                  (leftPad_length cs)) as Hu.
    cbv zeta in Hu |- *. rewrite Hu. clear Hu.
    unfold spec_unframe.
    destruct (fromDigits 256 (take 4 (spec_leftPad cs)) =? 0) eqn:EL; [discriminate |].
    apply Z.eqb_neq in EL.
    destruct (_ <? _) eqn:Elen; [discriminate |]. apply Z.ltb_ge in Elen.
    assert (HLnn : 0 <= fromDigits 256 (take 4 (spec_leftPad cs))).
    { apply fromDigits_nonneg; [lia |]. apply Forall_take, leftPad_range, Hc. }
    assert (H4 : (4 < length cs)%nat).
    { destruct (le_lt_dec (length cs) 4) as [Hle|]; [exfalso | assumption].
      rewrite length_drop in Elen. unfold spec_leftPad in *.
      rewrite length_app, length_replicate in Elen. lia. }
    assert (Epad : spec_leftPad cs = cs).
    { unfold spec_leftPad. now replace (4 - length cs)%nat with 0%nat by lia. }
    rewrite Epad in *.
    intros [= <-]. exists value, cs.
    pose proof (canonical_ge_pow 256 ltac:(lia) (take 4 cs)
                  (canonical_take 256 4 cs Hc ltac:(lia))) as Hlo.
    rewrite length_take, Nat.min_l in Hlo by lia.
    specialize (Hlo ltac:(destruct cs; [simpl in H4; lia | discriminate])).
    change (256 ^ (Z.of_nat 4 - 1)) with (2 ^ 24) in Hlo.
    rewrite length_drop in Elen.
    repeat split; try assumption; try apply Hc; lia.
  - unfold halvings. cbn [bytesLoop]. rewrite (proj2 (Z.ltb_ge 0 value)) by assumption.
    cbn [bind]. intros H. exfalso. revert H. vm_compute. discriminate.
Qed.

(** X5. Whenever [decodeBits] returns, it returns at least 2^24 bytes: a
    shorter payload cannot come out of any string, for any encoder. *)
Theorem decodeBits_returns_long (enc : t) (str : JSString) :
  match decodeBits enc str with
  | Return bytes => 2 ^ 24 <= Z.of_nat (length bytes)
  | Throw _ | Diverge => True
  end.
Proof.
  destruct (decodeBits enc str) as [bytes| |] eqn:E; [| exact I | exact I].
  apply decodeBits_Return_inv in E as (value & cs & _ & _ & _ & _ & _ & HL & Hlen & ->).
  rewrite length_map, length_take, length_drop. lia.
Qed.

Lemma reconstruct_lt_pow (safeChars s : JSString) :
  safeChars <> [] ->
  spec_reconstruct safeChars s < Z.of_nat (length safeChars) ^ Z.of_nat (length s).
Proof.
  intros Hne. unfold spec_reconstruct.
  assert (HR : 1 <= Z.of_nat (length safeChars)) by (destruct safeChars; [congruence | simpl; lia]).
  induction s as [|c s IH] using rev_ind; [reflexivity |].
  rewrite fold_left_app, length_app. cbn [fold_left length].
  rewrite Nat2Z.inj_add, Z.pow_add_r by lia. change (Z.of_nat 1) with 1.
  rewrite Z.pow_1_r.
  assert (0 <= default 0 (symbolToIndex safeChars c) < Z.of_nat (length safeChars)).
  { destruct (symbolToIndex safeChars c) as [i|] eqn:E; simpl; [| lia].
    now apply symbolToIndex_Some in E. }
  nia.
Qed.

Lemma decodeBits_Return_length (safeChars : JSString) (enc : t)
      (str : JSString) (bytes : Uint8Array) :
  constructor safeChars = Return enc ->
  (length safeChars <= 256)%nat ->
  decodeBits enc str = Return bytes ->
  2 ^ 24 + 3 < Z.of_nat (length str).
Proof.
  intros Hwf%constructor_Return HR E.
  apply decodeBits_Return_inv in E as (value & cs & Hne & Hval & Eh & Hc & Hf & HL & Hlen & _).
  assert (Hs : Forall (fun c => c ∈ safeChars) str).
  { eapply Forall_impl; [exact Hval |]. intros c [i Hi].
    rewrite (wf_charToIndex _ _ Hwf) in Hi.
    destruct (decide (c ∈ safeChars)) as [|Hn]; [assumption |].
    apply symbolToIndex_None in Hn. congruence. }
  rewrite (hornerLoop_valid _ _ _ _ Hwf Hs) in Eh. injection Eh as Eh.
  fold (spec_reconstruct safeChars str) in Eh.
  pose proof (reconstruct_lt_pow safeChars str (wf_nonempty _ _ Hwf)) as Hhi.
  change (2 ^ 24) with 16777216 in *.
  assert (Hcne : cs <> []).
  { intros ->. rewrite take_nil in HL. unfold fromDigits in HL. simpl in HL. lia. }
  pose proof (canonical_ge_pow 256 ltac:(lia) cs Hc Hcne) as Hlo.
  assert (HRle : Z.of_nat (length safeChars) ^ Z.of_nat (length str)
                 <= 256 ^ Z.of_nat (length str))
    by (apply Z.pow_le_mono_l; lia).
  assert (Hlt : 256 ^ (Z.of_nat (length cs) - 1) < 256 ^ Z.of_nat (length str)) by lia.
  apply Z.pow_lt_mono_r_iff in Hlt; lia.
Qed.

(** X6. With an alphabet of at most 256 symbols, [decodeBits] returns only
    on strings of more than 2^24 + 3 characters. *)
Theorem decodeBits_needs_long_string (safeChars : JSString) (enc : t)
        (str : JSString) (bytes : Uint8Array) :
  constructor safeChars = Return enc ->
  (length safeChars <= 256)%nat ->
  decodeBits enc str = Return bytes ->
  2 ^ 24 + 3 < Z.of_nat (length str).
Proof. apply decodeBits_Return_length. Qed.

Lemma decodeBits_needs_long_string_witness :
  exists str, decodeBits hexEncoder str = Return longPayload
              /\ 2 ^ 24 + 3 < Z.of_nat (length str).
Proof.
  destruct decodeBits_can_return as (str & _ & Hs).
  exists str. split; [exact Hs |].
  apply (decodeBits_needs_long_string hexChars hexEncoder str longPayload).
  - reflexivity.
  - simpl. lia.
  - exact Hs.
Defined.



(** *** An alphabet of one symbol *)

Lemma hornerLoop_unary (c : ascii) (enc : t) (s : JSString) :
  wellFormed [c] enc ->
  Forall (fun c' => is_Some (charToIndex enc !! c')) s ->
  hornerLoop enc s 0 = Return 0.
Proof.
  intros Hwf Hs. induction Hs as [|c' s [i Hi] Hs IH]; [reflexivity |].
  cbn [hornerLoop]. rewrite Hi.
  rewrite (wf_charToIndex _ _ Hwf) in Hi. apply symbolToIndex_Some in Hi.
  rewrite (wf_RADIX _ _ Hwf). cbn [length] in *.
  replace (0 * Z.of_nat 1 + i) with 0 by lia. exact IH.
Qed.

(** X20. The constructor accepts an alphabet of a single symbol, but the
    encoder it builds is of no use: [encodeBits] never ends on a non-empty
    payload, however many iterations its loop is allowed, and [decodeBits]
    throws on every string. *)
Theorem unary_alphabet_unusable (c : ascii) (enc : t) :
  constructor [c] = Return enc ->
  (forall b fuel,
      b <> [] -> Z.of_nat (length b) < 2 ^ 32 ->
      encodeBits enc b = Diverge
      /\ encodeLoop fuel enc (frameValue (setUint32 (Z.of_nat (length b)) ++ b)) [] = Diverge)
  /\ forall s, exists e, decodeBits enc s = Throw e.
Proof.
  intros Hwf%constructor_Return. split.
  - intros b fuel Hb Hlen.
    assert (HV : 0 < frameValue (setUint32 (Z.of_nat (length b)) ++ b)).
    { pose proof (frameValue_nonneg b).
      destruct (Z.eq_dec (frameValue (setUint32 (Z.of_nat (length b)) ++ b)) 0) as [E0|];
        [| lia].
      now apply frameValue_zero in E0. }
    assert (HR : RADIX enc = 1) by (rewrite (wf_RADIX _ _ Hwf); reflexivity).
    split; [| now apply encodeLoop_radix_1].
    unfold encodeBits, toBitArray. cbv zeta.
    rewrite (proj2 (Z.eqb_neq _ 0)) by lia.
    now rewrite encodeLoop_radix_1.
  - intros s. unfold decodeBits.
    destruct (decide (length s = 0%nat)); [eauto |].
    destruct (decide (0 < length (filter _ s))%nat) as [|Hfil]; [eauto |].
    rewrite (hornerLoop_unary c enc s Hwf).
    + cbn [bind]. eexists. vm_compute. reflexivity.
    + apply filter_nil_Forall. destruct (filter _ s); [reflexivity | simpl in Hfil; lia].
Qed.

Lemma unary_alphabet_unusable_witness :
  exists enc,
    constructor ["0"%char] = Return enc
    /\ encodeBits enc [x01] = Diverge
    /\ exists e, decodeBits enc ["0"%char; "0"%char] = Throw e.
Proof.
  destruct (constructor ["0"%char]) as [enc| |] eqn:E; try (vm_compute in E; discriminate).
  exists enc. split; [reflexivity |].
  destruct (unary_alphabet_unusable "0"%char enc E) as [Hen Hde].
  split; [| apply Hde].
  apply (Hen [x01] 0%nat); [discriminate | vm_compute; reflexivity].
Defined.

(** *** Strings over the alphabet *)

(** The strings [encodeBits] returns are non-empty and over the alphabet. *)
Lemma encodeBits_Return_alphabet (safeChars : JSString) (enc : t) (b : Uint8Array)
      (s : JSString) :
  wellFormed safeChars enc -> encodeBits enc b = Return s ->
  s <> [] /\ Forall (fun c => c ∈ safeChars) s.
Proof.
  intros Hwf E.
  destruct (le_lt_dec 2 (length safeChars)) as [HR|HR].
  - destruct (encodeBits_digits safeChars enc b Hwf HR) as (ds & E' & Hr & Hne & _).
    rewrite E in E'. injection E' as ->. split; [now destruct ds |].
    apply Forall_forall. intros c (d & -> & Hd)%list_elem_of_fmap.
    apply symbolToIndex_symbolAt; [apply Hwf |].
    rewrite Forall_forall in Hr. now apply Hr.
  - destruct safeChars as [|c0 [|c1 rest]]; [now destruct Hwf | | simpl in HR; lia].
    unfold encodeBits in E. cbv zeta in E.
    destruct (frameValue _ =? 0) eqn:EV.
    + rewrite (wf_SAFE_CHARS _ _ Hwf) in E. injection E as <-.
      split; [discriminate |]. repeat constructor.
    + rewrite encodeLoop_radix_1 in E; [discriminate | apply Hwf |].
      apply Z.eqb_neq in EV. pose proof (frameValue_nonneg b).
      unfold toBitArray in *. lia.
Qed.

(** For a non-empty string over the alphabet, [decodeBits] can only fail on
    the length prefix. *)
Lemma decodeBits_valid (safeChars : JSString) (enc : t) (s : JSString) :
  wellFormed safeChars enc -> s <> [] -> Forall (fun c => c ∈ safeChars) s ->
  match decodeBits enc s with
  | Return _ => True
  | Throw e => e = InvalidLengthPrefix \/ exists L got, e = IncompleteData L got
  | Diverge => False
  end.
Proof.
  intros Hwf Hne Hs.
  pose proof (decodeBits_terminates enc s) as Ht.
  unfold decodeBits in *.
  rewrite decide_False in * by (now destruct s).
  rewrite (valid_filter_nil _ _ _ Hwf Hs) in *. cbn [length] in *.
  rewrite decide_False in * by lia.
  rewrite (hornerLoop_valid _ _ _ _ Hwf Hs) in *. cbn [bind] in *.
  destruct (if _ =? 0 then _ else _) as [bytes| |] eqn:Eb; cbn [bind] in *.
  - destruct (_ <=? 0); [now left |]. destruct (_ <? _); [right; eauto | exact I].
  - exfalso. destruct (_ =? 0); [discriminate |].
    set (V := fold_left _ s 0) in *.
    destruct (Z.lt_ge_cases 0 V) as [Hpos|Hneg].
    + destruct (bytesLoop_digits (halvings V) V []) as (ds & E & _);
        [now apply halvings_bound | congruence].
    + unfold halvings in Eb. simpl in Eb.
      rewrite (proj2 (Z.ltb_ge 0 V)) in Eb by assumption. discriminate.
  - congruence.
Qed.

Lemma filter_invalid_nil (safeChars s : JSString) :
  Forall (fun c => c ∈ safeChars) s -> filter (fun char => char ∉ safeChars) s = [].
Proof.
  intros H. induction H as [|c s Hc Hs IH]; [reflexivity |].
  rewrite filter_cons, decide_False; [exact IH | now intros Hn].
Qed.

End BitStreamMore.

(** ** Facts about the comparisons of Numbers *)

Module NumberFacts.

(** [undefined <= b] is false. *)
Lemma leb_nan (b : float) : PrimFloat.leb PrimFloat.nan b = false.
Proof. rewrite FloatAxioms.leb_spec. reflexivity. Qed.

Lemma ltb_infinity (x : float) : PrimFloat.ltb PrimFloat.infinity x = false.
Proof.
  rewrite FloatAxioms.ltb_spec. change (Prim2SF PrimFloat.infinity) with (S754_infinity false).
  destruct (Prim2SF x) as [| [] | |]; reflexivity.
Qed.

End NumberFacts.

(** ** Facts about the viewer *)

Module ImageViewerFacts.
Import BitStreamEncoder ImageViewer CodecSpec SearchSpec MoreSpec BitStreamFacts BitStreamMore
       NumberFacts.

Lemma everyByte_spec (arr : Uint8Array) (bytes : list Z) (offset : nat) :
  (offset + length bytes <= length arr)%nat ->
  everyByte arr offset bytes = true
  <-> map Z_of_byte (take (length bytes) (drop offset arr)) = bytes.
Proof.
  revert offset. induction bytes as [|byte rest IH]; intros offset Hlen.
  - simpl. tauto.
  - simpl in Hlen.
    destruct (lookup_lt_is_Some_2 arr offset ltac:(lia)) as [a Ha].
    cbn [everyByte length]. rewrite Ha, (drop_S _ _ _ Ha). cbn [take map].
    rewrite andb_true_iff, Z.eqb_eq, (IH (S offset)) by lia.
    split; [intros [-> ->]; reflexivity | intros [= -> ->]; split; reflexivity].
Qed.

Section ViewerFacts.

Variable SAFE_CHARS : JSString.
Variable MAX_URL_LENGTH : float.
Variable SUPPORTED_INPUT_FORMATS : list string.
Variable FORMAT_SIGNATURES : list (string * Signature).
Variable encoder : BitStreamEncoder.t.
Variable imageLoads : Uint8Array -> string -> bool.

Local Abbreviation validate := (validateEncodedData SAFE_CHARS MAX_URL_LENGTH).
Local Abbreviation display :=
  (decodeAndDisplayImage SAFE_CHARS MAX_URL_LENGTH SUPPORTED_INPUT_FORMATS
                         FORMAT_SIGNATURES encoder imageLoads).

Lemma detectLoop_first (arr : Uint8Array) (entries : list (string * Signature)) :
  match detectLoop arr entries with
  | Some format =>
      exists skipped formatName signature rest,
        entries = skipped ++ (formatName, signature) :: rest
        /\ Forall (fun entry => ~ signatureAt arr entry.2) skipped
        /\ signatureAt arr signature
        /\ format = sig_format signature
  | None => Forall (fun entry => ~ signatureAt arr entry.2) entries
  end.
Proof.
  induction entries as [|[formatName signature] rest IH]; [constructor |].
  cbn [detectLoop].
  assert (Hskip : forall o, (length arr <? o + length (sig_bytes signature))%nat = true
                            \/ ((length arr <? o + length (sig_bytes signature))%nat = false
                                /\ everyByte arr o (sig_bytes signature) = false) ->
                            o = default 0%nat (sig_offset signature) ->
                            ~ signatureAt arr signature).
  { intros o Ho -> [Hlen Hb]. destruct Ho as [Ho|[_ Ho]].
    - apply Nat.ltb_lt in Ho. lia.
    - apply (everyByte_spec arr _ _ Hlen) in Hb. congruence. }
  destruct (length arr <? _)%nat eqn:Elen.
  - destruct (detectLoop arr rest) as [format|].
    + destruct IH as (skipped & n & sg & rest' & -> & Hsk & Hat & ->).
      exists ((formatName, signature) :: skipped), n, sg, rest'.
      split; [reflexivity |]. split; [| now split].
      constructor; [| assumption]. apply (Hskip _ (or_introl Elen) eq_refl).
    + constructor; [| assumption]. apply (Hskip _ (or_introl Elen) eq_refl).
  - destruct (everyByte arr _ (sig_bytes signature)) eqn:Eb.
    + apply Nat.ltb_ge in Elen.
      exists [], formatName, signature, rest.
      split; [reflexivity |]. split; [constructor |]. split; [| reflexivity].
      split; [exact Elen | now apply everyByte_spec].
    + destruct (detectLoop arr rest) as [format|].
      * destruct IH as (skipped & n & sg & rest' & -> & Hsk & Hat & ->).
        exists ((formatName, signature) :: skipped), n, sg, rest'.
        split; [reflexivity |]. split; [| now split].
        constructor; [| assumption]. apply (Hskip _ (or_intror (conj Elen Eb)) eq_refl).
      * constructor; [| assumption]. apply (Hskip _ (or_intror (conj Elen Eb)) eq_refl).
Qed.

(** X8. [detectImageFormat] returns the format of the first entry of the
    signature table whose bytes are in the buffer at the entry's offset, and
    nothing when no entry's bytes are. *)
Theorem detectImageFormat_first_match (buffer : Uint8Array) :
  match detectImageFormat FORMAT_SIGNATURES buffer with
  | Some format =>
      exists skipped formatName signature rest,
        FORMAT_SIGNATURES = skipped ++ (formatName, signature) :: rest
        /\ Forall (fun entry => ~ signatureAt buffer entry.2) skipped
        /\ signatureAt buffer signature
        /\ format = sig_format signature
  | None => Forall (fun entry => ~ signatureAt buffer entry.2) FORMAT_SIGNATURES
  end.
Proof. apply detectLoop_first. Qed.

Lemma validate_Done (encodedData : JSString) :
  validate encodedData = Done tt ->
  encodedData <> []
  /\ Forall (fun c => c ∈ SAFE_CHARS) encodedData
  /\ PrimFloat.ltb MAX_URL_LENGTH (Number.ofZ (Z.of_nat (length encodedData))) = false.
Proof.
  unfold validateEncodedData.
  destruct (decide (length encodedData = 0%nat)) as [|Hlen]; [discriminate |].
  destruct (decide (0 < length (filter _ encodedData))%nat) as [|Hfil]; [discriminate |].
  destruct (PrimFloat.ltb _ _); [discriminate |]. intros _.
  split; [now destruct encodedData |]. split; [| reflexivity].
  apply Forall_forall. intros c Hc.
  destruct (decide (c ∈ SAFE_CHARS)) as [|Hn]; [assumption | exfalso].
  assert (Hin : c ∈ filter (fun char => char ∉ SAFE_CHARS) encodedData)
    by (apply list_elem_of_filter; now split).
  destruct (filter _ encodedData); [inversion Hin | simpl in Hfil; lia].
Qed.

(** X9. When the viewer's encoder was built from [CONFIG.SAFE_CHARS], data
    that passes [validateEncodedData] is never refused by the decoder for
    its characters or for being empty: decoding returns, or fails on the
    length prefix alone. *)
Theorem validated_data_decodes (encodedData : JSString) :
  constructor SAFE_CHARS = Return encoder ->
  validate encodedData = Done tt ->
  (exists buffer, decoder encoder encodedData = Done buffer)
  \/ decoder encoder encodedData = Raise (DecodingFailed InvalidLengthPrefix)
  \/ exists L got, decoder encoder encodedData = Raise (DecodingFailed (IncompleteData L got)).
Proof.
  intros Hwf%constructor_Return (Hne & Hs & _)%validate_Done.
  pose proof (decodeBits_valid _ _ _ Hwf Hne Hs) as H. unfold decoder.
  destruct (decodeBits encoder encodedData) as [buffer|e|]; [left; eauto | | contradiction].
  destruct H as [->|(L & got & ->)]; [right; left; reflexivity | right; right; eauto].
Qed.

Lemma display_inv (encodedData : JSString) (buffer : Uint8Array) (format : string) :
  display encodedData = Done (ShowsImage buffer format) ->
  validate encodedData = Done tt
  /\ decodeBits encoder encodedData = Return buffer
  /\ detectImageFormat FORMAT_SIGNATURES buffer = Some format
  /\ format <> EmptyString
  /\ format ∈ SUPPORTED_INPUT_FORMATS
  /\ imageLoads buffer format = true.
Proof.
  unfold decodeAndDisplayImage, decodeImage, decoder.
  destruct (validate encodedData) as [[]| |]; cbn [andThen]; try discriminate.
  destruct (decodeBits encoder encodedData) as [b| |]; cbn [andThen]; try discriminate.
  destruct (detectImageFormat FORMAT_SIGNATURES b) as [f|] eqn:Ed; [| discriminate].
  destruct (decide (f = EmptyString)); [discriminate |].
  destruct (decide (f ∈ SUPPORTED_INPUT_FORMATS)); [| discriminate].
  destruct (imageLoads b f) eqn:El; [| discriminate].
  intros [= <- <-]. repeat split; assumption.
Qed.

(** X10. The viewer shows an image only for data over the safe characters
    and within the length limit that [decodeBits] decodes to a buffer in
    which a signature of a supported format is found; that buffer has at
    least 2^24 bytes, and with at most 256 safe characters the data has more
    than 2^24 + 3 characters. *)
Theorem displayed_image (encodedData : JSString) (buffer : Uint8Array) (format : string) :
  constructor SAFE_CHARS = Return encoder ->
  display encodedData = Done (ShowsImage buffer format) ->
  Forall (fun c => c ∈ SAFE_CHARS) encodedData
  /\ PrimFloat.ltb MAX_URL_LENGTH (Number.ofZ (Z.of_nat (length encodedData))) = false
  /\ decodeBits encoder encodedData = Return buffer
  /\ 2 ^ 24 <= Z.of_nat (length buffer)
  /\ ((length SAFE_CHARS <= 256)%nat -> 2 ^ 24 + 3 < Z.of_nat (length encodedData))
  /\ detectImageFormat FORMAT_SIGNATURES buffer = Some format
  /\ format ∈ SUPPORTED_INPUT_FORMATS.
Proof.
  intros Hc (Hv & Hd & Hf & _ & Hsup & _)%display_inv.
  apply validate_Done in Hv as (_ & Hs & Hlen).
  split; [exact Hs |]. split; [exact Hlen |]. split; [exact Hd |].
  split.
  { apply decodeBits_Return_inv in Hd as (value & cs & _ & _ & _ & _ & _ & HL & Hl & ->).
    rewrite length_map, length_take, length_drop. lia. }
  split; [| now split].
  intros HR. exact (decodeBits_Return_length _ _ _ _ Hc HR Hd).
Qed.

(** X11. [decodeAndDisplayImage] always ends, and never with an exception:
    every string leaves the page showing an image or an error message. *)
Theorem display_ends (encodedData : JSString) :
  exists screen,
    decodeAndDisplayImage SAFE_CHARS MAX_URL_LENGTH SUPPORTED_INPUT_FORMATS
                          FORMAT_SIGNATURES encoder imageLoads encodedData
    = Done screen.
Proof.
  unfold decodeAndDisplayImage, decodeImage, decoder.
  assert (Hv : validate encodedData <> Hang).
  { unfold validateEncodedData. repeat destruct (decide _); try discriminate.
    destruct (PrimFloat.ltb _ _); discriminate. }
  destruct (validate encodedData) as [[]|f|]; cbn [andThen]; [| eauto | contradiction].
  pose proof (decodeBits_terminates encoder encodedData) as Ht.
  destruct (decodeBits encoder encodedData) as [b|e|]; cbn [andThen]; [| eauto | contradiction].
  destruct (detectImageFormat FORMAT_SIGNATURES b) as [f|]; [| eauto].
  destruct (decide (f = EmptyString)); [eauto |].
  destruct (decide (f ∈ SUPPORTED_INPUT_FORMATS)); [| eauto].
  destruct (imageLoads b f); eauto.
Qed.

End ViewerFacts.

Lemma validated_data_decodes_witness :
  validateEncodedData hexChars budget (list_ascii_of_string "30001FF") = Done tt
  /\ ((exists buffer, decoder hexEncoder (list_ascii_of_string "30001FF") = Done buffer)
      \/ decoder hexEncoder (list_ascii_of_string "30001FF")
         = Raise (DecodingFailed InvalidLengthPrefix)
      \/ exists L got, decoder hexEncoder (list_ascii_of_string "30001FF")
                       = Raise (DecodingFailed (IncompleteData L got))).
Proof.
  split; [vm_compute; reflexivity |].
  apply (validated_data_decodes hexChars budget hexEncoder (list_ascii_of_string "30001FF")).
  - reflexivity.
  - vm_compute. reflexivity.
Defined.

(** The viewer does show an image for some data: with no length limit, for
    the encoding of [longPayload]. *)
Lemma display_longPayload :
  exists encodedData,
    decodeAndDisplayImage hexChars PrimFloat.infinity ["image/png"%string] onesSignatures
                          hexEncoder alwaysLoads encodedData
    = Done (ShowsImage longPayload "image/png").
Proof.
  destruct decodeBits_can_return as (s & Henc & Hdec). exists s.
  destruct (encodeBits_Return_alphabet hexChars hexEncoder longPayload s
              (constructor_Return _ _ constructor_hex) Henc) as [Hne Hs].
  assert (Hv : validateEncodedData hexChars PrimFloat.infinity s = Done tt).
  { unfold validateEncodedData.
    rewrite decide_False by (intros E; exact (Hne (nil_length_inv _ E))).
    rewrite (filter_invalid_nil _ _ Hs). cbn [length].
    rewrite decide_False by lia. rewrite ltb_infinity. reflexivity. }
  pose proof longPayload_length as Hlen. change (2 ^ 24) with 16777216 in Hlen.
  assert (Hl4 : (4 <= length longPayload)%nat) by lia.
  assert (He : everyByte longPayload 0 [1; 1; 1; 1] = true).
  { apply everyByte_spec; [exact Hl4 |].
    unfold longPayload. rewrite drop_0, take_replicate.
    change (length [1; 1; 1; 1]) with 4%nat.
    rewrite Nat.min_l by lia. reflexivity. }
  assert (Hd : detectImageFormat onesSignatures longPayload = Some "image/png"%string).
  { unfold detectImageFormat, onesSignatures.
    cbn [detectLoop sig_bytes sig_offset sig_format default].
    change (0 + length [1; 1; 1; 1]%Z)%nat with 4%nat.
    rewrite (proj2 (Nat.ltb_ge _ _) Hl4), He. reflexivity. }
  unfold decodeAndDisplayImage, decodeImage, decoder.
  rewrite Hv. cbn [andThen]. rewrite Hdec. cbn [andThen]. rewrite Hd.
  rewrite decide_False by discriminate.
  rewrite decide_True by (apply list_elem_of_here).
  reflexivity.
Qed.

Lemma displayed_image_witness :
  exists encodedData,
    Forall (fun c => c ∈ hexChars) encodedData
    /\ PrimFloat.ltb PrimFloat.infinity (Number.ofZ (Z.of_nat (length encodedData))) = false
    /\ decodeBits hexEncoder encodedData = Return longPayload
    /\ 2 ^ 24 <= Z.of_nat (length longPayload)
    /\ ((length hexChars <= 256)%nat -> 2 ^ 24 + 3 < Z.of_nat (length encodedData))
    /\ detectImageFormat onesSignatures longPayload = Some "image/png"%string
    /\ "image/png"%string ∈ ["image/png"%string].
Proof.
  destruct display_longPayload as (encodedData & H). exists encodedData.
  apply (displayed_image hexChars PrimFloat.infinity ["image/png"%string] onesSignatures
                         hexEncoder alwaysLoads encodedData longPayload "image/png").
  - reflexivity.
  - exact H.
Defined.

End ImageViewerFacts.

(** ** More facts about the search *)

Module ImageProcessorMore.
Import BitStreamEncoder ImageProcessor CodecSpec SearchSpec MoreSpec BitStreamFacts
       ImageProcessorFacts.

Section MoreFacts.

Variable encoder : BitStreamEncoder.t.
Variable MAX_URL_LENGTH : float.
Variable SUPPORTED_INPUT_FORMATS : list string.
Variable createImageBitmap : File -> Outcome ImageBitmap.
Variable tryCompression : ImageBitmap -> CompressionOptions -> option Compressed.

Local Abbreviation tryLevel := (tryCompressionLevel encoder MAX_URL_LENGTH tryCompression).
Local Abbreviation search := (searchLoop encoder MAX_URL_LENGTH tryCompression).
Local Abbreviation run := (binarySearchRun encoder MAX_URL_LENGTH tryCompression).
Local Abbreviation findFit :=
  (compressImageHeuristic encoder MAX_URL_LENGTH createImageBitmap tryCompression).
Local Abbreviation fitting := (fittingTrial encoder MAX_URL_LENGTH tryCompression).

(** *** The number of rounds *)

Lemma closesWithin_initial (initialLength : float) :
  closesWithin 5 (initialBounds MAX_URL_LENGTH initialLength) = true.
Proof.
  unfold initialBounds. cbv zeta.
  destruct (PrimFloat.ltb 4 _); [vm_compute; reflexivity |].
  destruct (PrimFloat.ltb 2 _); vm_compute; reflexivity.
Qed.

Lemma searchLoop_closes (n left : nat) (img : ImageBitmap) (fmt : string)
      (st st' : SearchState) (log log' : list Round) :
  closesWithin n (bounds st) = true -> (n <= left)%nat ->
  search left img fmt st log = Return (st', log') ->
  exists new, log' = log ++ new
    /\ (1 <= length new <= n)%nat
    /\ closeEnough (bounds st') = true
    /\ iterations st' = iterations st + Z.of_nat (length new) - 1.
Proof.
  revert left st log. induction n as [|n IH]; intros left st log Hc Hn; [discriminate |].
  destruct left as [|left]; [lia |]. cbn [searchLoop closesWithin] in *.
  destruct (tryLevel img _) as [result| |]; cbn [bind]; try discriminate.
  apply andb_true_iff in Hc as [Hup Hdown].
  set (b' := narrow (bounds st) (midQuality (bounds st)) (midScale (bounds st))
                    (success result)) in *.
  assert (Hb : closeEnough b' || closesWithin n b' = true)
    by (subst b'; destruct (success result); assumption).
  destruct (closeEnough b') eqn:Eclose.
  - intros [= <- <-]. eexists. split; [reflexivity |]. cbn [length bounds iterations].
    repeat split; [lia | lia | exact Eclose | lia].
  - cbn [orb] in Hb. intros Hrun.
    apply IH in Hrun as (new & -> & Hlen & Hcl & Hit); [| exact Hb | lia].
    cbn [iterations] in Hit.
    eexists. rewrite <- app_assoc. split; [reflexivity |]. cbn [app length].
    repeat split; [lia | lia | exact Hcl | lia].
Qed.

(** X12. For an encoder of radix at least 2 the binary search returns after
    at least one and at most five trials, whatever the trials report, and it
    leaves through the test on the width of the intervals: the limit of eight
    iterations is never what stops it. *)
Theorem search_converges (img : ImageBitmap) (fmt : string) (initialLength : float) :
  2 <= RADIX encoder ->
  exists st log,
    run img fmt initialLength = Return (st, log)
    /\ (1 <= length log <= 5)%nat
    /\ closeEnough (bounds st) = true
    /\ iterations st = Z.of_nat (length log) - 1.
Proof.
  intros HR.
  destruct (searchLoop_returns encoder MAX_URL_LENGTH tryCompression maxIterations img fmt
              {| bounds := initialBounds MAX_URL_LENGTH initialLength;
                 bestResult := None; iterations := 0 |} [] HR) as ([st log] & E).
  exists st, log. split; [exact E |].
  apply (searchLoop_closes 5) in E as (new & -> & Hlen & Hcl & Hit).
  - cbn [app iterations] in *. repeat split; [lia | lia | exact Hcl | lia].
  - apply closesWithin_initial.
  - unfold maxIterations. lia.
Qed.

(** *** The result of the search *)

(** What the state of the search holds about [bestResult]. *)
Lemma searchLoop_best (left : nat) (img : ImageBitmap) (fmt : string)
      (st st' : SearchState) (log log' : list Round) (q0 s0 : float) :
  let holds (st : SearchState) :=
    match bestResult st with
    | Some r =>
        success r = true
        /\ params r = {| format := fmt; quality := minQuality (bounds st);
                         scale := minScale (bounds st) |}
        /\ exists d, data r = Some d /\ fitting img (params r) d
    | None => minQuality (bounds st) = q0 /\ minScale (bounds st) = s0
    end in
  holds st -> search left img fmt st log = Return (st', log') -> holds st'.
Proof.
  intros holds. revert st log. induction left as [|left IH]; intros st log Hst; cbn [searchLoop].
  - now intros [= <- <-].
  - destruct (tryLevel img _) as [result| |] eqn:Etry; cbn [bind]; try discriminate.
    apply tryLevel_inv in Etry as [Ep Hd].
    set (b' := narrow (bounds st) (midQuality (bounds st)) (midScale (bounds st))
                      (success result)) in *.
    set (best' := if success result then Some result else bestResult st) in *.
    assert (Hnext : forall i, holds {| bounds := b'; bestResult := best'; iterations := i |}).
    { intros i. unfold holds. cbn [bestResult bounds]. subst b' best'. unfold narrow.
      destruct (success result) eqn:Es.
      - cbn [minQuality minScale]. split; [exact Es |]. split; [exact Ep |].
        destruct Hd as (d & Ed & Hf). exists d. split; [exact Ed |]. now rewrite Ep.
      - cbn [minQuality minScale]. exact Hst. }
    destruct (closeEnough b').
    + intros [= <- <-]. apply Hnext.
    + apply IH, Hnext.
Qed.

(** X13. When the binary search ends with a best result, that result is a
    trial that fitted, made at the final lower bounds of quality and scale,
    and it carries the encoding of what the canvas rendered there; when it
    ends without one, the lower bounds have not moved from 0.1. *)
Theorem search_result_fits (img : ImageBitmap) (fmt : string) (initialLength : float)
        (st : SearchState) (log : list Round) :
  run img fmt initialLength = Return (st, log) ->
  match bestResult st with
  | Some r =>
      success r = true
      /\ params r = {| format := fmt; quality := minQuality (bounds st);
                       scale := minScale (bounds st) |}
      /\ exists d, data r = Some d /\ fitting img (params r) d
  | None => minQuality (bounds st) = 0.1%float /\ minScale (bounds st) = 0.1%float
  end.
Proof.
  unfold binarySearchRun. apply searchLoop_best. cbn [bestResult bounds].
  unfold initialBounds. cbv zeta.
  destruct (PrimFloat.ltb 4 _); [now split |]. destruct (PrimFloat.ltb 2 _); now split.
Qed.

(** *** What [compressImageHeuristic] returns *)

Lemma findFit_Return_inv (fuel : nat) (file : File) (targetFormat : string)
      (result : option Data) :
  findFit fuel file targetFormat = Return result ->
  exists img d,
    createImageBitmap file = Return img
    /\ result = Some d
    /\ fitting img {| format := targetFormat; quality := 0.95; scale := 1.0 |} d.
Proof.
  unfold compressImageHeuristic.
  destruct (createImageBitmap file) as [img| |]; cbn [bind]; try discriminate.
  destruct (tryLevel img _) as [ir| |] eqn:E1; cbn [bind]; try discriminate.
  apply tryLevel_inv in E1 as [_ Hd].
  destruct (success ir).
  - destruct Hd as (d & Ed & Hf). intros [= <-]. exists img, d. now split.
  - destruct (binarySearchCompression _ _ _ _ _ _) as [[r|]| |]; cbn [bind]; try discriminate.
    destruct (success r); [| discriminate].
    unfold optimizeCompression.
    destruct (tryLevel img (params r)) as [b| |]; cbn [bind]; try discriminate.
    destruct (forSteps _ _ _ _ _ _ _ _) as [w| |]; cbn [bind]; discriminate.
Qed.

(** X14. Whatever [compressImageHeuristic] returns is the data of its first
    trial, the rendering at quality 0.95 and scale 1.0, encoded and within
    the limit: nothing found at a lower quality or scale is ever returned. *)
Theorem heuristic_returns_first_trial (fuel : nat) (file : File) (targetFormat : string)
        (result : option Data) :
  findFit fuel file targetFormat = Return result ->
  exists img d,
    createImageBitmap file = Return img
    /\ result = Some d
    /\ fitting img {| format := targetFormat; quality := 0.95; scale := 1.0 |} d.
Proof. apply findFit_Return_inv. Qed.

(** *** The format [detectOptimalFormat] picks *)

Lemma detect_fold (img : ImageBitmap) (l : list string) (st : option string * float) :
  let holds (st : option string * float) :=
    match st.1 with
    | Some f =>
        f ∈ candidateFormats SUPPORTED_INPUT_FORMATS
        /\ exists c, tryCompression img {| opt_format := f; opt_quality := 0.95;
                                           opt_width := None; opt_height := None |} = Some c
                     /\ st.2 = size c
    | None => True
    end in
  Forall (fun f => f ∈ candidateFormats SUPPORTED_INPUT_FORMATS) l ->
  holds st -> holds (fold_left (detectStep tryCompression img) l st).
Proof.
  intros holds Hl. revert st. induction Hl as [|f l Hf Hl IH]; intros st Hst; [exact Hst |].
  cbn [fold_left]. apply IH. unfold detectStep.
  destruct (tryCompression img _) as [c|] eqn:Ec; [| exact Hst].
  destruct (PrimFloat.ltb (size c) st.2); [| exact Hst].
  unfold holds. cbn [fst snd]. split; [exact Hf |]. exists c. now split.
Qed.

(** X15. The format [detectOptimalFormat] returns is the file's own type or
    a supported format other than SVG and GIF that the canvas rendered. *)
Theorem detectOptimalFormat_candidate (file : File) :
  match detectOptimalFormat SUPPORTED_INPUT_FORMATS createImageBitmap tryCompression file with
  | Return f =>
      f = type file
      \/ (f ∈ SUPPORTED_INPUT_FORMATS
          /\ f <> "image/svg+xml"%string /\ f <> "image/gif"%string
          /\ exists img c,
               createImageBitmap file = Return img
               /\ tryCompression img {| opt_format := f; opt_quality := 0.95;
                                        opt_width := None; opt_height := None |} = Some c)
  | Throw _ | Diverge => True
  end.
Proof.
  unfold detectOptimalFormat.
  destruct (createImageBitmap file) as [img| |]; cbn [bind]; try exact I.
  pose proof (detect_fold img (candidateFormats SUPPORTED_INPUT_FORMATS)
                (None, PrimFloat.infinity)) as H.
  cbv zeta in H. specialize (H ltac:(now apply Forall_forall) I).
  destruct (fold_left _ _ _) as [[f|] sz]; cbn [fst snd orElse] in *; [| now left].
  destruct (decide (f = EmptyString)); [now left | right].
  destruct H as [Hin (c & Ec & _)].
  apply list_elem_of_filter in Hin as [[Hsvg Hgif] Hin].
  repeat split; try assumption. exists img, c. now split.
Qed.

End MoreFacts.

Lemma search_converges_witness :
  exists st log,
    binarySearchRun hexEncoder budget narrowOnly image "image/jpeg" PrimFloat.infinity
    = Return (st, log)
    /\ (1 <= length log <= 5)%nat
    /\ closeEnough (bounds st) = true
    /\ iterations st = Z.of_nat (length log) - 1.
Proof.
  apply (search_converges hexEncoder budget narrowOnly image "image/jpeg" PrimFloat.infinity).
  vm_compute. discriminate.
Defined.

Lemma search_result_fits_witness :
  exists st log,
    binarySearchRun hexEncoder budget narrowOnly image "image/jpeg" PrimFloat.infinity
    = Return (st, log)
    /\ params <$> bestResult st = Some foundPoint
    /\ match bestResult st with
       | Some r =>
           success r = true
           /\ params r = {| format := "image/jpeg"; quality := minQuality (bounds st);
                            scale := minScale (bounds st) |}
           /\ exists d, data r = Some d
                        /\ fittingTrial hexEncoder budget narrowOnly image (params r) d
       | None => minQuality (bounds st) = 0.1%float /\ minScale (bounds st) = 0.1%float
       end.
Proof.
  destruct (binarySearchRun hexEncoder budget narrowOnly image "image/jpeg" PrimFloat.infinity)
    as [[st log]| |] eqn:E; try (vm_compute in E; discriminate).
  exists st, log. split; [reflexivity |].
  split; [vm_compute in E; injection E as <- <-; reflexivity |].
  exact (search_result_fits hexEncoder budget narrowOnly image "image/jpeg"
           PrimFloat.infinity st log E).
Defined.

Lemma heuristic_returns_first_trial_witness :
  exists img d,
    decoded pngFile = Return img
    /\ Some {| encoded := list_ascii_of_string "101"; data_format := "image/jpeg";
               data_size := 1 |} = Some d
    /\ fittingTrial hexEncoder budget acceptAll img
         {| format := "image/jpeg"; quality := 0.95; scale := 1.0 |} d.
Proof.
  apply (heuristic_returns_first_trial hexEncoder budget decoded acceptAll 0 pngFile
           "image/jpeg").
  vm_compute. reflexivity.
Defined.

End ImageProcessorMore.

(** ** Facts about the rest of the processor *)

Module ImageProcessorRestFacts.
Import BitStreamEncoder ImageProcessor ImageProcessorRest CodecSpec SearchSpec MoreSpec
       BitStreamFacts BitStreamMore ImageProcessorFacts ImageProcessorMore NumberFacts.

Section RestFacts.

Variable encoder : BitStreamEncoder.t.
Variable SAFE_CHARS : JSString.
Variable MAX_URL_LENGTH : float.
Variable COMPRESSION_STRATEGIES : list Strategy.
Variable SUPPORTED_INPUT_FORMATS : list string.
Variable createImageBitmap : File -> Outcome ImageBitmap.
Variable tryCompression : ImageBitmap -> CompressionOptions -> option Compressed.
Variable arrayBuffer : File -> Outcome Uint8Array.
Variable baseUrl : JSString.
Variable encodeURIComponent : JSString -> JSString.
Variable updateImageStats : File -> Data -> Outcome unit.

Local Abbreviation process :=
  (processFile encoder SAFE_CHARS MAX_URL_LENGTH SUPPORTED_INPUT_FORMATS createImageBitmap
               tryCompression arrayBuffer baseUrl encodeURIComponent updateImageStats).
Local Abbreviation trial := (bruteTrial encoder MAX_URL_LENGTH tryCompression).
Local Abbreviation scales := (scaleLoop encoder MAX_URL_LENGTH tryCompression).
Local Abbreviation strategies := (strategyLoop encoder MAX_URL_LENGTH tryCompression).
Local Abbreviation bruteForce :=
  (compressImageBruteForce encoder MAX_URL_LENGTH COMPRESSION_STRATEGIES
                           createImageBitmap tryCompression).

(** No trial reaches the [break]; one hangs only if the encoder does. *)
Lemma bruteTrial_never_fits (img : ImageBitmap) (fmt : string) (strategy : Strategy)
      (scale : Z) :
  match trial img fmt strategy scale with
  | Done r => r = None
  | Raise _ => True
  | Hang => RADIX encoder < 2
  end.
Proof.
  unfold bruteTrial.
  destruct (BigIntOps.ofNumber (width img)) as [w|]; [| exact I].
  destruct (BigIntOps.ofNumber (height img)) as [h|]; [| exact I].
  destruct (tryCompression img _) as [c|]; [| exact I].
  unfold toBitArray.
  destruct (Z.lt_ge_cases (RADIX encoder) 2) as [HR|HR].
  - destruct (encodeBits encoder (buffer c)); cbn [notAwaited andThen lessOrEqual];
      rewrite ?leb_nan; first [reflexivity | exact HR].
  - destruct (encodeBits_returns encoder (buffer c)) as [s ->]; [lia |].
    cbn [notAwaited andThen lessOrEqual]. now rewrite leb_nan.
Qed.

Lemma scaleLoop_keeps (left : nat) (img : ImageBitmap) (fmt : string) (strategy : Strategy)
      (scale : Z) (best : option BruteResult) :
  scale <= 10 * Z.of_nat left + 9 ->
  match scales left img fmt strategy scale best with
  | Done r => r = best
  | Raise _ => False
  | Hang => RADIX encoder < 2
  end.
Proof.
  revert scale. induction left as [|left IH]; intros scale Hs; cbn [scaleLoop].
  - rewrite (proj2 (Z.leb_gt 10 scale)) by lia. reflexivity.
  - destruct (10 <=? scale); [| reflexivity].
    pose proof (bruteTrial_never_fits img fmt strategy scale) as Ht.
    destruct (trial img fmt strategy scale) as [[r|]|f|];
      [discriminate | apply IH; lia | apply IH; lia | exact Ht].
Qed.

Lemma strategyLoop_keeps (img : ImageBitmap) (fmt : string) (l : list Strategy)
      (best : option BruteResult) :
  match strategies img fmt l best with
  | Done r => r = best
  | Raise _ => False
  | Hang => RADIX encoder < 2
  end.
Proof.
  revert best. induction l as [|strategy l IH]; intros best; cbn [strategyLoop];
    [reflexivity |].
  pose proof (scaleLoop_keeps 10 img fmt strategy 100 best ltac:(lia)) as Hs.
  destruct (scales 10 img fmt strategy 100 best) as [r|f|]; cbn [andThen];
    [subst r; apply IH | contradiction | exact Hs].
Qed.

(** X16. [compressImageBruteForce] never returns a result.  Its call of
    [encodeBits] is not awaited, so the length it compares with the limit is
    [undefined] and no trial is kept: for an image that decodes and an
    encoder of radix at least 2 it throws 'Image too large even after maximum
    compression', whatever the canvas renders. *)
Theorem bruteForce_never_succeeds (file : File) (targetFormat : string) :
  match bruteForce file targetFormat with
  | Done _ => False
  | Raise f => f = ImageTooLarge \/ exists e, createImageBitmap file = Throw e /\ f = Failed e
  | Hang => createImageBitmap file = Diverge \/ RADIX encoder < 2
  end.
Proof.
  unfold compressImageBruteForce.
  destruct (createImageBitmap file) as [img|e|]; cbn [await andThen];
    [| right; eauto | now left].
  pose proof (strategyLoop_keeps img targetFormat COMPRESSION_STRATEGIES None) as Hs.
  destruct (strategies img targetFormat COMPRESSION_STRATEGIES None) as [r|f|];
    cbn [andThen]; [subst r; now left | contradiction | now right].
Qed.

(** X17. When the encoder was built from [CONFIG.SAFE_CHARS], every string
    [encodeBits] returns passes [verifyEncodedData]. *)
Theorem encodings_pass_verification (data : Uint8Array) (encodedData : JSString) :
  constructor SAFE_CHARS = Return encoder ->
  encodeBits encoder data = Return encodedData ->
  verifyEncodedData SAFE_CHARS encodedData = Done true.
Proof.
  intros Hwf%constructor_Return E.
  destruct (encodeBits_Return_alphabet _ _ _ _ Hwf E) as [_ Hs].
  unfold verifyEncodedData. rewrite (filter_invalid_nil _ _ Hs). reflexivity.
Qed.

(** *** [processFile] *)

Lemma verifyEncodedData_Done (encodedData : JSString) (b : bool) :
  verifyEncodedData SAFE_CHARS encodedData = Done b ->
  Forall (fun c => c ∈ SAFE_CHARS) encodedData.
Proof.
  unfold verifyEncodedData.
  destruct (decide (0 < length (filter _ encodedData))%nat) as [|Hfil]; [discriminate |].
  intros _. apply Forall_forall. intros c Hc.
  destruct (decide (c ∈ SAFE_CHARS)) as [|Hn]; [assumption | exfalso].
  assert (Hin : c ∈ filter (fun char => char ∉ SAFE_CHARS) encodedData)
    by (apply list_elem_of_filter; now split).
  destruct (filter _ encodedData); [inversion Hin | simpl in Hfil; lia].
Qed.

(** X18. Whenever [processFile] leaves a URL on the page, the file's type is
    supported and the URL is the base address followed by the URI-encoded
    encoding of the canvas rendering of the image at quality 0.95 and scale
    1.0 in the format [detectOptimalFormat] chose; that encoding is over the
    safe characters and within the limit, and so is the length of the URL.
    A status of success comes with such a URL. *)
Theorem processFile_shows (fuel : nat) (file : File) (page : Page) :
  process fuel file = Done page ->
  (page_status page = StatusSuccess -> is_Some (page_resultUrl page))
  /\ forall finalUrl,
       page_resultUrl page = Some finalUrl ->
       type file ∈ SUPPORTED_INPUT_FORMATS
       /\ exists optimalFormat img d,
            detectOptimalFormat SUPPORTED_INPUT_FORMATS createImageBitmap tryCompression file
            = Return optimalFormat
            /\ createImageBitmap file = Return img
            /\ fittingTrial encoder MAX_URL_LENGTH tryCompression img
                 {| format := optimalFormat; quality := 0.95; scale := 1.0 |} d
            /\ Forall (fun c => c ∈ SAFE_CHARS) (encoded d)
            /\ finalUrl = baseUrl ++ encodeURIComponent (encoded d)
            /\ PrimFloat.ltb MAX_URL_LENGTH (Number.ofZ (Z.of_nat (length finalUrl))) = false.
Proof.
  unfold processFile.
  destruct (decide (type file ∈ SUPPORTED_INPUT_FORMATS)) as [Hsup|];
    [| intros [= <-]; split; [discriminate | intros u; discriminate]].
  destruct (processBody _ _ _ _ _ _ _ _) as [d|f|] eqn:Eb;
    [| intros [= <-]; split; [discriminate | intros u; discriminate] | discriminate].
  destruct (generateResult _ _ _ _ (encoded d)) as [url|f|] eqn:Eg;
    [| intros [= <-]; split; [discriminate | intros u; discriminate] | discriminate].
  intros Hpage.
  assert (Hurl : page_resultUrl page = Some url).
  { destruct (updateImageStats file d); [| | discriminate]; injection Hpage as <-; reflexivity. }
  rewrite Hurl. split; [eauto |]. intros finalUrl [= <-].
  split; [exact Hsup |].
  unfold processBody in Eb.
  destruct (arrayBuffer file) as [buffer| |]; cbn [await andThen] in Eb; try discriminate.
  destruct (notAwaited _); cbn [andThen] in Eb; try discriminate.
  cbn [lessOrEqual] in Eb. rewrite leb_nan in Eb.
  destruct (detectOptimalFormat _ _ _ file) as [optimalFormat| |] eqn:Ef;
    cbn [await andThen] in Eb; try discriminate.
  destruct (compressImageHeuristic _ _ _ _ fuel file optimalFormat) as [result| |] eqn:Eh;
    cbn [await andThen] in Eb; try discriminate.
  apply findFit_Return_inv in Eh as (img & d' & Eimg & -> & Hfit).
  injection Eb as ->.
  unfold generateResult in Eg.
  destruct (verifyEncodedData SAFE_CHARS (encoded d)) as [b| |] eqn:Ev;
    cbn [andThen] in Eg; try discriminate.
  destruct (PrimFloat.ltb MAX_URL_LENGTH _) eqn:El; [discriminate |].
  injection Eg as <-.
  exists optimalFormat, img, d.
  split; [reflexivity |]. split; [exact Eimg |]. split; [exact Hfit |].
  split; [exact (verifyEncodedData_Done _ _ Ev) |]. split; [reflexivity | exact El].
Qed.

End RestFacts.

(** X19. For an encoder of radix at least 2 the bytes of the file play no
    part in what [processFile] does: the encoding of the original file is
    never shown, even when it would fit. *)
Theorem processFile_ignores_bytes
        (encoder : BitStreamEncoder.t) (SAFE_CHARS : JSString) (MAX_URL_LENGTH : float)
        (SUPPORTED_INPUT_FORMATS : list string)
        (createImageBitmap : File -> Outcome ImageBitmap)
        (tryCompression : ImageBitmap -> CompressionOptions -> option Compressed)
        (arrayBuffer arrayBuffer' : File -> Outcome Uint8Array)
        (baseUrl : JSString) (encodeURIComponent : JSString -> JSString)
        (updateImageStats : File -> Data -> Outcome unit)
        (fuel : nat) (file : File) (buffer buffer' : Uint8Array) :
  2 <= RADIX encoder ->
  arrayBuffer file = Return buffer ->
  arrayBuffer' file = Return buffer' ->
  processFile encoder SAFE_CHARS MAX_URL_LENGTH SUPPORTED_INPUT_FORMATS createImageBitmap
              tryCompression arrayBuffer baseUrl encodeURIComponent updateImageStats fuel file
  = processFile encoder SAFE_CHARS MAX_URL_LENGTH SUPPORTED_INPUT_FORMATS createImageBitmap
                tryCompression arrayBuffer' baseUrl encodeURIComponent updateImageStats
                fuel file.
Proof.
  intros HR E E'. unfold processFile, processBody. rewrite E, E'. cbn [await andThen].
  unfold toBitArray.
  destruct (encodeBits_returns encoder buffer HR) as [s ->].
  destruct (encodeBits_returns encoder buffer' HR) as [s' ->].
  reflexivity.
Qed.

Lemma processFile_shows_witness :
  processFile hexEncoder hexChars budget formats decoded acceptAll
              (readsAs [x00; x01; xff]) pageAddress id statsShown 0 pngFile
  = Done {| page_status := StatusSuccess;
            page_resultUrl := Some (list_ascii_of_string "https://host/101") |}
  /\ type pngFile ∈ formats
  /\ exists optimalFormat img d,
       detectOptimalFormat formats decoded acceptAll pngFile = Return optimalFormat
       /\ decoded pngFile = Return img
       /\ fittingTrial hexEncoder budget acceptAll img
            {| format := optimalFormat; quality := 0.95; scale := 1.0 |} d
       /\ Forall (fun c => c ∈ hexChars) (encoded d)
       /\ list_ascii_of_string "https://host/101" = pageAddress ++ id (encoded d)
       /\ PrimFloat.ltb budget
            (Number.ofZ (Z.of_nat (length (list_ascii_of_string "https://host/101")))) = false.
Proof.
  split; [vm_compute; reflexivity |].
  apply (processFile_shows hexEncoder hexChars budget formats decoded acceptAll
           (readsAs [x00; x01; xff]) pageAddress id statsShown 0 pngFile
           {| page_status := StatusSuccess;
              page_resultUrl := Some (list_ascii_of_string "https://host/101") |}).
  - vm_compute. reflexivity.
  - reflexivity.
Defined.

Lemma processFile_ignores_bytes_witness :
  processFile hexEncoder hexChars budget formats decoded acceptAll
              (readsAs [x01]) pageAddress id statsShown 0 pngFile
  = processFile hexEncoder hexChars budget formats decoded acceptAll
                (readsAs [x00; x01; xff]) pageAddress id statsShown 0 pngFile.
Proof.
  apply (processFile_ignores_bytes hexEncoder hexChars budget formats decoded acceptAll
           (readsAs [x01]) (readsAs [x00; x01; xff]) pageAddress id statsShown 0 pngFile
           [x01] [x00; x01; xff]).
  - vm_compute. discriminate.
  - reflexivity.
  - reflexivity.
Defined.

Lemma encodings_pass_verification_witness :
  verifyEncodedData hexChars (list_ascii_of_string "30001FF") = Done true.
Proof.
  apply (encodings_pass_verification hexEncoder hexChars [x00; x01; xff]
           (list_ascii_of_string "30001FF")).
  - reflexivity.
  - vm_compute. reflexivity.
Defined.

End ImageProcessorRestFacts.
